(** * Algomation API 1.0: scene graph, command log, tick protocol, history replay

    A shallow embedding of the parts of [element.js], [surface.js],
    [worker_core.js] and [core.js] that keep the worker-side scene graph and
    its renderer-side mirror consistent, with the properties that the
    specification states about them.

    Conventions of the embedding.
    - JavaScript objects that are shared and mutated in place (arrays and
      [algo.render.Element] instances) live in a store and are referred to by
      address; option bags, command payloads and state definitions are passed
      by value, with explicit state passing where the source mutates them.
    - An object is an association list in insertion order, which is the order
      in which [_.each] visits its keys.
    - Numbers are the integers and NaN; the two computations of the source
      that need floating point (the geometry adapters behind [shape], the
      label width of a letter tile) are parameters of the development.
    - A thrown exception is a result of its own that carries the store at the
      point of the throw; functions whose recursion follows the store take
      fuel and report its exhaustion separately.
    - Property names are data names: a bag never uses the name of a prototype
      method or of [Object.prototype] as a key, and keys, ids and state names
      are primitives.
    - The rendering back end ([createDOM], [updateDOM], [update],
      [validate], jQuery) is outside the embedding. *)

From Stdlib Require Import ZArith Lia Sorted.
From stdpp Require Import gmap strings list pretty.

Open Scope Z_scope.
Open Scope string_scope.
Open Scope list_scope.

(** ** JavaScript values *)

(** Addresses of the store. *)
Abbreviation loc := nat (only parsing).

#[warnings="-register-all"]
Inductive value : Type :=
| VUndef
| VNull
| VBool (b : bool)
| VNum (n : Z)
| VNaN
| VStr (s : string)
| VConst (name : string)
| VArr (a : loc)
| VElem (e : loc)
| VGroup (g : loc)
| VObj (fields : list (string * value)).

(** [VConst] is a constant of a library that is not part of the repository
    (the colours of [color.js]): immutable, truthy, not an array, identical
    to itself only.  [VArr a] is the array stored at [a], [VElem e] the
    element stored at [e], [VGroup g] an [ElementGroup] whose [elements]
    array is stored at [g].  [VObj] is an object literal, passed by value and
    therefore never identical to another object: an object that is handed
    to the code a second time is a second [VObj], so that what is said of
    [===] on objects holds for different objects only. *)

(** An object: its own properties in insertion order. *)
Abbreviation obj := (list (string * value)) (only parsing).

Definition truthy (v : value) : bool :=
  match v with
  | VUndef | VNull | VNaN => false
  | VBool b => b
  | VNum n => negb (n =? 0)%Z
  | VStr s => negb (String.eqb s "")
  | _ => true
  end.

(** [a === b]; object literals are different objects. *)
Definition strict_eq (a b : value) : bool :=
  match a, b with
  | VUndef, VUndef => true
  | VNull, VNull => true
  | VBool x, VBool y => Bool.eqb x y
  | VNum x, VNum y => (x =? y)%Z
  | VStr x, VStr y => String.eqb x y
  | VConst x, VConst y => String.eqb x y
  | VArr x, VArr y => Nat.eqb x y
  | VElem x, VElem y => Nat.eqb x y
  | VGroup x, VGroup y => Nat.eqb x y
  | _, _ => false
  end.

Definition isArray (v : value) : bool :=
  match v with VArr _ => true | _ => false end.

(** The property key that a primitive converts to. *)
Definition to_key (v : value) : string :=
  match v with
  | VUndef => "undefined"
  | VNull => "null"
  | VBool true => "true"
  | VBool false => "false"
  | VNum n => pretty n
  | VNaN => "NaN"
  | VStr s => s
  | VConst s => s
  | _ => "[object Object]"
  end.

(** ** Objects as insertion-ordered association lists *)

Section Assoc.
Context {V : Type}.

Fixpoint olookup (k : string) (o : list (string * V)) : option V :=
  match o with
  | [] => None
  | (k', v) :: o' => if String.eqb k k' then Some v else olookup k o'
  end.

(** [o[k] = v]: an existing key keeps its place, a new key goes last. *)
Fixpoint oset (k : string) (v : V) (o : list (string * V)) : list (string * V) :=
  match o with
  | [] => [(k, v)]
  | (k', v') :: o' =>
      if String.eqb k k' then (k, v) :: o' else (k', v') :: oset k v o'
  end.

(** [delete o[k]] *)
Fixpoint odel (k : string) (o : list (string * V)) : list (string * V) :=
  match o with
  | [] => []
  | (k', v') :: o' =>
      if String.eqb k k' then odel k o' else (k', v') :: odel k o'
  end.

Definition okeys (o : list (string * V)) : list string := o.*1.

End Assoc.

Definition oget (k : string) (o : obj) : value :=
  match olookup k o with Some v => v | None => VUndef end.

(** [_.has(o, k)] *)
Definition has (o : obj) (k : string) : bool :=
  match olookup k o with Some _ => true | None => false end.

(** [o] has a numeric [length].  [_.each] takes such an object for an
    array and visits its indices instead of its keys; the walks of bags,
    payloads and state definitions below are those of objects, and the
    properties that depend on them are stated for objects without a
    numeric [length]. *)
Definition numeric_length (o : obj) : bool :=
  match olookup "length" o with
  | Some (VNum _) => true
  | _ => false
  end.

(** The names that every object inherits from [Object.prototype]: [o[k]]
    is the inherited member, which is truthy, when [o] has no own property
    of such a name.  The lookups [Element.map[id]] and [this.states[name]]
    below are lookups of own properties, and the properties that depend on
    a lookup that finds nothing are stated for other names. *)
Definition Object_prototype : list string :=
  ["constructor"; "toString"; "toLocaleString"; "valueOf"; "hasOwnProperty";
   "isPrototypeOf"; "propertyIsEnumerable"; "__proto__"; "__defineGetter__";
   "__defineSetter__"; "__lookupGetter__"; "__lookupSetter__"].

Definition inherited_name (k : string) : bool :=
  bool_decide (k ∈ Object_prototype).

(** [_.omit(o, k1, k2, ...)]: a copy of [o] without the listed keys. *)
Definition omit (o : obj) (ks : list string) : obj :=
  filter (fun kv => kv.1 ∉ ks) o.

(** [_.extend(dest, src)] *)
Definition extend (dest src : obj) : obj :=
  fold_left (fun d kv => oset kv.1 kv.2 d) src dest.

(** [_.defaults(o, d)]: fill in the properties of [d] that are undefined
    in [o]. *)
Definition defaults (o d : obj) : obj :=
  fold_left
    (fun o kv => if strict_eq (oget kv.1 o) VUndef then oset kv.1 kv.2 o else o)
    d o.

(** [algo.core.hasAny(o, k1, k2, ...)] *)
Definition hasAny (o : obj) (ks : list string) : bool :=
  existsb (has o) ks.

(** ** The store *)

(** The prototypes of [algo.render]. *)
Inductive Kind := KElement | KRectangle | KLetterTile | KCircle | KLine | KArrow.

(** An element: its prototype, its table of named display states
    ([this.states], name to property subset) and its other own properties
    ([id], [parent], [parentID], [children], [destroyed], [x], [fill], ...). *)
Record Element := mkElement {
  proto : Kind;
  states : list (string * value);
  own : obj
}.

(** A command of the buffer: [{name, options}]. *)
Record command := mkCommand {
  name : string;
  options : obj
}.

Definition UPDATE_COMMAND : string := "updateElement".
Definition DESTROY_COMMAND : string := "destroyElement".

Inductive Location := WORKER | DOM.

(** The surface singleton [algo.SURFACE].  Its field [historyFrame], which
    only [executeCommandHistory] reads and writes, is kept with the
    recorded history (see [Replay] below). *)
Record Surface := mkSurface {
  location : Location;
  commands : list command;
  root : value
}.

(** The messages that the worker posts to the page. *)
Inductive message :=
| M_Initialize_ACK
| M_Exception (msg : string)
| M_Pause (renderCommands : list command) (pauseParameters : value)
| M_Done (renderCommands : list command).

Record World := mkWorld {
  arrays : gmap loc (list value);
  elements : gmap loc Element;
  next_loc : loc;
  Element_nextID : nat;                 (* algo.render.Element.nextID *)
  Element_map : gmap string loc;        (* algo.render.Element.map *)
  SURFACE : option Surface;             (* algo.SURFACE *)
  posted : list message                 (* what worker.postMessage has sent *)
}.

Definition empty_world : World :=
  mkWorld ∅ ∅ 0%nat 0%nat ∅ None [].

(** ** Computations: state, exceptions, fuel *)

Inductive Result (A : Type) : Type :=
| Ok (a : A) (w : World)
| Throw (msg : string) (w : World)
| Diverge.
Arguments Ok {A} a w.
Arguments Throw {A} msg w.
Arguments Diverge {A}.

Definition M (A : Type) : Type := World -> Result A.

Definition ret {A} (a : A) : M A := fun w => Ok a w.

Definition bind {A B} (m : M A) (k : A -> M B) : M B :=
  fun w =>
    match m w with
    | Ok a w' => k a w'
    | Throw e w' => Throw e w'
    | Diverge => Diverge
    end.

Definition throw {A} (msg : string) : M A := fun w => Throw msg w.
Definition diverge {A} : M A := fun _ => Diverge.
Definition get_world : M World := fun w => Ok w w.
Definition modify (f : World -> World) : M unit := fun w => Ok tt (f w).

Notation "'let*' x ':=' m 'in' k" := (bind m (fun x => k))
  (at level 10, x pattern, m at level 100, k at level 200).
Notation "m ;;; k" := (bind m (fun _ => k))
  (at level 100, k at level 200, right associativity).

Definition when (b : bool) (m : M unit) : M unit := if b then m else ret tt.

(** The message of the exception that the runtime raises on a call or a
    property read that the value does not support. *)
Definition TypeError : string := "TypeError".

Fixpoint foldM {A S} (f : S -> A -> M S) (l : list A) (s : S) : M S :=
  match l with
  | [] => ret s
  | x :: l' => let* s' := f s x in foldM f l' s'
  end.

Definition forM {A} (l : list A) (f : A -> M unit) : M unit :=
  foldM (fun _ x => f x) l tt.

(** *** Arrays *)

Definition set_arrays (f : gmap loc (list value) -> gmap loc (list value)) (w : World) : World :=
  mkWorld (f (arrays w)) (elements w) (next_loc w) (Element_nextID w) (Element_map w) (SURFACE w) (posted w).

Definition set_elements (f : gmap loc Element -> gmap loc Element) (w : World) : World :=
  mkWorld (arrays w) (f (elements w)) (next_loc w) (Element_nextID w) (Element_map w) (SURFACE w) (posted w).

Definition set_next_loc (n : loc) (w : World) : World :=
  mkWorld (arrays w) (elements w) n (Element_nextID w) (Element_map w) (SURFACE w) (posted w).

Definition set_nextID (n : nat) (w : World) : World :=
  mkWorld (arrays w) (elements w) (next_loc w) n (Element_map w) (SURFACE w) (posted w).

Definition set_map (f : gmap string loc -> gmap string loc) (w : World) : World :=
  mkWorld (arrays w) (elements w) (next_loc w) (Element_nextID w) (f (Element_map w)) (SURFACE w) (posted w).

Definition set_SURFACE (s : option Surface) (w : World) : World :=
  mkWorld (arrays w) (elements w) (next_loc w) (Element_nextID w) (Element_map w) s (posted w).

Definition postMessage (m : message) (w : World) : World :=
  mkWorld (arrays w) (elements w) (next_loc w) (Element_nextID w) (Element_map w) (SURFACE w)
          (posted w ++ [m]).

(** The contents of the array at [a]. *)
Definition array_at (w : World) (a : loc) : list value :=
  default [] (arrays w !! a).

Definition read_array (a : loc) : M (list value) :=
  fun w => Ok (array_at w a) w.

Definition write_array (a : loc) (l : list value) : M unit :=
  modify (set_arrays <[a := l]>).

(** A new array literal. *)
Definition alloc_array (l : list value) : M loc :=
  fun w => Ok (next_loc w) (set_next_loc (S (next_loc w)) (set_arrays <[next_loc w := l]> w)).

(** [a.push(v)] *)
Definition array_push (a : loc) (v : value) : M unit :=
  let* l := read_array a in write_array a (l ++ [v]).

(** [_.each(a, f)] on an array: the indices below the length the array had
    at the start, each read when it is reached and skipped when the array
    no longer has it. *)
Definition each_array {S} (a : loc) (f : S -> value -> M S) (s : S) : M S :=
  let* l0 := read_array a in
  foldM (fun s i =>
           let* l := read_array a in
           match l !! i with
           | Some v => f s v
           | None => ret s
           end)
        (seq 0 (length l0)) s.

(** [a.indexOf(v)] *)
Fixpoint indexOf (v : value) (l : list value) : option nat :=
  match l with
  | [] => None
  | x :: l' => if strict_eq x v then Some 0%nat else S <$> indexOf v l'
  end.

(** *** Elements *)

Definition get_element (e : loc) : M Element :=
  fun w => match elements w !! e with
           | Some el => Ok el w
           | None => Throw TypeError w
           end.

Definition update_element (e : loc) (f : Element -> Element) : M unit :=
  let* el := get_element e in modify (set_elements <[e := f el]>).

(** [e[k]] for an own property. *)
Definition own_get (e : loc) (k : string) : M value :=
  let* el := get_element e in ret (oget k (own el)).

(** [e[k] = v] *)
Definition own_set (e : loc) (k : string) (v : value) : M unit :=
  update_element e (fun el => mkElement (proto el) (states el) (oset k v (own el))).

(** [delete e[k]] *)
Definition own_del (e : loc) (k : string) : M unit :=
  update_element e (fun el => mkElement (proto el) (states el) (odel k (own el))).

(** [v[k]] for any value [v]. *)
Definition prop (v : value) (k : string) : M value :=
  match v with
  | VUndef | VNull => throw TypeError
  | VElem e => own_get e k
  | VObj fields => ret (oget k fields)
  | _ => ret VUndef
  end.

(** [new] allocates the object that the constructors then fill in. *)
Definition alloc_element (k : Kind) : M loc :=
  fun w => Ok (next_loc w)
              (set_next_loc (S (next_loc w)) (set_elements <[next_loc w := mkElement k [] []]> w)).

(** *** The surface singleton *)

Definition the_surface : M Surface :=
  fun w => match SURFACE w with
           | Some s => Ok s w
           | None => Throw TypeError w
           end.

Definition update_surface (f : Surface -> Surface) : M unit :=
  let* s := the_surface in modify (set_SURFACE (Some (f s))).

Definition isDOM (s : Surface) : bool :=
  match location s with DOM => true | WORKER => false end.

Definition isWorker (s : Surface) : bool :=
  match location s with WORKER => true | DOM => false end.

Definition set_commands (cs : list command) (s : Surface) : Surface :=
  mkSurface (location s) cs (root s).

Definition set_root (r : value) (s : Surface) : Surface :=
  mkSurface (location s) (commands s) r.

(** ** [algo.render.ElementGroup] *)

(** [group.add(e)] *)
Definition ElementGroup_add (g : loc) (e : value) : M unit :=
  let* l := read_array g in
  match indexOf e l with
  | None => write_array g (l ++ [e])
  | Some _ => ret tt
  end.

(** [group.remove(e)] *)
Definition ElementGroup_remove (g : loc) (e : value) : M unit :=
  let* l := read_array g in
  match indexOf e l with
  | Some index => write_array g (take index l ++ drop (S index) l)
  | None => ret tt
  end.

(** [group.destroy()], over the [destroy] of the members: it works from a
    copy of the member list, then empties the list. *)
Definition ElementGroup_destroy (destroy : loc -> M unit) (g : loc) : M unit :=
  let* snapshot := read_array g in
  forM snapshot (fun e =>
                   match e with
                   | VElem r => destroy r
                   | _ => throw TypeError
                   end) ;;;
  write_array g [].

(** ** The command log of [algo.render.Surface] *)

(** The first update command of the buffer that targets [id], extended with
    [c]; [None] when the buffer has none. *)
Fixpoint extend_existing (id : value) (c : obj) (cs : list command) : option (list command) :=
  match cs with
  | [] => None
  | command :: cs' =>
      if String.eqb (name command) UPDATE_COMMAND && strict_eq (oget "id" (options command)) id
      then Some (mkCommand (name command) (extend (options command) c) :: cs')
      else (command ::.) <$> extend_existing id c cs'
  end.

(** [surface.addCommand(name, element, options)] *)
Definition Surface_addCommand (name : string) (element : loc) (options : obj) : M unit :=
  let* s := the_surface in
  if isDOM s then ret tt
  else
    let c := omit options ["states"; "state"; "shape"] in
    let* c := (if truthy (oget "parent" options)
               then let* pid := prop (oget "parent" options) "id" in ret (oset "parent" pid c)
               else ret c) in
    let* id := own_get element "id" in
    let c := oset "id" id c in
    let push := update_surface (fun s => set_commands (commands s ++ [mkCommand name c]) s) in
    if String.eqb name UPDATE_COMMAND then
      match extend_existing id c (commands s) with
      | Some cs => update_surface (set_commands cs)
      | None => push
      end
    else push.

(** [surface.elementDestroyed(element)] *)
Definition Surface_elementDestroyed (element : loc) : M unit :=
  Surface_addCommand DESTROY_COMMAND element [].

(** [surface.elementUpdated(element, options)] *)
Definition Surface_elementUpdated (element : loc) (options : obj) : M unit :=
  Surface_addCommand UPDATE_COMMAND element options.

(** [surface.flushCommands()] *)
Definition Surface_flushCommands : M (list command) :=
  let* s := the_surface in
  update_surface (set_commands []) ;;;
  ret (commands s).

(** One property of the payload in [processOptions]: the payload and the
    clone after it. *)
Definition processOptions_entry (acc : obj * obj) (kv : string * value) : M (obj * obj) :=
  let '(options, clone) := acc in
  let '(key, value) := kv in
  match value with
  | VArr a =>
      let* l := read_array a in
      write_array a (tail l) ;;;
      let clone := oset key (default VUndef (head l)) clone in
      if (length (tail l) =? 0)%nat
      then ret (odel key options, clone)
      else ret (oset "more" (VBool true) options, clone)
  | _ => ret (options, oset key value clone)
  end.

(** [surface.processOptions(options)]: the payload after the call and the
    clone that is transmitted.  The walk is that of [_.each] over an
    object, key by key ([numeric_length] tells the payloads that [_.each]
    would walk by index). *)
Definition Surface_processOptions (options : obj) : M (obj * obj) :=
  let options := odel "more" options in
  foldM processOptions_entry options (options, []).

(** ** [algo.render.Element] *)

Definition kS_NORMAL : string := "ks_normal".
Definition kS_FADED : string := "ks_faded".
Definition kS_BLUE : string := "ks_blue".
Definition kS_GRAY : string := "ks_gray".
Definition kS_ORANGE : string := "ks_orange".
Definition kS_RED : string := "ks_red".
Definition kS_GREEN : string := "ks_green".
Definition kS_CYAN : string := "ks_cyan".

(** The colour constants of [algo.Color]. *)
Definition iWHITE : value := VConst "algo.Color.iWHITE".
Definition iBLUE : value := VConst "algo.Color.iBLUE".
Definition iGRAY : value := VConst "algo.Color.iGRAY".
Definition iORANGE : value := VConst "algo.Color.iORANGE".
Definition iRED : value := VConst "algo.Color.iRED".
Definition iGREEN : value := VConst "algo.Color.iGREEN".
Definition iCYAN : value := VConst "algo.Color.iCYAN".
Definition iTRANSPARENT : value := VConst "algo.Color.iTRANSPARENT".

(** A state definition [{name, properties}]. *)
Definition state_def (name : string) (properties : obj) : value :=
  VObj [("name", VStr name); ("properties", VObj properties)].

Definition display_state (name : string) (fill stroke pen : value) : value :=
  state_def name [("fill", fill); ("stroke", stroke); ("pen", pen)].

(** The states that the [Element] constructor registers. *)
Definition default_states : list value :=
  [ display_state kS_NORMAL iWHITE iBLUE iBLUE;
    display_state kS_FADED iWHITE iGRAY iGRAY;
    display_state kS_BLUE iBLUE iBLUE iWHITE;
    display_state kS_GRAY iGRAY iGRAY iWHITE;
    display_state kS_ORANGE iORANGE iORANGE iWHITE;
    display_state kS_RED iRED iRED iWHITE;
    display_state kS_GREEN iGREEN iGREEN iWHITE;
    display_state kS_CYAN iCYAN iCYAN iWHITE ].

(** The states that the [Line] constructor puts before the caller's. *)
Definition lineStates : list value :=
  [ state_def kS_NORMAL [("fill", iBLUE)];
    state_def kS_BLUE [("fill", iBLUE)];
    state_def kS_GRAY [("fill", iGRAY)];
    state_def kS_FADED [("fill", iGRAY)];
    state_def kS_ORANGE [("fill", iORANGE)];
    state_def kS_RED [("fill", iRED)];
    state_def kS_CYAN [("fill", iCYAN)] ].

(** [algo.render.Element.resetClass()] *)
Definition Element_resetClass : M unit :=
  modify (fun w => set_map (fun _ => ∅) (set_nextID 0%nat w)).

(** [algo.render.Element.findElement(id)]: the element that is registered
    under the id, [undefined] when there is none (for the names of
    [Object_prototype] the code finds the inherited member then). *)
Definition Element_findElement (id : value) : M value :=
  fun w => match Element_map w !! to_key id with
           | Some e => Ok (VElem e) w
           | None => Ok VUndef w
           end.

(** [_.each(v, f)] for a value that is an array or an object literal. *)
Definition each_value (v : value) (f : value -> M unit) : M unit :=
  match v with
  | VArr a => each_array a (fun _ x => f x) tt
  | VObj fields => forM fields (fun kv => f kv.2)
  | _ => ret tt
  end.

(** [this.addStates(states)] *)
Definition Element_addStates (this : loc) (defs : value) : M unit :=
  each_value defs (fun state =>
    let* name := prop state "name" in
    let* properties := prop state "properties" in
    update_element this (fun el =>
      mkElement (proto el) (oset (to_key name) properties (states el)) (own el))).

(** [this.children.elements] *)
Definition children_of (this : loc) : M loc :=
  let* c := own_get this "children" in
  match c with
  | VGroup g => ret g
  | _ => throw TypeError
  end.

(** [this.addChild(e)] *)
Definition Element_addChild (this : loc) (e : loc) : M unit :=
  let* g := children_of this in
  ElementGroup_add g (VElem e) ;;;
  own_set e "parent" (VElem this) ;;;
  let* id := own_get this "id" in
  own_set e "parentID" id.

(** [this.removeChild(e)] *)
Definition Element_removeChild (this : loc) (e : loc) : M unit :=
  let* g := children_of this in
  ElementGroup_remove g (VElem e) ;;;
  own_del e "parent" ;;;
  own_del e "parentID".

(** A method call [v.m(...)] on a value that has to be an element. *)
Definition on_element {A} (v : value) (m : loc -> M A) : M A :=
  match v with
  | VElem e => m e
  | _ => throw TypeError
  end.

(** [this.destroy()], after the children have been destroyed: "now,
    ourselves". *)
Definition destroy_self (this : loc) : M unit :=
  let* parent := own_get this "parent" in
  when (truthy parent) (on_element parent (fun p => Element_removeChild p this)) ;;;
  let* dom := own_get this "dom" in
  when (truthy dom) (own_del this "dom") ;;;
  Surface_elementDestroyed this ;;;
  let* id := own_get this "id" in
  let* found := Element_findElement id in
  if negb (truthy found) then throw "Missing Element"
  else
    modify (set_map (delete (to_key id))) ;;;
    own_set this "destroyed" (VBool true).

(** [this.destroy()] *)
Fixpoint Element_destroy (fuel : nat) (this : loc) : M unit :=
  match fuel with
  | O => diverge
  | S fuel =>
      let* destroyed := own_get this "destroyed" in
      if truthy destroyed then throw "Destroy already called in Element::destroy"
      else
        let* g := children_of this in
        ElementGroup_destroy (Element_destroy fuel) g ;;;
        destroy_self this
  end.

(** ** [algo.core.Array] of [core.js] *)

Module CoreArray.

(** The numbers that an index takes, and a variable that may be unset. *)
Inductive number := Int (z : Z) | NaN.
Inductive variable := Undefined | Number (n : number).

(** [ToNumber(v)] *)
Definition to_number (v : variable) : number :=
  match v with
  | Undefined => NaN
  | Number n => n
  end.

(** [a + b] *)
Definition plus (a b : number) : number :=
  match a, b with
  | Int x, Int y => Int (x + y)
  | _, _ => NaN
  end.

(** [a < b] *)
Definition less (a b : number) : bool :=
  match a, b with
  | Int x, Int y => (x <? y)%Z
  | _, _ => false
  end.

(** [a > b] *)
Definition greater (a b : number) : bool :=
  match a, b with
  | Int x, Int y => (y <? x)%Z
  | _, _ => false
  end.

(** [a >= b] *)
Definition greater_eq (a b : number) : bool :=
  match a, b with
  | Int x, Int y => (y <=? x)%Z
  | _, _ => false
  end.

(** The integer that [splice] makes of its index. *)
Definition to_integer (n : number) : Z :=
  match n with
  | Int z => z
  | NaN => 0
  end.

(** An entry [{value, element}] of [this.a]. *)
Record item := mkItem {
  item_value : value;
  item_element : value
}.

(** The callbacks of the options object that the array invokes.  What they
    do to the scene is not part of the array; each invocation is logged. *)
Inductive call :=
| createElement (v : value) (index : number)
| updateElement (v : value) (index : number) (element : value)
| destroyElement (element : value)
| swapElement (v : value) (newIndex oldIndex : number) (element : value).

(** The options: which callbacks are given, and the element that
    [createElement] returns. *)
Record Options := mkOptions {
  has_createElement : option (value -> number -> value);
  has_updateElement : bool;
  has_destroyElement : bool;
  has_swapElement : bool
}.

Record Array := mkArray {
  a : list item;
  options : Options;
  calls : list call
}.

Inductive outcome :=
| Returns (arr : Array)
| Throws (msg : string)
| OutOfFuel.

(** [this.a.length] *)
Definition length_of (arr : Array) : number := Int (Z.of_nat (length (a arr))).

(** [this.a[index]] *)
Definition item_at (arr : Array) (index : number) : option item :=
  match index with
  | Int z => if (z <? 0)%Z then None else a arr !! Z.to_nat z
  | NaN => None
  end.

(** The [updateElement] notifications among the logged calls. *)
Definition updateElement_calls (cs : list call) : list call :=
  List.filter (fun c => match c with updateElement _ _ _ => true | _ => false end) cs.

Definition log (c : call) (arr : Array) : Array :=
  mkArray (a arr) (options arr) (calls arr ++ [c]).

(** [this.invoke('updateElement', value, index, element)] *)
Definition invoke_updateElement (v : value) (index : number) (element : value) (arr : Array) : Array :=
  if has_updateElement (options arr) then log (updateElement v index element) arr else arr.

(** [this.invoke('destroyElement', element)] *)
Definition invoke_destroyElement (element : value) (arr : Array) : Array :=
  if has_destroyElement (options arr) then log (destroyElement element) arr else arr.

(** [this.invoke('createElement', value, index)]: the array after the call
    and the element returned. *)
Definition invoke_createElement (v : value) (index : number) (arr : Array) : Array * value :=
  match has_createElement (options arr) with
  | Some f => (log (createElement v index) arr, f v index)
  | None => (arr, VUndef)
  end.

(** The loop of [updateElements] from the test of its condition on. *)
Fixpoint updateElements_loop (fuel : nat) (index : number) (arr : Array) : outcome :=
  match fuel with
  | O => OutOfFuel
  | S fuel =>
      if less index (length_of arr) then
        match item_at arr index with
        | Some it =>
            let arr := if truthy (item_element it)
                       then invoke_updateElement (item_value it) index (item_element it) arr
                       else arr in
            updateElements_loop fuel (plus index (Int 1)) arr
        | None => Throws TypeError
        end
      else Returns arr
  end.

(** [this.updateElements()]: [var index] is hoisted, so that the
    initialiser [index + 1] reads it unset. *)
Definition updateElements (arr : Array) : outcome :=
  let index := Undefined in
  let index := plus (to_number index) (Int 1) in
  updateElements_loop (S (length (a arr))) index arr.

(** [this.insertAt(value, index)] *)
Definition insertAt (v : value) (index : number) (arr : Array) : outcome :=
  if less index (Int 0) || greater index (length_of arr)
  then Throws "Invalid Index"
  else
    let '(arr, element) := invoke_createElement v index arr in
    let i := Z.to_nat (to_integer index) in
    updateElements
      (mkArray (take i (a arr) ++ mkItem v element :: drop i (a arr)) (options arr) (calls arr)).

(** [this.push(value)] *)
Definition push (v : value) (arr : Array) : outcome :=
  insertAt v (Int (Z.of_nat (length (a arr)))) arr.

(** [this.validateIndex(index)]: does it throw? *)
Definition validateIndex (index : number) (arr : Array) : bool :=
  less index (Int 0) || greater_eq index (length_of arr).

(** [this.removeAt(index)] *)
Definition removeAt (index : number) (arr : Array) : outcome :=
  if validateIndex index arr then Throws "Invalid Index"
  else
    let i := Z.to_nat (to_integer index) in
    match a arr !! i with
    | None => Throws TypeError
    | Some it =>
        let arr := mkArray (take i (a arr) ++ drop (S i) (a arr)) (options arr) (calls arr) in
        let arr := if truthy (item_element it) then invoke_destroyElement (item_element it) arr
                   else arr in
        updateElements arr
    end.

(** [this.pop()] *)
Definition pop (arr : Array) : outcome :=
  removeAt (Int (Z.of_nat (length (a arr)) - 1)) arr.

(** What a reading method gives back. *)
Inductive answer :=
| Value (v : value)
| Fails (msg : string).

(** [this.getValue(index)], which is also what the function of
    [getValueAccessor] does. *)
Definition getValue (index : number) (arr : Array) : answer :=
  if validateIndex index arr then Fails "Invalid Index"
  else match item_at arr index with
       | Some it => Value (item_value it)
       | None => Fails TypeError
       end.

(** [this.getElement(index)], which is also what the function of
    [getElementAccessor] does. *)
Definition getElement (index : number) (arr : Array) : answer :=
  if validateIndex index arr then Fails "Invalid Index"
  else match item_at arr index with
       | Some it => Value (item_element it)
       | None => Fails TypeError
       end.

(** [this.setValue(index, value)] *)
Definition setValue (index : number) (v : value) (arr : Array) : outcome :=
  if validateIndex index arr then Throws "Invalid Index"
  else match item_at arr index with
       | Some it =>
           let i := Z.to_nat (to_integer index) in
           let arr := mkArray (<[i := mkItem v (item_element it)]> (a arr)) (options arr) (calls arr) in
           Returns (if truthy (item_element it)
                    then invoke_updateElement v index (item_element it) arr
                    else arr)
       | None => Throws TypeError
       end.

(** [this.invoke('swapElement', value, newIndex, oldIndex, element)] *)
Definition invoke_swapElement (v : value) (newIndex oldIndex : number) (element : value)
    (arr : Array) : Array :=
  if has_swapElement (options arr) then log (swapElement v newIndex oldIndex element) arr else arr.

(** [this.swap(x, y)]: an index that is not a number passes the validation
    and then names no item, so that the read of [element] fails. *)
Definition swap (x y : number) (arr : Array) : outcome :=
  if validateIndex x arr then Throws "Invalid Index"
  else if validateIndex y arr then Throws "Invalid Index"
  else match item_at arr x, item_at arr y with
       | Some temp, Some at_y =>
           let i := Z.to_nat (to_integer x) in
           let j := Z.to_nat (to_integer y) in
           let arr := mkArray (<[j := temp]> (<[i := at_y]> (a arr))) (options arr) (calls arr) in
           match item_at arr x, item_at arr y with
           | Some at_x, Some at_y =>
               let arr := if truthy (item_element at_x)
                          then invoke_swapElement (item_value at_x) x y (item_element at_x) arr
                          else arr in
               Returns (if truthy (item_element at_y)
                        then invoke_swapElement (item_value at_y) y x (item_element at_y) arr
                        else arr)
           | _, _ => Throws TypeError
           end
       | _, _ => Throws TypeError
       end.

(** The loop of the constructor over [options.data]. *)
Fixpoint push_each (data : list value) (arr : Array) : outcome :=
  match data with
  | [] => Returns arr
  | e :: data =>
      match push e arr with
      | Returns arr => push_each data arr
      | failed => failed
      end
  end.

(** [new algo.core.Array(options)] with [options.data] the list [data]. *)
Definition new_Array (opts : Options) (data : list value) : outcome :=
  push_each data (mkArray [] opts []).

(** The values of the array, in the order of the indices. *)
Definition values (arr : Array) : list value := map item_value (a arr).

(** An array of three items, the second of which has no element, with the
    callbacks for updates, removals and swaps. *)
Definition three_items : Array :=
  mkArray [mkItem (VNum 10) (VStr "e0"); mkItem (VNum 20) VUndef; mkItem (VNum 30) (VStr "e2")]
          (mkOptions None true true true) [].

End CoreArray.

(** ** The array helpers of [core.js] *)

Module Core.

(** The values that the helpers are applied to here: [undefined], booleans
    and numbers.  Arrays are lists of them; an index beyond the length
    reads as [undefined]. *)
Inductive prim :=
| PUndefined
| PBool (b : bool)
| PNum (n : CoreArray.number).

Definition num (z : Z) : prim := PNum (CoreArray.Int z).

(** [ToNumber(p)] *)
Definition to_number (p : prim) : CoreArray.number :=
  match p with
  | PUndefined => CoreArray.NaN
  | PBool true => CoreArray.Int 1
  | PBool false => CoreArray.Int 0
  | PNum n => n
  end.

(** [a === b] *)
Definition strict_equal (a b : prim) : bool :=
  match a, b with
  | PUndefined, PUndefined => true
  | PBool x, PBool y => Bool.eqb x y
  | PNum (CoreArray.Int x), PNum (CoreArray.Int y) => (x =? y)%Z
  | _, _ => false
  end.

(** [a < b], which compares the numbers that these values convert to. *)
Definition less_than (a b : prim) : bool :=
  CoreArray.less (to_number a) (to_number b).

(** [n === 0] and [n < 0] for the result of a comparison. *)
Definition is_zero (n : CoreArray.number) : bool :=
  match n with
  | CoreArray.Int z => (z =? 0)%Z
  | CoreArray.NaN => false
  end.

Definition is_negative (n : CoreArray.number) : bool :=
  CoreArray.less n (CoreArray.Int 0).

(** A comparator function, when one is passed. *)
Definition comparator := option (prim -> prim -> CoreArray.number).

(** [algo.core.compareItems(a, b, comparator)] *)
Definition compareItems (a b : prim) (c : comparator) : CoreArray.number :=
  match c with
  | Some f => f a b
  | None =>
      if strict_equal a b then CoreArray.Int 0
      else if less_than a b then CoreArray.Int (-1)
      else CoreArray.Int 1
  end.

(** [a[i]] *)
Definition js_get (a : list prim) (i : Z) : prim :=
  if (i <? 0)%Z then PUndefined else default PUndefined (a !! Z.to_nat i).

(** [a[i] = x]: a write at or beyond the length extends the array. *)
Definition js_set (a : list prim) (i : nat) (x : prim) : list prim :=
  if (i <? length a)%nat then <[i := x]> a
  else a ++ replicate (i - length a) PUndefined ++ [x].

(** [n >> k]: the operand is taken as a signed 32-bit integer. *)
Definition to_int32 (z : Z) : Z := ((z + 2 ^ 31) mod 2 ^ 32 - 2 ^ 31)%Z.

Definition shr (z k : Z) : Z := Z.shiftr (to_int32 z) k.

(** [a.slice(s, e)]: a negative index counts from the end. *)
Definition relative_index (len i : Z) : Z :=
  if (i <? 0)%Z then Z.max (len + i) 0 else Z.min i len.

Definition slice (a : list prim) (s e : Z) : list prim :=
  let len := Z.of_nat (length a) in
  let from := relative_index len s in
  let to := relative_index len e in
  take (Z.to_nat (to - from)) (drop (Z.to_nat from) a).

(** [algo.core.copyArray(a, start, end)]; an omitted argument is [None]. *)
Definition copyArray (a : list prim) (start end_ : option Z) : list prim :=
  let s := match start with
           | Some z => if (z =? 0)%Z then 0%Z else z
           | None => 0%Z
           end in
  let e := match end_ with
           | Some z => if (z =? 0)%Z then Z.of_nat (length a) else z
           | None => Z.of_nat (length a)
           end in
  slice a s e.

(** [algo.core.copyArrayStart(a, n)] *)
Definition copyArrayStart (a : list prim) (n : Z) : list prim :=
  slice a 0 n.

(** [algo.core.copyArrayEnd(a, n)] *)
Definition copyArrayEnd (a : list prim) (n : Z) : list prim :=
  slice a (- n) (Z.of_nat (length a)).

(** [algo.core.swapArray(a, x, y)] *)
Definition swapArray (a : list prim) (x y : nat) : list prim :=
  let temp := js_get a (Z.of_nat x) in
  let a := js_set a x (js_get a (Z.of_nat y)) in
  js_set a y temp.

(** The loop of [reverseArray]. *)
Fixpoint reverseArray_loop (fuel : nat) (a : list prim) (start end_ : nat) : option (list prim) :=
  match fuel with
  | O => None
  | S fuel =>
      if (start <? end_)%nat
      then reverseArray_loop fuel (swapArray a start (end_ - 1)) (S start) (end_ - 1)
      else Some a
  end.

(** [algo.core.reverseArray(a, start, end)]: the array after the call.  The
    loop tests [start] and [end] themselves, not the defaulted [s] and
    [e]; a comparison with an omitted bound fails. *)
Definition reverseArray (fuel : nat) (a : list prim) (start end_ : option nat) : option (list prim) :=
  match start, end_ with
  | Some start, Some end_ => reverseArray_loop fuel a start end_
  | _, _ => Some a
  end.

(** [algo.core.compare(a, b, comparator)] for two arrays. *)
Definition compare (a b : list prim) (c : comparator) : bool :=
  if negb (length a =? length b)%nat then false
  else forallb (fun xy : prim * prim => is_zero (compareItems xy.1 xy.2 c)) (zip a b).

(** What [binarySearchArray] returns: the value searched for, or [null]. *)
Inductive found :=
| Found (v : prim)
| Null.

Fixpoint binarySearchArray_loop (fuel : nat) (a : list prim) (v : prim) (c : comparator)
    (left right : Z) : option found :=
  match fuel with
  | O => None
  | S fuel =>
      if (left <=? right)%Z then
        let mid := shr (left + right) 1 in
        let compareResult := compareItems v (js_get a mid) c in
        if is_zero compareResult then Some (Found v)
        else if is_negative compareResult
             then binarySearchArray_loop fuel a v c left (mid - 1)
             else binarySearchArray_loop fuel a v c (mid + 1) right
      else Some Null
  end.

(** [algo.core.binarySearchArray(a, v, c)] *)
Definition binarySearchArray (fuel : nat) (a : list prim) (v : prim) (c : comparator) : option found :=
  if (length a =? 0)%nat then Some Null
  else binarySearchArray_loop fuel a v c 0 (Z.of_nat (length a) - 1).

(** The first inner loop of [quickSortPartition]. *)
Fixpoint partition_advance (fuel : nat) (a : list prim) (v : prim) (c : comparator) (i : nat)
    : option nat :=
  match fuel with
  | O => None
  | S fuel =>
      if is_negative (compareItems (js_get a (Z.of_nat i)) v c)
      then partition_advance fuel a v c (S i)
      else Some i
  end.

(** The second inner loop: [compareItems] is called with the one argument
    [v < a[--j]]. *)
Fixpoint partition_retreat (fuel : nat) (a : list prim) (v : prim) (i : nat) (j : Z) : option Z :=
  match fuel with
  | O => None
  | S fuel =>
      let j := (j - 1)%Z in
      if is_negative (compareItems (PBool (less_than v (js_get a j))) PUndefined None)
      then if (j <=? Z.of_nat i)%Z then Some j else partition_retreat fuel a v i j
      else Some j
  end.

(** The outer loop of [quickSortPartition]: the array and [i] when it is
    left. *)
Fixpoint partition_loop (fuel : nat) (a : list prim) (v : prim) (c : comparator) (i : nat) (j : Z)
    : option (list prim * nat) :=
  match fuel with
  | O => None
  | S fuel =>
      match partition_advance fuel a v c i with
      | None => None
      | Some i =>
          match partition_retreat fuel a v i j with
          | None => None
          | Some j =>
              if (j <=? Z.of_nat i)%Z then Some (a, i)
              else partition_loop fuel (swapArray a i (Z.to_nat j)) v c i j
          end
      end
  end.

(** [algo.core.quickSortPartition(a, left, right, comparator)]: the array
    after the call and the index returned. *)
Definition quickSortPartition (fuel : nat) (a : list prim) (left right : nat) (c : comparator)
    : option (list prim * nat) :=
  let v := js_get a (Z.of_nat right) in
  match partition_loop fuel a v c left (Z.of_nat right) with
  | None => None
  | Some (a, i) => Some (swapArray a i right, i)
  end.

(** [algo.core.quickSortArray(a, start, end, comparator)]: the array after
    the call, [None] when the call does not return within [fuel] nested
    calls and loop iterations. *)
Fixpoint quickSortArray (fuel : nat) (a : list prim) (start end_ : Z) (c : comparator)
    : option (list prim) :=
  match fuel with
  | O => None
  | S fuel =>
      match quickSortPartition fuel a 0 (length a) c with
      | None => None
      | Some (a, pivot) =>
          match quickSortArray fuel a start (Z.of_nat pivot - 1) c with
          | None => None
          | Some a => quickSortArray fuel a (Z.of_nat pivot + 1) end_ c
          end
      end
  end.

(** The loop of [merge]. *)
Fixpoint merge_loop (fuel : nat) (a b : list prim) (ai bi : nat) (results : list prim)
    : option (list prim) :=
  match fuel with
  | O => None
  | S fuel =>
      if (ai <? length a)%nat && (bi <? length b)%nat then
        if less_than (js_get a (Z.of_nat ai)) (js_get b (Z.of_nat bi))
        then merge_loop fuel a b (S ai) bi (results ++ [js_get a (Z.of_nat ai)])
        else merge_loop fuel a b ai (S bi) (results ++ [js_get b (Z.of_nat bi)])
      else Some (results ++ slice a (Z.of_nat ai) (Z.of_nat (length a))
                         ++ slice b (Z.of_nat bi) (Z.of_nat (length b)))
  end.

(** [algo.core.merge(a, b)] *)
Definition merge (fuel : nat) (a b : list prim) : option (list prim) :=
  merge_loop fuel a b 0 0 [].

(** [algo.core.mergeSortArray(a)] *)
Fixpoint mergeSortArray (fuel : nat) (a : list prim) : option (list prim) :=
  match fuel with
  | O => None
  | S fuel =>
      if negb (2 <=? length a)%nat then Some (slice a 0 (Z.of_nat (length a)))
      else
        let pivot := shr (Z.of_nat (length a)) 1 in
        match mergeSortArray fuel (slice a 0 pivot) with
        | None => None
        | Some left_ =>
            match mergeSortArray fuel (slice a pivot (Z.of_nat (length a))) with
            | None => None
            | Some right_ => merge fuel left_ right_
            end
        end
  end.

(** An array of integers. *)
Definition integers (a : list prim) : Prop := Forall (fun x => exists z, x = num z) a.

(** The merge of two lists of integers by their heads: the smaller head
    first, the head of the second list when they are equal. *)
Fixpoint merged (xs : list Z) : list Z -> list Z :=
  fix merged_xs (ys : list Z) : list Z :=
    match xs, ys with
    | [], _ => ys
    | _, [] => xs
    | x :: xs', y :: ys' =>
        if (x <? y)%Z then x :: merged xs' ys else y :: merged_xs ys'
    end.

End Core.

(** ** [algo.core.Heap] of [core.js] *)

Module Heap.

(** An entry [{value, payload, element}] of [this.nodes]; the values are
    integers. *)
Record item := mkItem {
  item_value : Z;
  item_payload : value;
  item_element : value
}.

(** The callbacks of the options object that the heap invokes; each
    invocation is logged. *)
Inductive call :=
| createVertex (v : Z)
| destroyVertex (v : Z) (element : value).

(** The options: the element that [createVertex] returns when it is given,
    and whether [destroyVertex] is given. *)
Record Options := mkOptions {
  has_createVertex : option (Z -> value);
  has_destroyVertex : bool
}.

(** The heap: [this.nodes] by index (the code never reads its length, and
    an index that holds [undefined] is one that holds nothing), [this.n],
    the options and the log. *)
Record Heap := mkHeap {
  nodes : gmap Z item;
  n : Z;
  options : Options;
  calls : list call
}.

Inductive outcome (A : Type) :=
| Returns (a : A) (h : Heap)
| Throws (msg : string)
| OutOfFuel.
Arguments Returns {A} a h.
Arguments Throws {A} msg.
Arguments OutOfFuel {A}.

(** [new algo.core.Heap(options)] *)
Definition new (opts : Options) : Heap := mkHeap ∅ 0 opts [].

Definition kROOT : Z := 1.

(** A value of a comparison in [siftDown]: a value of the heap, or
    [Number.MAX_VALUE], which every integer value is below. *)
Inductive bound :=
| Finite (z : Z)
| MAX_VALUE.

Definition below (a b : bound) : bool :=
  match a, b with
  | Finite x, Finite y => (x <? y)%Z
  | Finite _, MAX_VALUE => true
  | MAX_VALUE, _ => false
  end.

(** [this.nodes[i] = x] *)
Definition store (i : Z) (x : option item) (m : gmap Z item) : gmap Z item :=
  match x with
  | Some it => <[i := it]> m
  | None => delete i m
  end.

Definition set_nodes (m : gmap Z item) (h : Heap) : Heap :=
  mkHeap m (n h) (options h) (calls h).

Definition set_n (k : Z) (h : Heap) : Heap :=
  mkHeap (nodes h) k (options h) (calls h).

Definition log (c : call) (h : Heap) : Heap :=
  mkHeap (nodes h) (n h) (options h) (calls h ++ [c]).

(** [this.value(i)]: [None] when the read fails with a TypeError. *)
Definition value_at (h : Heap) (i : Z) : option Z :=
  item_value <$> nodes h !! i.

(** [this.swap(i, j)] *)
Definition swap (i j : Z) (h : Heap) : Heap :=
  let temp := nodes h !! i in
  let h := set_nodes (store i (nodes h !! j) (nodes h)) h in
  set_nodes (store j temp (nodes h)) h.

Definition leftChild (i : Z) : Z := 2 * i.
Definition rightChild (i : Z) : Z := 2 * i + 1.

(** [this.parent(i)], which is [i >> 1]. *)
Definition parent (i : Z) : Z := Core.shr i 1.

(** [this.isNull(i)] *)
Definition isNull (h : Heap) (i : Z) : bool :=
  (i <? kROOT)%Z || (n h <? i)%Z.

(** [this.isEmpty()] *)
Definition isEmpty (h : Heap) : bool := (n h =? 0)%Z.

(** The loop of [siftUp]. *)
Fixpoint siftUp_loop (fuel : nat) (v : Z) (i : Z) (h : Heap) : outcome unit :=
  match fuel with
  | O => OutOfFuel
  | S fuel =>
      if negb (isNull h (parent i)) then
        match value_at h (parent i) with
        | None => Throws TypeError
        | Some pv =>
            if (v <? pv)%Z then siftUp_loop fuel v (parent i) (swap i (parent i) h)
            else Returns tt h
        end
      else Returns tt h
  end.

(** [this.siftUp(i)] *)
Definition siftUp (fuel : nat) (i : Z) (h : Heap) : outcome unit :=
  match value_at h i with
  | None => Throws TypeError
  | Some v => siftUp_loop fuel v i h
  end.

(** [this.enqueue(v, payload)] *)
Definition enqueue (fuel : nat) (v : Z) (payload : value) (h : Heap) : outcome unit :=
  let '(h, element) :=
    match has_createVertex (options h) with
    | Some f => (log (createVertex v) h, f v)
    | None => (h, VUndef)
    end in
  let h := set_nodes (<[kROOT + n h := mkItem v payload element]> (nodes h)) h in
  let i := kROOT + n h in
  let h := set_n (n h + 1) h in
  siftUp fuel i h.

(** [this.siftDown(i)]: the loop from its test on, with [left], [right],
    [hasLeft] and [hasRight] as they are computed before the loop and at
    the end of its body. *)
Fixpoint siftDown (fuel : nat) (i : Z) (h : Heap) : outcome unit :=
  match fuel with
  | O => OutOfFuel
  | S fuel =>
      let left := leftChild i in
      let right := rightChild i in
      let hasLeft := negb (isNull h left) in
      let hasRight := negb (isNull h right) in
      if hasLeft || hasRight then
        match (if hasLeft then Finite <$> value_at h left else Some MAX_VALUE),
              (if hasRight then Finite <$> value_at h right else Some MAX_VALUE),
              value_at h i with
        | Some leftValue, Some rightValue, Some v =>
            if below (Finite v) leftValue && below (Finite v) rightValue then Returns tt h
            else
              let swapIndex := if below leftValue rightValue then left else right in
              siftDown fuel swapIndex (swap i swapIndex h)
        | _, _, _ => Throws TypeError
        end
      else Returns tt h
  end.

(** [this.dequeue()] *)
Definition dequeue (fuel : nat) (h : Heap) : outcome item :=
  match nodes h !! kROOT with
  | None => Throws TypeError
  | Some min =>
      let h := if truthy (item_element min) && has_destroyVertex (options h)
               then log (destroyVertex (item_value min) (item_element min)) h
               else h in
      let h := set_n (n h - 1) h in
      if (0 <? n h)%Z then
        let h := set_nodes (store kROOT (nodes h !! (kROOT + n h)) (nodes h)) h in
        match siftDown fuel kROOT h with
        | Returns _ h => Returns min h
        | Throws msg => Throws msg
        | OutOfFuel => OutOfFuel
        end
      else Returns min h
  end.

(** The values that the heap holds: those of the entries 1 to [n]. *)
Definition value_of (h : Heap) (i : Z) : Z :=
  default 0%Z (value_at h i).

Definition values (h : Heap) : list Z :=
  (fun k : nat => value_of h (Z.of_nat k + 1)) <$> seq 0 (Z.to_nat (n h)).

(** The heap is well formed: it has an entry at each index from 1 to [n],
    and no entry is below its parent. *)
Record well_formed (h : Heap) : Prop := mkWellFormed {
  wf_n : (0 <= n h)%Z;
  wf_present : forall i, (1 <= i <= n h)%Z -> is_Some (nodes h !! i);
  wf_order : forall i, (2 <= i <= n h)%Z -> (value_of h (i / 2) <= value_of h i)%Z
}.

(** The order of the heap holds but at [i], which may be below its parent;
    the children of [i] are not below the parent of [i]. *)
Definition ordered_but_above (h : Heap) (i : Z) : Prop :=
  (forall j, (2 <= j <= n h)%Z -> j <> i -> (value_of h (j / 2) <= value_of h j)%Z) /\
  (forall j, (2 <= j <= n h)%Z -> (j / 2 = i)%Z -> (2 <= i)%Z ->
     (value_of h (i / 2) <= value_of h j)%Z).

(** The order of the heap holds but below [i], whose children may be below
    it; they are not below the parent of [i]. *)
Definition ordered_but_below (h : Heap) (i : Z) : Prop :=
  (forall j, (2 <= j <= n h)%Z -> (j / 2)%Z <> i -> (value_of h (j / 2) <= value_of h j)%Z) /\
  (forall j, (2 <= j <= n h)%Z -> (j / 2 = i)%Z -> (2 <= i)%Z ->
     (value_of h (i / 2) <= value_of h j)%Z).

(** A heap with one entry, without callbacks. *)
Definition one_entry : Heap :=
  mkHeap (<[1%Z := mkItem 5 VUndef VUndef]> ∅) 1 (mkOptions None false) [].

(** A heap with four entries: 1 at the root, 5 and 3 below it, 7 below
    5. *)
Definition four_entries : Heap :=
  mkHeap (<[4%Z := mkItem 7 VUndef VUndef]>
            (<[3%Z := mkItem 3 VUndef VUndef]>
               (<[2%Z := mkItem 5 VUndef VUndef]>
                  (<[1%Z := mkItem 1 VUndef VUndef]> ∅))))
         4 (mkOptions None false) [].

End Heap.

(** ** [algo.core.PixelBuffer] of [core.js] *)

Module PixelBuffer.

(** The callbacks of the options object that the buffer invokes; each
    invocation is logged. *)
Inductive call :=
| createPixel (x y : Z)
| updatePixel (x y : Z) (pixel element : value)
| destroyPixel (x y : Z) (element : value).

(** The options: [width] and [height], the element that [createPixel]
    returns when it is given, and whether [updatePixel] and [destroyPixel]
    are given. *)
Record Options := mkOptions {
  width : Z;
  height : Z;
  has_createPixel : option (Z -> Z -> value);
  has_updatePixel : bool;
  has_destroyPixel : bool
}.

(** The buffer: [this.w], [this.h], and [this.pb] and [this.e] by the
    coordinates [(x, y)].  The two arrays are made with every entry [0] and
    are never resized: a coordinate without entry in [pb] or [e] is one
    that holds [0].  Coordinates are integers. *)
Record PixelBuffer := mkPixelBuffer {
  w : Z;
  h : Z;
  pb : gmap (Z * Z) value;
  e : gmap (Z * Z) value;
  options : Options;
  calls : list call
}.

Inductive outcome (A : Type) :=
| Returns (a : A) (b : PixelBuffer)
| Throws (msg : string).
Arguments Returns {A} a b.
Arguments Throws {A} msg.

(** [new algo.core.PixelBuffer(options)] *)
Definition new (opts : Options) : PixelBuffer :=
  mkPixelBuffer (width opts) (height opts) ∅ ∅ opts [].

Definition set_pb (m : gmap (Z * Z) value) (b : PixelBuffer) : PixelBuffer :=
  mkPixelBuffer (w b) (h b) m (e b) (options b) (calls b).

Definition set_e (m : gmap (Z * Z) value) (b : PixelBuffer) : PixelBuffer :=
  mkPixelBuffer (w b) (h b) (pb b) m (options b) (calls b).

Definition log (c : call) (b : PixelBuffer) : PixelBuffer :=
  mkPixelBuffer (w b) (h b) (pb b) (e b) (options b) (calls b ++ [c]).

(** [x < 0 || x >= this.w || y < 0 || y >= this.h] *)
Definition out_of_bounds (b : PixelBuffer) (x y : Z) : bool :=
  (x <? 0)%Z || (w b <=? x)%Z || (y <? 0)%Z || (h b <=? y)%Z.

(** [this.e[x][y]] *)
Definition element_at (b : PixelBuffer) (x y : Z) : value :=
  default (VNum 0) (e b !! (x, y)).

(** [this.getPixel(x, y)] *)
Definition getPixel (x y : Z) (b : PixelBuffer) : outcome value :=
  if out_of_bounds b x y then Throws "Pixel index out of bounds"
  else Returns (default VNull (pb b !! (x, y))) b.

(** [this.invoke('createPixel', x, y)]: the buffer and what the call
    returns. *)
Definition invoke_createPixel (x y : Z) (b : PixelBuffer) : PixelBuffer * value :=
  match has_createPixel (options b) with
  | Some f => (log (createPixel x y) b, f x y)
  | None => (b, VUndef)
  end.

(** [this.invoke('updatePixel', x, y, pixel, element)] *)
Definition invoke_updatePixel (x y : Z) (pixel element : value) (b : PixelBuffer) : PixelBuffer :=
  if has_updatePixel (options b) then log (updatePixel x y pixel element) b else b.

(** [this.invoke('destroyPixel', x, y, element)] *)
Definition invoke_destroyPixel (x y : Z) (element : value) (b : PixelBuffer) : PixelBuffer :=
  if has_destroyPixel (options b) then log (destroyPixel x y element) b else b.

Section Colors.

(** [algo.Color] is not part of these sources.  [to_Color v] is [v] when
    [v instanceof algo.Color] and [new algo.Color(v)] otherwise: the
    [Color] object, or the message of what the constructor throws. *)
Variable to_Color : value -> string + value.

(** [this.setPixel(x, y, v)] *)
Definition setPixel (x y : Z) (v : value) (b : PixelBuffer) : outcome unit :=
  if out_of_bounds b x y then Throws "Pixel index out of bounds"
  else
    match to_Color v with
    | inl msg => Throws msg
    | inr pixel =>
        let b := set_pb (<[(x, y) := pixel]> (pb b)) b in
        let b := if negb (truthy (element_at b x y))
                 then let '(b, element) := invoke_createPixel x y b in
                      set_e (<[(x, y) := element]> (e b)) b
                 else b in
        let b := if truthy (element_at b x y)
                 then invoke_updatePixel x y pixel (element_at b x y) b
                 else b in
        Returns tt b
    end.

End Colors.

(** [this.clearPixel(x, y)] *)
Definition clearPixel (x y : Z) (b : PixelBuffer) : outcome unit :=
  if out_of_bounds b x y then Throws "Pixel index out of bounds"
  else
    let b := set_pb (delete (x, y) (pb b)) b in
    if truthy (element_at b x y)
    then let b := invoke_destroyPixel x y (element_at b x y) b in
         Returns tt (set_e (<[(x, y) := VNum 0]> (e b)) b)
    else Returns tt b.

(** The inner loop of [clear], over the [x] that are left of a row. *)
Fixpoint clear_row (xs : list Z) (y : Z) (b : PixelBuffer) : outcome unit :=
  match xs with
  | [] => Returns tt b
  | x :: xs =>
      match clearPixel x y b with
      | Returns _ b => clear_row xs y b
      | Throws msg => Throws msg
      end
  end.

(** The outer loop of [clear], over the [y] that are left. *)
Fixpoint clear_rows (ys : list Z) (b : PixelBuffer) : outcome unit :=
  match ys with
  | [] => Returns tt b
  | y :: ys =>
      match clear_row (seqZ 0 (w b)) y b with
      | Returns _ b => clear_rows ys b
      | Throws msg => Throws msg
      end
  end.

(** [this.clear()] *)
Definition clear (b : PixelBuffer) : outcome unit :=
  clear_rows (seqZ 0 (h b)) b.

(** [clearPixel] at each of the coordinates [cells] in turn. *)
Fixpoint clear_cells (cells : list (Z * Z)) (b : PixelBuffer) : outcome unit :=
  match cells with
  | [] => Returns tt b
  | c :: cells =>
      match clearPixel c.1 c.2 b with
      | Returns _ b => clear_cells cells b
      | Throws msg => Throws msg
      end
  end.

(** The coordinates in the order in which [clear] visits them. *)
Definition cells_of (wd ht : Z) : list (Z * Z) :=
  y ← seqZ 0 ht; (fun x => (x, y)) <$> seqZ 0 wd.

(** The [destroyPixel] calls for the elements that [b] holds at the
    coordinates [cells]. *)
Definition destroyed (b : PixelBuffer) (cells : list (Z * Z)) : list call :=
  if has_destroyPixel (options b)
  then omap (fun c : Z * Z =>
               if truthy (element_at b c.1 c.2)
               then Some (destroyPixel c.1 c.2 (element_at b c.1 c.2))
               else None) cells
  else [].

(** A buffer of two by two pixels whose pixels get elements. *)
Definition two_by_two : PixelBuffer :=
  new (mkOptions 2 2 (Some (fun _ _ => VElem 7)) true true).

End PixelBuffer.

Section Model.

(** The two floating-point computations of [element.js].
    [shape_writes k own shape] is the bag that the [fromShape] of prototype
    [k] passes to [this.set] for an element with own properties [own], or
    [None] when it rejects the shape; [js_minus v n] is [v - n]. *)
Variable shape_writes : Kind -> obj -> value -> option obj.
Variable js_minus : value -> Z -> value.

(** The methods that are reached through the prototype chain or through
    [new], at one level of the call depth. *)
Record Methods := mkMethods {
  m_set : loc -> option obj -> Z -> M unit;
  m_new : Kind -> option obj -> M loc
}.

(** A bag read from a value: an object literal is itself, a falsy value is
    no bag, any other value has no entries. *)
Definition as_options (v : value) : option obj :=
  match v with
  | VObj fields => Some fields
  | _ => if truthy v then Some [] else None
  end.

(** One property of a named state in [setState] of an array of names:
    [properties[key] = properties[key] || []; properties[key].push(value)]. *)
Definition gather_property (properties : obj) (kv : string * value) : M obj :=
  let '(key, value) := kv in
  let* arr := (if truthy (oget key properties)
               then ret (oget key properties)
               else let* a' := alloc_array [] in ret (VArr a')) in
  match arr with
  | VArr a' => array_push a' value ;;; ret (oset key arr properties)
  | _ => throw TypeError
  end.

(** One name of the array: the properties of its state are gathered into
    [properties], which is then set.  A name is looked up among the states
    that the element has registered (for the names of [Object_prototype]
    the code finds the inherited member when none is registered); the
    properties of the state are walked key by key. *)
Definition apply_named_state (self : Methods) (this : loc) (properties : obj) (name : value) : M obj :=
  let* el := get_element this in
  match olookup (to_key name) (states el) with
  | None => throw "Attempt to apply unregistered state"
  | Some state =>
      let* properties := foldM gather_property (default [] (as_options state)) properties in
      m_set self this (Some properties) 0 ;;;
      ret properties
  end.

(** [this.setState(stateName)]; the lookup of the name is that of
    [apply_named_state]. *)
Definition Element_setState (self : Methods) (this : loc) (stateName : value) : M unit :=
  match stateName with
  | VArr a => each_array a (apply_named_state self this) [] ;;; ret tt
  | _ =>
      let* el := get_element this in
      match olookup (to_key stateName) (states el) with
      | Some state => m_set self this (as_options state) 0
      | None => throw "Attempt to apply unregistered state"
      end
  end.

(** [this.fromShape(shape)], by prototype. *)
Definition Element_fromShape (self : Methods) (this : loc) (shape : value) : M unit :=
  let* el := get_element this in
  match proto el with
  | KElement => ret tt
  | KRectangle | KLetterTile =>
      match shape_writes (proto el) (own el) shape with
      | Some writes => m_set self this (Some writes) 0
      | None => throw "algo.render.Rectangle.fromShape called with unrecognized shape"
      end
  | KCircle =>
      match shape_writes (proto el) (own el) shape with
      | Some writes => m_set self this (Some writes) 0
      | None => throw "algo.render.Circle.fromShape called with unrecognized shape"
      end
  | KLine | KArrow =>
      match shape_writes (proto el) (own el) shape with
      | Some writes => m_set self this (Some writes) 0
      | None => throw "Not line like shape in algo.render.Line::fromShape"
      end
  end.

(** One entry of the bag in [Element.prototype.set]: the [switch] on the
    key; the result is the new count of changes. *)
Definition set_entry (self : Methods) (this : loc) (changes : nat) (kv : string * value) : M nat :=
  let '(key, value) := kv in
  if String.eqb key "parent" then
    let* parent := own_get this "parent" in
    when (truthy parent) (on_element parent (fun p => Element_removeChild p this)) ;;;
    on_element value (fun p => Element_addChild p this) ;;;
    ret (S changes)
  else if String.eqb key "states" then
    Element_addStates this value ;;;
    ret changes
  else if String.eqb key "state" then
    Element_setState self this value ;;;
    ret (S changes)
  else if String.eqb key "shape" then
    Element_fromShape self this value ;;;
    ret (S changes)
  else
    let* current := own_get this key in
    if negb (strict_eq current value)
    then own_set this key value ;;; ret (S changes)
    else ret changes.

(** [Element.prototype.set(options, depth)]; the bag is walked key by key,
    as [_.each] walks an object ([numeric_length] tells the bags that it
    would walk by index). *)
Definition Element_set (self : Methods) (this : loc) (options : option obj) (depth : Z) : M unit :=
  match options with
  | Some options =>
      let* changes := foldM (set_entry self this) options 0%nat in
      when (negb (changes =? 0)%nat) (Surface_elementUpdated this options) ;;;
      let* parent := own_get this "parent" in
      let* id := own_get this "id" in
      when (negb (truthy parent) && negb (truthy (oget "parent" options))
            && negb (truthy (oget "root" options))
            && negb (strict_eq id (VStr "algoid-0")))
           (let* s := the_surface in
            on_element (root s) (fun r => Element_addChild r this))
  | None => ret tt
  end ;;;
  when (negb (depth =? 0)%Z)
       (let* g := children_of this in
        each_array g (fun _ child =>
                        on_element child (fun c => m_set self c options (depth - 1)))
                   tt).

(** [LetterTile.prototype.set(options, depth)] *)
Definition LetterTile_set (self : Methods) (this : loc) (options : option obj) (depth : Z) : M unit :=
  Element_set self this options depth ;;;
  let* s := the_surface in
  let* valueElement := own_get this "valueElement" in
  when (isWorker s && negb (truthy valueElement))
       (let* v := m_new self KRectangle
                    (Some [("x", VNum 0); ("y", VNum 0); ("w", VNum 0); ("h", VNum 0);
                           ("parent", VElem this); ("fill", iTRANSPARENT);
                           ("strokeWidth", VNum 0); ("fontSize", VNum 16);
                           ("textAlign", VStr "right"); ("text", VStr "")]) in
        own_set this "valueElement" (VElem v)) ;;;
  let* valueElement := own_get this "valueElement" in
  when (truthy valueElement)
       (let* w := own_get this "w" in
        let* pen := own_get this "pen" in
        let* value := own_get this "value" in
        on_element valueElement (fun v =>
          m_set self v
            (Some [("y", VNum 4); ("w", js_minus w 4); ("h", VNum 12); ("pen", pen);
                   ("fontSize", VStr "12px"); ("text", value)]) 0)).

(** The [Element] constructor, on the object [this] that [new] allocated. *)
Definition Element_ctor (self : Methods) (this : loc) (_options : option obj) : M unit :=
  let options := defaults (default [] _options)
                   [("type", VStr "Element"); ("strokeWidth", VNum 1);
                    ("fontSize", VStr "40px"); ("rotation", VNum 0)] in
  let options := if negb (hasAny options ["state"; "stroke"; "fill"; "pen"])
                 then oset "state" (VStr kS_NORMAL) options else options in
  let options := if negb (truthy (oget "x" options)) && negb (truthy (oget "shape" options))
                 then oset "x" (VNum 0) options else options in
  let options := if negb (truthy (oget "y" options)) && negb (truthy (oget "shape" options))
                 then oset "y" (VNum 0) options else options in
  let* w := get_world in
  let id := "algoid-" +:+ pretty (Element_nextID w) in
  own_set this "id" (VStr id) ;;;
  modify (set_nextID (S (Element_nextID w))) ;;;
  modify (set_map <[id := this]>) ;;;
  let* g := alloc_array [] in
  own_set this "children" (VGroup g) ;;;
  let* a := alloc_array default_states in
  Element_addStates this (VArr a) ;;;
  m_set self this (Some options) 0.

Definition Rectangle_ctor (self : Methods) (this : loc) (_options : option obj) : M unit :=
  Element_ctor self this
    (Some (defaults (default [] _options)
             [("type", VStr "Rectangle"); ("cornerRadius", VNum 0)])).

(** The defaults of [LetterTile] are handed to [_.clone], not to
    [_.defaults], so that none of them applies. *)
Definition LetterTile_ctor (self : Methods) (this : loc) (_options : option obj) : M unit :=
  let options := default [] _options in
  let options := if negb (truthy (oget "shape" options)) && negb (truthy (oget "w" options))
                 then oset "w" (VNum 50) options else options in
  let options := if negb (truthy (oget "shape" options)) && negb (truthy (oget "h" options))
                 then oset "h" (VNum 50) options else options in
  Rectangle_ctor self this (Some options).

Definition Circle_ctor (self : Methods) (this : loc) (_options : option obj) : M unit :=
  Element_ctor self this
    (Some (defaults (default [] _options) [("type", VStr "Circle")])).

Definition Line_ctor (self : Methods) (this : loc) (_options : option obj) : M unit :=
  let options := default [] _options in
  let* w := get_world in
  let given := oget "states" options in
  let* a := alloc_array
              (if truthy given
               then lineStates ++ match given with
                                  | VArr b => array_at w b
                                  | v => [v]
                                  end
               else lineStates) in
  let options := oset "states" (VArr a) options in
  let options := if negb (hasAny options ["state"; "fill"])
                 then oset "state" (VStr kS_NORMAL) options else options in
  Element_ctor self this
    (Some (defaults options
             [("type", VStr "Line"); ("thickness", VNum 1); ("strokeWidth", VNum 0)])).

(** [Arrow] applies [_.defaults] to the caller's bag itself, which has to be
    there. *)
Definition Arrow_ctor (self : Methods) (this : loc) (options : option obj) : M unit :=
  match options with
  | Some options =>
      Line_ctor self this
        (Some (defaults options
                 [("type", VStr "Arrow"); ("startArrow", VBool true); ("endArrow", VBool true)]))
  | None => throw TypeError
  end.

(** [new algo.render.<kind>(options)] *)
Definition construct (self : Methods) (kind : Kind) (_options : option obj) : M loc :=
  let* this := alloc_element kind in
  match kind with
  | KElement => Element_ctor self this _options
  | KRectangle => Rectangle_ctor self this _options
  | KLetterTile => LetterTile_ctor self this _options
  | KCircle => Circle_ctor self this _options
  | KLine => Line_ctor self this _options
  | KArrow => Arrow_ctor self this _options
  end ;;;
  ret this.

(** The methods at call depth [fuel]: [set] is dispatched on the prototype
    of the receiver. *)
Fixpoint methods (fuel : nat) : Methods :=
  match fuel with
  | O => mkMethods (fun _ _ _ => diverge) (fun _ _ => diverge)
  | S fuel =>
      let self := methods fuel in
      mkMethods
        (fun this options depth =>
           let* el := get_element this in
           match proto el with
           | KLetterTile => LetterTile_set self this options depth
           | _ => Element_set self this options depth
           end)
        (construct self)
  end.

(** [e.set(options, depth)] *)
Definition set (fuel : nat) (e : loc) (options : option obj) (depth : Z) : M unit :=
  m_set (methods fuel) e options depth.


(** [new algo.render.<kind>(options)] *)
Definition new (fuel : nat) (kind : Kind) (options : option obj) : M loc :=
  m_new (methods fuel) kind options.

(** ** [algo.render.Surface]: construction and replay *)

(** [new algo.render.Surface({location, bounds})] *)
Definition Surface_ctor (fuel : nat) (where_ : Location) (bounds : obj) : M unit :=
  modify (set_SURFACE (Some (mkSurface where_ [] VUndef))) ;;;
  match where_ with
  | DOM => ret tt
  | WORKER =>
      Element_resetClass ;;;
      let* r := new fuel KRectangle
                  (Some [("root", VBool true); ("visible", VBool false);
                         ("x", oget "x" bounds); ("y", oget "y" bounds);
                         ("w", oget "w" bounds); ("h", oget "h" bounds);
                         ("strokeWidth", VNum 0)]) in
      update_surface (set_root (VElem r))
  end.

(** [surface.empty()] *)
Definition Surface_empty : M unit :=
  update_surface (set_root VUndef).

(** [surface.resetElements()] *)
Definition Surface_resetElements : M unit :=
  Element_resetClass ;;;
  Surface_empty.

(** [algo.render[type]] for the element constructors. *)
Definition constructor_named (type : value) : option Kind :=
  match type with
  | VStr "Element" => Some KElement
  | VStr "Rectangle" => Some KRectangle
  | VStr "LetterTile" => Some KLetterTile
  | VStr "Circle" => Some KCircle
  | VStr "Line" => Some KLine
  | VStr "Arrow" => Some KArrow
  | _ => None
  end.

(** [surface.handleUpdateCommand(options)] *)
Definition Surface_handleUpdateCommand (fuel : nat) (options : obj) : M unit :=
  let* e := Element_findElement (oget "id" options) in
  let* e := (if negb (truthy e)
             then match constructor_named (oget "type" options) with
                  | Some kind =>
                      let* e := new fuel kind (Some options) in
                      when (truthy (oget "root" options))
                           (update_surface (set_root (VElem e))) ;;;
                      ret (VElem e)
                  | None => throw TypeError
                  end
             else ret e) in
  on_element e (fun e => set fuel e (Some options) 0).

(** [surface.handleDestroyCommand(options)] *)
Definition Surface_handleDestroyCommand (fuel : nat) (options : obj) : M unit :=
  let* e := Element_findElement (oget "id" options) in
  on_element e (Element_destroy fuel).

(** The body of the inner loop of [playHistory]: the command after it has
    been executed, its parent id put back. *)
Definition play_command (fuel : nat) (cmd : command) : M command :=
  let params := options cmd in
  let* params := (if truthy (oget "parent" params)
                  then let* e := Element_findElement (oget "parent" params) in
                       ret (oset "parent" e params)
                  else ret params) in
  (if String.eqb (name cmd) UPDATE_COMMAND then Surface_handleUpdateCommand fuel params
   else if String.eqb (name cmd) DESTROY_COMMAND then Surface_handleDestroyCommand fuel params
   else throw TypeError) ;;;
  let* params := (if truthy (oget "parent" params)
                  then let* pid := prop (oget "parent" params) "id" in
                       ret (oset "parent" pid params)
                  else ret params) in
  ret (mkCommand (name cmd) params).

(** A recorded frame: the [renderCommands] of one pause. *)
Abbreviation frame := (list command) (only parsing).

Definition play_frame (fuel : nat) (f : frame) : M frame :=
  foldM (fun (done : frame) c => let* c' := play_command fuel c in ret (done ++ [c'])%list) f [].

(** [commandsHistory[i]] *)
Definition frame_at (commandsHistory : list frame) (i : Z) : option frame :=
  if (i <? 0)%Z then None else commandsHistory !! Z.to_nat i.

(** [surface.playHistory(commandsHistory, start, end)]; the result is the
    history as the replay leaves it.  The two calls that end it in the
    source, [update] and [validate], belong to the rendering back end. *)
Definition Surface_playHistory (fuel : nat) (commandsHistory : list frame)
    (start : option Z) (end_ : Z) : M (list frame) :=
  match start with
  | None => ret commandsHistory
  | Some start =>
      foldM (fun h i =>
               match frame_at h i with
               | None => throw TypeError
               | Some f =>
                   let* f' := play_frame fuel f in
                   ret (<[Z.to_nat i := f']> h)
               end)
            (seqZ start (end_ - start)) commandsHistory
  end.

(** The recorded history with the surface's cursor into it: [None] before
    the cursor is first assigned, [Some (-1)] on entering history mode. *)
Record Replay := mkReplay {
  commandsHistory : list frame;
  historyFrame : option Z
}.

(** [surface.executeCommandHistory(commandsHistory, frameIndex)] *)
Definition Surface_executeCommandHistory (fuel : nat) (r : Replay) (frameIndex : Z) : M Replay :=
  let* h := (if match historyFrame r with
                | Some f => (f =? -1)%Z || (frameIndex <? f)%Z
                | None => false
                end
             then Surface_resetElements ;;;
                  Surface_playHistory fuel (commandsHistory r) (Some 0) frameIndex
             else Surface_playHistory fuel (commandsHistory r) (historyFrame r) frameIndex) in
  ret (mkReplay h (Some frameIndex)).

(** ** [WorkerApp]: the tick protocol of [worker_core.js] *)

(** The user's algorithm, a generator: the segments that end in a [yield],
    each with the value it yields, and the segment that ends the
    algorithm. *)
Record generator := mkGenerator {
  yields : list (M value);
  final : M unit
}.

(** [userAlgorithm.next()]: the yielded value, or [None] when done. *)
Definition next (g : generator) : M (option value * generator) :=
  match yields g with
  | segment :: rest =>
      let* v := segment in
      ret (Some v, mkGenerator rest (final g))
  | [] =>
      final g ;;;
      ret (None, mkGenerator [] (ret tt))
  end.

Record WorkerApp := mkWorkerApp {
  currentCommands : list command;
  userAlgorithm : generator
}.

Definition post (m : message) : M unit := modify (postMessage m).

(** [app.pause(pauseParameters)] *)
Definition WorkerApp_pause (app : WorkerApp) (pauseParameters : value) : M WorkerApp :=
  let* flushed := Surface_flushCommands in
  let* (current, activeCommands) :=
    foldM (fun '(current, activeCommands) c =>
             if String.eqb (name c) "updateElement" then
               let* (remaining, clone) := Surface_processOptions (options c) in
               ret (current ++ [mkCommand (name c) remaining],
                    activeCommands ++ [mkCommand (name c) clone])%list
             else ret (current ++ [c], activeCommands ++ [c])%list)
          flushed (([] : list command), ([] : list command)) in
  post (M_Pause activeCommands pauseParameters) ;;;
  ret (mkWorkerApp current (userAlgorithm app)).

(** [app.done()] *)
Definition WorkerApp_done (app : WorkerApp) : M WorkerApp :=
  let* flushed := Surface_flushCommands in
  post (M_Done flushed) ;;;
  ret app.

(** [app.continue()]: an exception of the algorithm is posted, after which
    the read of [y.done] fails. *)
Definition WorkerApp_continue (app : WorkerApp) : M WorkerApp :=
  fun w =>
    match next (userAlgorithm app) w with
    | Ok (y, g) w' =>
        let app := mkWorkerApp (currentCommands app) g in
        match y with
        | None => WorkerApp_done app w'
        | Some v => WorkerApp_pause app v w'
        end
    | Throw e w' => Throw TypeError (postMessage (M_Exception e) w')
    | Diverge => Diverge
    end.

(** [app.pauseOrContinue()], the handler of [M_Continue]. *)
Definition WorkerApp_pauseOrContinue (app : WorkerApp) : M WorkerApp :=
  let* (current, activeCommands) :=
    foldM (fun '(current, activeCommands) c =>
             if String.eqb (name c) "updateElement" && truthy (oget "more" (options c)) then
               let* (remaining, clone) := Surface_processOptions (options c) in
               ret (current ++ [mkCommand (name c) remaining],
                    activeCommands ++ [mkCommand (name c) clone])%list
             else ret (current ++ [c], activeCommands)%list)
          (currentCommands app) (([] : list command), ([] : list command)) in
  let app := mkWorkerApp current (userAlgorithm app) in
  if negb (length activeCommands =? 0)%nat then
    post (M_Pause activeCommands (VObj [("autoskip", VBool true)])) ;;;
    ret app
  else WorkerApp_continue app.

(** [new WorkerApp(worker, algorithmURI, api)] for the algorithm that the
    URI loads. *)
Definition WorkerApp_ctor (fuel : nat) (algorithm : generator) : M WorkerApp :=
  Surface_ctor fuel WORKER [("x", VNum 0); ("y", VNum 0); ("w", VNum 900); ("h", VNum 556)] ;;;
  post M_Initialize_ACK ;;;
  WorkerApp_continue (mkWorkerApp [] algorithm).


(** ** [algo.render.Element]: reading properties, history mode *)

(** [this.states] as an object: each registered state under its name. *)
Definition states_object (el : Element) : value :=
  VObj (map (fun ns : string * value => (ns.1, VObj [("properties", ns.2)])) (states el)).

(** [obj.hasOwnProperty(key)] for an element; every element has [states],
    which its constructor assigns. *)
Definition hasOwnProperty (el : Element) (key : string) : bool :=
  String.eqb key "states" || has (own el) key.

(** [obj[key]] for an own property of an element. *)
Definition own_property (el : Element) (key : string) : value :=
  if String.eqb key "states" then states_object el else oget key (own el).

Section Inheritance.

(** A value that is neither an element nor an object literal (a string, an
    array, a group, a constant of another library) can be met as
    [obj.parent]: what [obj.hasOwnProperty(key)] and [obj[key]] give for
    it, [None] when it has no own property of the name, and its [parent]
    are left open. *)
Variable other_own_property : value -> string -> option value.
Variable other_parent : value -> value.

(** [this.getInheritedValue(key, defaultValue)], from the object [obj] of
    its loop on. *)
Fixpoint Element_getInheritedValue (fuel : nat) (obj : value) (key : string) (defaultValue : value)
    : M value :=
  match fuel with
  | O => diverge
  | S fuel =>
      if truthy obj then
        match obj with
        | VElem e =>
            let* el := get_element e in
            if hasOwnProperty el key then ret (own_property el key)
            else Element_getInheritedValue fuel (oget "parent" (own el)) key defaultValue
        | VObj fields =>
            if has fields key then ret (oget key fields)
            else Element_getInheritedValue fuel (oget "parent" fields) key defaultValue
        | _ =>
            match other_own_property obj key with
            | Some v => ret v
            | None => Element_getInheritedValue fuel (other_parent obj) key defaultValue
            end
        end
      else ret defaultValue
  end.

(** [this.get(properties)], for [properties] that [_.each] walks as an
    object, key by key: those that have no [length]. *)
Definition Element_get (fuel : nat) (this : loc) (properties : obj) : M obj :=
  foldM (fun (p : obj) (kv : string * value) =>
           let* v := Element_getInheritedValue fuel (VElem this) kv.1 kv.2 in
           ret (oset kv.1 v p))
        properties properties.

End Inheritance.

(** [this.getOwnValue(key, defaultValue)] *)
Definition Element_getOwnValue (this : loc) (key : string) (defaultValue : value) : M value :=
  let* el := get_element this in
  if hasOwnProperty el key then ret (own_property el key) else ret defaultValue.

(** [algo.render.Element.history]: what [enterHistoryMode] saves. *)
Record ElementHistory := mkElementHistory {
  history_nextID : nat;
  history_map : gmap string loc
}.

(** [algo.render.Element.enterHistoryMode()], with
    [algo.render.Element.history] before and after the call. *)
Definition Element_enterHistoryMode (history : option ElementHistory) : M (option ElementHistory) :=
  match history with
  | Some _ => throw "Element class is already in history mode"
  | None =>
      let* w := get_world in
      Element_resetClass ;;;
      ret (Some (mkElementHistory (Element_nextID w) (Element_map w)))
  end.

(** [algo.render.Element.exitHistoryMode()] *)
Definition Element_exitHistoryMode (history : option ElementHistory) : M (option ElementHistory) :=
  match history with
  | None => throw "Element class was not in history mode"
  | Some saved =>
      modify (set_nextID (history_nextID saved)) ;;;
      modify (set_map (fun _ => history_map saved)) ;;;
      ret None
  end.

(** * Notions that the properties are stated with *)

(** [c] is an update command for the element with id [id]. *)
Definition updates (id : value) (c : command) : bool :=
  String.eqb (name c) UPDATE_COMMAND && strict_eq (oget "id" (options c)) id.

(** No two update commands of the buffer are for the same id. *)
Definition one_update_per_id (cs : list command) : Prop :=
  forall i j ci cj,
    cs !! i = Some ci -> cs !! j = Some cj ->
    updates (oget "id" (options cj)) ci = true -> name cj = UPDATE_COMMAND ->
    i = j.

(** The commands of the surface's buffer. *)
Definition buffer (w : World) : list command :=
  match SURFACE w with
  | Some s => commands s
  | None => []
  end.

(** ** The ticks of a payload *)

(** The ticks of one payload: [processOptions] applied at the pause and
    again at every acknowledge for as long as the payload carries [more],
    which is when [pauseOrContinue] sends the command again.  Each tick is
    the transmitted clone with the payload that the tick leaves. *)
Fixpoint drain (fuel : nat) (options : obj) : M (list (obj * obj)) :=
  match fuel with
  | O => diverge
  | S fuel =>
      let* (options, clone) := Surface_processOptions options in
      if truthy (oget "more" options)
      then let* ticks := drain fuel options in ret ((clone, options) :: ticks)
      else ret [(clone, options)]
  end.

(** The addresses of the lists that a payload holds. *)
Definition lists_of (options : obj) : list loc :=
  omap (fun kv : string * value => match kv.2 with VArr a => Some a | _ => None end) options.

(** What tick [i] carries for a property: element [i] of its list (and
    [undefined] as the only element of an empty list), a scalar as it is. *)
Definition carried (w : World) (i : nat) (kv : string * value) : option (string * value) :=
  match kv.2 with
  | VArr a =>
      match array_at w a !! i with
      | Some x => Some (kv.1, x)
      | None => if (i =? 0)%nat then Some (kv.1, VUndef) else None
      end
  | _ => Some kv
  end.

Definition tick (w : World) (options : obj) (i : nat) : obj :=
  omap (carried w i) options.

(** The property is a scalar, or a list with more than [n] elements. *)
Definition outlasts (w : World) (n : nat) (kv : string * value) : bool :=
  match kv.2 with
  | VArr a => (n <? length (array_at w a))%nat
  | _ => true
  end.

(** The length of the longest list of the payload. *)
Definition longest (w : World) (options : obj) : nat :=
  foldr Nat.max 0%nat ((fun a => length (array_at w a)) <$> lists_of options).

(** The payload that tick [i] leaves. *)
Definition left_by (w : World) (options : obj) (i : nat) : obj :=
  List.filter (outlasts w (S i)) options
  ++ (if (S i <? longest w options)%nat then [("more", VBool true)] else []).

(** The property is a list with more than [n] elements. *)
Definition pending (w : World) (n : nat) (kv : string * value) : bool :=
  isArray kv.2 && outlasts w n kv.

(** The [more] flag that [processOptions] leaves when a list of [o] has
    more than [n] elements. *)
Definition flag (w : World) (n : nat) (o : obj) : obj :=
  if existsb (pending w n) o then [("more", VBool true)] else [].

(** The worlds differ in the contents of arrays at most. *)
Definition only_arrays_differ (w w' : World) : Prop :=
  w' = set_arrays (fun _ => arrays w') w.

(** Every list of [w'] is the list of [w] without some of its first
    values. *)
Definition lists_shortened (w w' : World) : Prop :=
  forall a, exists k, array_at w' a = drop k (array_at w a).

(** The lists of the payload are the ones of [w] without their heads. *)
Definition shifted (w w' : World) (o : obj) : Prop :=
  forall a, a ∈ lists_of o -> array_at w' a = tail (array_at w a).

(** ** Plain property writes *)

(** The keys that [set] treats specially. *)
Definition reserved : list string := ["parent"; "states"; "state"; "shape"].





(** One plain write on the own properties. *)
Definition write_plain (o : obj) (kv : string * value) : obj :=
  if strict_eq (oget kv.1 o) kv.2 then o else oset kv.1 kv.2 o.

(** ** The two-colour example *)

(** The first step of an algorithm that adds a child with
    [fill: [red, blue]] to the surface and yields [yielded]; [rest] is what
    the algorithm does after it is resumed. *)
Definition add_child (fuel : nat) (red blue yielded : value) : M value :=
  let* a := alloc_array [red; blue] in
  let* _ := new fuel KRectangle (Some [("fill", VArr a)]) in
  ret yielded.

Definition example (fuel : nat) (red blue yielded : value) (rest : generator) : generator :=
  mkGenerator (add_child fuel red blue yielded :: yields rest) (final rest).

(** The payloads that the constructors of the root and of the child record. *)
Definition root_payload : obj :=
  [("fill", iWHITE); ("stroke", iBLUE); ("pen", iBLUE); ("id", VStr "algoid-0");
   ("root", VBool true); ("visible", VBool false); ("x", VNum 0); ("y", VNum 0);
   ("w", VNum 900); ("h", VNum 556); ("strokeWidth", VNum 0); ("type", VStr "Rectangle");
   ("cornerRadius", VNum 0); ("fontSize", VStr "40px"); ("rotation", VNum 0)].

Definition child_payload (fill : list (string * value)) : obj :=
  fill ++ [("type", VStr "Rectangle"); ("cornerRadius", VNum 0); ("strokeWidth", VNum 1);
           ("fontSize", VStr "40px"); ("rotation", VNum 0); ("x", VNum 0); ("y", VNum 0);
           ("id", VStr "algoid-1")].

(** ** The lists that [setState] builds from an array of state names *)







(** ** Seeking in the recorded history *)

(** The test of [executeCommandHistory]: the seek starts over from the
    empty surface. *)
Definition starts_over (r : Replay) (frameIndex : Z) : bool :=
  match historyFrame r with
  | Some f => (f =? -1)%Z || (frameIndex <? f)%Z
  | None => false
  end.

(** The frames [0, frameIndex) of the history replayed on the surface after
    it was reset. *)
Definition replay_from_empty (fuel : nat) (h : list (list command)) (frameIndex : Z)
  : M (list (list command)) :=
  Surface_resetElements ;;; Surface_playHistory fuel h (Some 0%Z) frameIndex.

(** ** Subtrees of the scene graph *)

(** A node with its element, the list of its children group, its id, and
    the subtrees of its children in the order of the group. *)
#[warnings="-register-all"]
Inductive tree := Node (e : loc) (g : loc) (id : value) (kids : list tree).

Definition root_of (t : tree) : loc :=
  match t with Node e _ _ _ => e end.

(** The elements of a subtree, children before their parent. *)
Fixpoint nodes (t : tree) : list loc :=
  match t with Node e _ _ kids => flat_map nodes kids ++ [e] end.

Fixpoint groups (t : tree) : list loc :=
  match t with Node _ g _ kids => flat_map groups kids ++ [g] end.

Fixpoint keys (t : tree) : list string :=
  match t with Node _ _ id kids => flat_map keys kids ++ [to_key id] end.

(** The destroy commands of the nodes of a subtree, children before their
    parent. *)
Fixpoint destroys (t : tree) : list command :=
  match t with
  | Node _ _ id kids => flat_map destroys kids ++ [mkCommand DESTROY_COMMAND [("id", id)]]
  end.

Fixpoint depth (t : tree) : nat :=
  match t with Node _ _ _ kids => S (list_max (map depth kids)) end.

(** The store holds the subtree [t] under [parent]: its nodes are not
    destroyed, are registered under their ids, and the children group of
    each lists the roots of its subtrees, whose parent it is. *)
Fixpoint shape (w : World) (parent : value) (t : tree) : Prop :=
  match t with
  | Node e g id kids =>
      (exists el, elements w !! e = Some el /\
                  truthy (oget "destroyed" (own el)) = false /\
                  oget "children" (own el) = VGroup g /\
                  oget "id" (own el) = id /\
                  oget "parent" (own el) = parent) /\
      is_Some (Element_map w !! to_key id) /\
      array_at w g = map (fun k => VElem (root_of k)) kids /\
      fold_right (fun k rest => shape w (VElem e) k /\ rest) True kids
  end.

(** The list of the children group of [parent]. *)
Definition parent_group (w : World) (parent : value) : option loc :=
  match parent with
  | VElem p =>
      match elements w !! p with
      | Some pel => match oget "children" (own pel) with
                    | VGroup gp => Some gp
                    | _ => None
                    end
      | None => None
      end
  | _ => None
  end.

(** The parent of the subtree is no parent or an element outside of it. *)
Definition outside (w : World) (parent : value) (t : tree) : Prop :=
  truthy parent = false \/
  exists p gp, parent = VElem p /\ (p ∉ nodes t) /\ parent_group w parent = Some gp /\ (gp ∉ groups t).

(** What the worker records, and the renderer does not. *)
Definition recorded (s : Surface) (cs : list command) : list command :=
  match location s with
  | WORKER => cs
  | DOM => []
  end.

(** The store [w'] after the elements [ns], with the lists [gs] and the
    keys [ks], were destroyed in [w]: they are flagged, the others are as
    they were, and the buffer has the commands [cs] at its end. *)
Record destroyed_from (w : World) (s : Surface) (parent : value)
       (ns gs : list loc) (ks : list string) (cs : list command) (w' : World) : Prop :=
  mkDestroyed {
  d_elements : forall x, x ∉ ns -> elements w' !! x = elements w !! x;
  d_flags : forall x, x ∈ ns ->
              exists el', elements w' !! x = Some el' /\ oget "destroyed" (own el') = VBool true;
  d_arrays : forall x, x ∉ gs -> parent_group w parent <> Some x -> arrays w' !! x = arrays w !! x;
  d_map : forall k, k ∉ ks -> Element_map w' !! k = Element_map w !! k;
  d_surface : SURFACE w' = Some (set_commands (commands s ++ recorded s cs) s)
}.

(** [destroy] with fuel [fuel] destroys every subtree of at most that
    depth, children first. *)
Definition destroys_trees (fuel : nat) : Prop :=
  forall t parent w s,
    (depth t <= fuel)%nat -> SURFACE w = Some s -> shape w parent t ->
    NoDup (nodes t) -> NoDup (groups t) -> NoDup (keys t) -> outside w parent t ->
    exists w',
      Element_destroy fuel (root_of t) w = Ok tt w' /\
      destroyed_from w s parent (nodes t) (groups t) (keys t) (destroys t) w'.

(** ** Concrete stores and runs *)

(** The shapes and the subtraction of the examples: no value is a shape,
    and the numbers are integers. *)
Definition no_shapes : Kind -> list (string * value) -> value -> option (list (string * value)) :=
  fun _ _ _ => None.

Definition minus_on_integers (v : value) (k : Z) : value :=
  match v with
  | VNum n => VNum (n - k)
  | _ => VNaN
  end.

Definition bounds : obj :=
  [("x", VNum 0); ("y", VNum 0); ("w", VNum 900); ("h", VNum 556)].

(** The store that a computation leaves when it is run in the empty one. *)
Definition world_after {A} (m : M A) : World :=
  match m empty_world with
  | Ok _ w | Throw _ w => w
  | Diverge => empty_world
  end.

(** A payload with two lists of different lengths. *)
Definition two_lists_world : World :=
  set_next_loc 2 (set_arrays (fun _ => <[1%nat := [VNum 2; VNum 3]]> (<[0%nat := [VNum 1]]> ∅))
                             empty_world).

Definition two_lists_payload : obj :=
  [("id", VStr "algoid-1"); ("x", VArr 0); ("y", VArr 1)].

(** One node on a worker whose buffer has an update command for it. *)
Definition one_node : Element :=
  mkElement KRectangle [] [("id", VStr "algoid-1"); ("x", VNum 1)].

Definition one_node_surface : Surface :=
  mkSurface WORKER [mkCommand UPDATE_COMMAND [("id", VStr "algoid-1"); ("x", VNum 1)]] VUndef.

Definition one_node_world : World :=
  set_SURFACE (Some one_node_surface) (set_elements <[0%nat := one_node]> empty_world).

(** A root and a node that has no parent. *)
Definition lone_root : Element :=
  mkElement KRectangle [] [("id", VStr "algoid-0"); ("children", VGroup 0)].



(** A node with two states that define different properties, and the
    array of their names. *)
Definition two_states_node : Element :=
  mkElement KRectangle
            [("a", VObj [("fill", VNum 1); ("stroke", VNum 2)]); ("b", VObj [("fill", VNum 3)])]
            [("id", VStr "algoid-1"); ("children", VGroup 1); ("parent", VElem 0)].

Definition two_states_world : World :=
  set_next_loc 3
    (set_SURFACE (Some (mkSurface WORKER [] (VElem 0)))
       (set_arrays (fun _ => <[2%nat := [VStr "a"; VStr "b"]]> (<[1%nat := []]> (<[0%nat := [VElem 1]]> ∅)))
          (set_elements (fun _ => <[1%nat := two_states_node]> (<[0%nat := lone_root]> ∅))
                        empty_world))).


(** A surface on the worker with a parent and its two children. *)
Definition family (fuel : nat) : M (loc * loc * loc) :=
  Surface_ctor fuel WORKER bounds ;;;
  let* p := new fuel KRectangle (Some []) in
  let* c1 := new fuel KRectangle (Some [("parent", VElem p)]) in
  let* c2 := new fuel KRectangle (Some [("parent", VElem p)]) in
  Surface_flushCommands ;;;
  ret (p, c1, c2).

Definition family_tree : tree :=
  Node 3 4 (VStr "algoid-1") [Node 6 7 (VStr "algoid-2") []; Node 9 10 (VStr "algoid-3") []].



(** A node whose id is changed before it is destroyed. *)
Definition renamed_node (fuel : nat) : M loc :=
  Surface_ctor fuel WORKER bounds ;;;
  let* e := new fuel KRectangle (Some []) in
  set fuel e (Some [("id", VStr "tile")]) 0 ;;;
  ret e.

(** The history that the renderer has of the two-colour example, and the
    renderer's store on entering the history. *)
Definition two_colours_history : list (list command) :=
  [ [mkCommand UPDATE_COMMAND root_payload;
     mkCommand UPDATE_COMMAND (child_payload [("fill", iRED)])];
    [mkCommand UPDATE_COMMAND (child_payload [("fill", iBLUE)])];
    [mkCommand DESTROY_COMMAND [("id", VStr "algoid-1")]] ].

Definition renderer_world : World :=
  set_SURFACE (Some (mkSurface DOM [] VUndef)) empty_world.

(** ** What a pause transmits *)

(** The command [t] is what the worker transmits for the buffered command
    [c]: an update command with the keys of the payload other than [more],
    any other command as it is. *)
Definition sent_for (c t : command) : Prop :=
  name t = name c /\
  if String.eqb (name c) UPDATE_COMMAND
  then forall k, k ∈ okeys (options t) <-> k ∈ okeys (options c) /\ k <> "more"
  else t = c.

(** The command [r] is what the worker retains of the command [c]. *)
Definition kept_for (c r : command) : Prop :=
  name r = name c /\ (name c <> UPDATE_COMMAND -> r = c).

(** An update command whose payload still carries [more]. *)
Definition still_pending (c : command) : bool :=
  String.eqb (name c) UPDATE_COMMAND && truthy (oget "more" (options c)).

(** A root with two children. *)
Definition second_node : Element :=
  mkElement KRectangle [] [("id", VStr "algoid-2"); ("children", VGroup 3); ("parent", VElem 0)].

Definition three_nodes_world : World :=
  set_next_loc 4
    (set_SURFACE (Some (mkSurface WORKER [] (VElem 0)))
       (set_arrays (fun _ => <[3%nat := []]> (<[1%nat := []]> (<[0%nat := [VElem 1; VElem 2]]> ∅)))
          (set_elements (fun _ => <[2%nat := second_node]>
                                    (<[1%nat := two_states_node]> (<[0%nat := lone_root]> ∅)))
                        empty_world))).

(** A group that holds the first child twice, after the second child and
    after a third member. *)
Definition crowded_group_world : World :=
  set_arrays <[0%nat := [VElem 2; VElem 1; VElem 3; VElem 1]]> three_nodes_world.

(** A worker that retains an update command with a list of one colour
    left. *)
Definition waiting_app : WorkerApp :=
  mkWorkerApp [mkCommand UPDATE_COMMAND [("id", VStr "algoid-1"); ("x", VArr 0); ("more", VBool true)];
               mkCommand DESTROY_COMMAND [("id", VStr "algoid-2")]]
              (mkGenerator [] (ret tt)).

(** A worker whose last batch has been sent in full. *)
Definition idle_app : WorkerApp :=
  mkWorkerApp [mkCommand UPDATE_COMMAND [("id", VStr "algoid-1"); ("x", VNum 1)]]
              (mkGenerator [] (ret tt)).

(** ** The parent chain of a node *)

(** The elements from the node [e] up: each is the parent of the one
    before it, and the last has no parent. *)
Fixpoint ancestry (w : World) (e : loc) (els : list Element) : Prop :=
  match els with
  | [] => False
  | el :: els' =>
      elements w !! e = Some el /\
      match els' with
      | [] => truthy (oget "parent" (own el)) = false
      | _ => exists p, oget "parent" (own el) = VElem p /\ ancestry w p els'
      end
  end.

(** The value of the nearest element of the chain that has the property,
    the default when none has it. *)
Definition inherited (els : list Element) (key : string) (defaultValue : value) : value :=
  match List.find (fun el => hasOwnProperty el key) els with
  | Some el => own_property el key
  | None => defaultValue
  end.

(** A node that is its own parent. *)
Definition own_parent (fuel : nat) : M loc :=
  Surface_ctor fuel WORKER bounds ;;;
  let* e := new fuel KRectangle (Some []) in
  set fuel e (Some [("parent", VElem e)]) 0 ;;;
  ret e.

(** A root with a fill, and a child of it that has none. *)
Definition red_root : Element :=
  mkElement KRectangle [] [("id", VStr "algoid-0"); ("children", VGroup 0); ("fill", iRED)].

Definition red_root_world : World :=
  set_next_loc 3
    (set_SURFACE (Some (mkSurface WORKER [] (VElem 0)))
       (set_arrays (fun _ => <[1%nat := []]> (<[0%nat := [VElem 1]]> ∅))
          (set_elements (fun _ => <[1%nat := two_states_node]> (<[0%nat := red_root]> ∅))
                        empty_world))).

(** Values other than elements and object literals without properties. *)
Definition no_own_property : value -> string -> option value := fun _ _ => None.
Definition no_parent : value -> value := fun _ => VUndef.

(** * Properties *)

(** ** [algo.core.Array]: what [updateElements] notifies *)

(** The condition of the loop fails on its first test, whatever the array
    holds. *)
Lemma updateElements_first_test (arr : CoreArray.Array) :
  CoreArray.less
    (CoreArray.plus (CoreArray.to_number CoreArray.Undefined) (CoreArray.Int 1))
    (CoreArray.length_of arr) = false.
Proof. reflexivity. Qed.

Lemma updateElements_returns (arr : CoreArray.Array) :
  CoreArray.updateElements arr = CoreArray.Returns arr.
Proof.
  unfold CoreArray.updateElements. cbn [CoreArray.updateElements_loop].
  now rewrite updateElements_first_test.
Qed.

Lemma updateElement_calls_app (cs ds : list CoreArray.call) :
  CoreArray.updateElement_calls (cs ++ ds)
  = CoreArray.updateElement_calls cs ++ CoreArray.updateElement_calls ds.
Proof. apply List.filter_app. Qed.

(** C10. [updateElements] returns the array as it found it: its loop body
    runs for no index and it invokes [updateElement] for no element, also
    when every entry has an element; hence an [insertAt] or a [removeAt]
    that returns has added no [updateElement] notification to the log. *)
Theorem updateElements_notifies_nothing :
  (forall arr, CoreArray.updateElements arr = CoreArray.Returns arr) /\
  (forall v index arr,
     match CoreArray.insertAt v index arr with
     | CoreArray.Returns arr' =>
         CoreArray.updateElement_calls (CoreArray.calls arr') = CoreArray.updateElement_calls (CoreArray.calls arr)
         /\ length (CoreArray.a arr') = S (length (CoreArray.a arr))
     | CoreArray.Throws msg => msg = "Invalid Index"
     | CoreArray.OutOfFuel => False
     end) /\
  (forall index arr,
     match CoreArray.removeAt index arr with
     | CoreArray.Returns arr' =>
         CoreArray.updateElement_calls (CoreArray.calls arr') = CoreArray.updateElement_calls (CoreArray.calls arr)
     | CoreArray.Throws msg => msg = "Invalid Index" \/ msg = TypeError
     | CoreArray.OutOfFuel => False
     end).
Proof.
  split; [exact updateElements_returns|]. split.
  - intros v index arr. unfold CoreArray.insertAt.
    destruct (_ || _) eqn:Hbounds; [reflexivity|].
    apply orb_false_iff in Hbounds as [Hlo Hhi].
    unfold CoreArray.invoke_createElement.
    destruct (CoreArray.has_createElement _) as [f|];
      rewrite updateElements_returns; cbn [CoreArray.calls CoreArray.a CoreArray.log];
      (split;
       [ rewrite ?updateElement_calls_app; cbn; now rewrite ?app_nil_r
       | rewrite length_app; cbn [length]; rewrite length_take, length_drop;
         destruct index as [z|]; cbn in Hlo, Hhi |- *; lia ]).
  - intros index arr. unfold CoreArray.removeAt.
    destruct (CoreArray.validateIndex _ _); [now left|].
    destruct (_ !! _) as [it|]; [|now right].
    rewrite updateElements_returns.
    destruct (truthy _); [|reflexivity].
    unfold CoreArray.invoke_destroyElement.
    destruct (CoreArray.has_destroyElement _); cbn; [|reflexivity].
    rewrite updateElement_calls_app. cbn. now rewrite app_nil_r.
Qed.

(** ** Values and objects *)

Lemma strict_eq_eq (a b : value) : strict_eq a b = true -> a = b.
Proof.
  destruct a, b; cbn; try discriminate; try reflexivity; intros H.
  - f_equal. now apply Bool.eqb_prop.
  - f_equal. now apply Z.eqb_eq.
  - f_equal. now apply String.eqb_eq.
  - f_equal. now apply String.eqb_eq.
  - f_equal. now apply Nat.eqb_eq.
  - f_equal. now apply Nat.eqb_eq.
  - f_equal. now apply Nat.eqb_eq.
Qed.

Lemma strict_eq_sym (a b : value) : strict_eq a b = strict_eq b a.
Proof.
  destruct a, b; cbn; try reflexivity.
  - now destruct b, b0.
  - apply Z.eqb_sym.
  - apply String.eqb_sym.
  - apply String.eqb_sym.
  - apply Nat.eqb_sym.
  - apply Nat.eqb_sym.
  - apply Nat.eqb_sym.
Qed.

Lemma olookup_oset_eq {V} k (v : V) o : olookup k (oset k v o) = Some v.
Proof.
  induction o as [|[k' v'] o IH]; cbn.
  - now rewrite String.eqb_refl.
  - destruct (String.eqb k k') eqn:E; cbn; rewrite ?String.eqb_refl, ?E; auto.
Qed.

Lemma olookup_oset_ne {V} k k' (v : V) o : k <> k' -> olookup k' (oset k v o) = olookup k' o.
Proof.
  intros Hne. induction o as [|[k0 v0] o IH]; cbn.
  - destruct (String.eqb k' k) eqn:E; [apply String.eqb_eq in E; congruence|reflexivity].
  - destruct (String.eqb k k0) eqn:E; cbn.
    + apply String.eqb_eq in E; subst k0.
      destruct (String.eqb k' k) eqn:E'; [apply String.eqb_eq in E'; congruence|reflexivity].
    + destruct (String.eqb k' k0); auto.
Qed.

Lemma oget_oset_eq k v o : oget k (oset k v o) = v.
Proof. unfold oget. now rewrite olookup_oset_eq. Qed.

Lemma oget_oset_ne k k' v o : k <> k' -> oget k' (oset k v o) = oget k' o.
Proof. intros. unfold oget. now rewrite olookup_oset_ne. Qed.

Lemma olookup_odel_eq {V} k (o : list (string * V)) : olookup k (odel k o) = None.
Proof.
  induction o as [|[k' v'] o IH]; cbn; [reflexivity|].
  destruct (String.eqb k k') eqn:E; cbn; rewrite ?E; auto.
Qed.

Lemma olookup_odel_ne {V} k k' (o : list (string * V)) :
  k <> k' -> olookup k' (odel k o) = olookup k' o.
Proof.
  intros Hne. induction o as [|[k0 v0] o IH]; cbn; [reflexivity|].
  destruct (String.eqb k k0) eqn:E; cbn.
  - apply String.eqb_eq in E; subst k0.
    destruct (String.eqb k' k) eqn:E'; [apply String.eqb_eq in E'; congruence|auto].
  - destruct (String.eqb k' k0); auto.
Qed.

Lemma olookup_None {V} k (o : list (string * V)) : olookup k o = None <-> k ∉ o.*1.
Proof.
  induction o as [|[k' v'] o IH]; cbn.
  - split; [intros _; apply not_elem_of_nil|reflexivity].
  - rewrite not_elem_of_cons. destruct (String.eqb k k') eqn:E.
    + apply String.eqb_eq in E. split; [discriminate|tauto].
    + apply String.eqb_neq in E. rewrite IH. tauto.
Qed.



(** [_.extend]: the source wins on its keys, the other keys stay. *)
Lemma olookup_extend_other d c k : k ∉ c.*1 -> olookup k (extend d c) = olookup k d.
Proof.
  unfold extend. revert d. induction c as [|[k' v'] c IH]; cbn; intros d Hk; [reflexivity|].
  apply not_elem_of_cons in Hk as [Hne Hk]. rewrite IH by assumption.
  now apply olookup_oset_ne.
Qed.

Lemma olookup_extend_source d c k v :
  NoDup c.*1 -> olookup k c = Some v -> olookup k (extend d c) = Some v.
Proof.
  unfold extend. revert d. induction c as [|[k' v'] c IH]; cbn; intros d Hnd Hk; [discriminate|].
  apply NoDup_cons in Hnd as [Hk' Hnd].
  destruct (String.eqb k k') eqn:E.
  - apply String.eqb_eq in E; subst k'. injection Hk as <-.
    fold (extend (oset k v' d) c). rewrite olookup_extend_other by assumption.
    apply olookup_oset_eq.
  - now apply IH.
Qed.

Lemma oset_keys {V} k (v : V) o :
  (oset k v o).*1 = if decide (k ∈ o.*1) then o.*1 else o.*1 ++ [k].
Proof.
  induction o as [|[k' v'] o IH]; cbn.
  - rewrite decide_False; [reflexivity|apply not_elem_of_nil].
  - destruct (String.eqb k k') eqn:E; cbn.
    + apply String.eqb_eq in E; subst k'. rewrite decide_True; [reflexivity|left].
    + apply String.eqb_neq in E. rewrite IH.
      destruct (decide (k ∈ o.*1)) as [H|H].
      * rewrite decide_True; [reflexivity|now right].
      * rewrite decide_False; [reflexivity|]. intros [?|?]%elem_of_cons; congruence.
Qed.

Lemma NoDup_oset {V} k (v : V) o : NoDup o.*1 -> NoDup (oset k v o).*1.
Proof.
  intros H. rewrite oset_keys. destruct (decide _); [assumption|].
  apply NoDup_app. split; [assumption|]. split; [|apply NoDup_singleton].
  intros x Hx Hx'. apply list_elem_of_singleton in Hx'. congruence.
Qed.

Lemma NoDup_omit o ks : NoDup o.*1 -> NoDup (omit o ks).*1.
Proof.
  unfold omit. induction o as [|[k v] o IH]; intros H; [constructor|].
  rewrite fmap_cons in H. apply NoDup_cons in H as [Hk H].
  rewrite filter_cons. destruct (decide _); [|auto].
  rewrite fmap_cons. apply NoDup_cons. split; [|auto].
  intros Hin. apply Hk. apply list_elem_of_fmap in Hin as ([k' v'] & Heq & Hin).
  apply list_elem_of_filter in Hin as [_ Hin]. apply list_elem_of_fmap. now exists (k', v').
Qed.

Lemma olookup_omit k o ks : k ∉ ks -> olookup k (omit o ks) = olookup k o.
Proof.
  intros Hk. unfold omit. induction o as [|[k' v'] o IH]; [reflexivity|].
  rewrite filter_cons. destruct (decide _) as [Hin|Hin]; cbn [olookup].
  - destruct (String.eqb k k'); auto.
  - destruct (String.eqb k k') eqn:E; [|auto].
    apply String.eqb_eq in E; subst k'. cbn in Hin. exfalso. apply Hin. assumption.
Qed.

(** ** Computations *)

Lemma bind_Ok {A B} (m : M A) (k : A -> M B) w a w' :
  m w = Ok a w' -> bind m k w = k a w'.
Proof. intros H. unfold bind. now rewrite H. Qed.

Lemma bind_Throw {A B} (m : M A) (k : A -> M B) w e w' :
  m w = Throw e w' -> bind m k w = Throw e w'.
Proof. intros H. unfold bind. now rewrite H. Qed.

Lemma the_surface_Ok w s : SURFACE w = Some s -> the_surface w = Ok s w.
Proof. intros H. unfold the_surface. now rewrite H. Qed.

Lemma own_get_Ok w e el k : elements w !! e = Some el -> own_get e k w = Ok (oget k (own el)) w.
Proof. intros H. unfold own_get, bind, get_element. now rewrite H. Qed.

Lemma prop_pure v k w :
  (exists x, prop v k w = Ok x w) \/ (exists e, prop v k w = Throw e w).
Proof.
  destruct v; cbn; unfold throw, ret; eauto.
  unfold own_get, bind, get_element. destruct (elements w !! e); cbn; eauto.
Qed.

(** ** The command buffer: one update command per element *)

Lemma extend_existing_None id c cs :
  extend_existing id c cs = None <-> forall ci, ci ∈ cs -> updates id ci = false.
Proof.
  induction cs as [|c0 cs IH]; cbn.
  - split; [intros _ ci Hin; now apply elem_of_nil in Hin|reflexivity].
  - fold (updates id c0). destruct (updates id c0) eqn:E.
    + split; [discriminate|]. intros H. specialize (H c0 ltac:(left)). congruence.
    + destruct (extend_existing id c cs) eqn:E'; cbn.
      * split; [discriminate|]. intros H.
        assert (Some l = None) as Habs; [|discriminate].
        apply IH. intros ci Hin. apply H. now right.
      * split; [|reflexivity]. intros _ ci Hin.
        apply elem_of_cons in Hin as [->|Hin]; [assumption|]. now apply IH.
Qed.

Lemma extend_existing_Some id c cs cs' :
  extend_existing id c cs = Some cs' ->
  exists i c0, cs !! i = Some c0 /\ updates id c0 = true /\
    (forall j cj, (j < i)%nat -> cs !! j = Some cj -> updates id cj = false) /\
    cs' = <[i := mkCommand (name c0) (extend (options c0) c)]> cs.
Proof.
  revert cs'. induction cs as [|c0 cs IH]; cbn; intros cs'; [discriminate|].
  fold (updates id c0). destruct (updates id c0) eqn:E.
  - intros [= <-]. exists 0%nat, c0. repeat split; auto. intros j cj Hj. lia.
  - destruct (extend_existing id c cs) eqn:E'; cbn; [|discriminate].
    intros [= <-]. destruct (IH _ eq_refl) as (i & ci & Hi & Hu & Hfirst & ->).
    exists (S i), ci. repeat split; auto.
    intros [|j] cj Hj; cbn; [now intros [= <-]|]. intros Hc. eapply Hfirst; [|eassumption]. lia.
Qed.

Lemma updates_id (id : value) (c : command) : updates id c = true -> name c = UPDATE_COMMAND /\ oget "id" (options c) = id.
Proof.
  unfold updates. intros H. apply andb_true_iff in H as [H1 H2].
  split; [now apply String.eqb_eq|now apply strict_eq_eq].
Qed.

Lemma one_update_push cs c :
  one_update_per_id cs ->
  (name c = UPDATE_COMMAND -> forall ci, ci ∈ cs -> updates (oget "id" (options c)) ci = false) ->
  one_update_per_id (cs ++ [c]).
Proof.
  intros Hinv Hnew i j ci cj Hi Hj Hu Hn.
  apply lookup_app_Some in Hi as [Hi|[Hil Hi]]; apply lookup_app_Some in Hj as [Hj|[Hjl Hj]].
  - eauto.
  - apply list_lookup_singleton_Some in Hj as [Hj0 Hcj]. subst cj.
    rewrite Hnew in Hu; [discriminate|assumption|]. eapply list_elem_of_lookup_2; eauto.
  - apply list_lookup_singleton_Some in Hi as [Hi0 Hci]. subst ci.
    destruct (updates_id _ _ Hu) as [Hnc Hid].
    assert (updates (oget "id" (options c)) cj = false) as Habs.
    { apply Hnew; [assumption|]. eapply list_elem_of_lookup_2; eauto. }
    unfold updates in Habs, Hu. rewrite Hn, String.eqb_refl in Habs. cbn in Habs.
    apply andb_true_iff in Hu as [_ Hu]. rewrite strict_eq_sym in Hu. congruence.
  - apply list_lookup_singleton_Some in Hi as [Hi0 _].
    apply list_lookup_singleton_Some in Hj as [Hj0 _]. lia.
Qed.

Lemma one_update_replace cs i c0 c' :
  one_update_per_id cs -> cs !! i = Some c0 ->
  name c' = name c0 -> oget "id" (options c') = oget "id" (options c0) ->
  one_update_per_id (<[i := c']> cs).
Proof.
  intros Hinv Hc0 Hname Hid a b ca cb Ha Hb Hu Hn.
  assert (forall k ck, <[i := c']> cs !! k = Some ck ->
            exists ck', cs !! k = Some ck' /\ name ck = name ck' /\
                        oget "id" (options ck) = oget "id" (options ck')) as Hview.
  { intros k ck Hk. destruct (decide (i = k)) as [->|Hne].
    - rewrite list_lookup_insert_eq in Hk by (eapply lookup_lt_Some; eauto).
      injection Hk as <-. eauto.
    - rewrite list_lookup_insert_ne in Hk by assumption. eauto. }
  destruct (Hview _ _ Ha) as (ca' & Ha' & Hna & Hia).
  destruct (Hview _ _ Hb) as (cb' & Hb' & Hnb & Hib).
  apply (Hinv a b ca' cb'); auto; [|congruence].
  unfold updates in *. now rewrite <- Hna, <- Hia, <- Hib.
Qed.

(** C3. On the worker, recording a command keeps the buffer free of two
    update commands for one id; when an update command for the element is
    pending, recording an update puts no second command into the buffer but
    replaces the pending payload by its extension with the new payload [c]
    (the written properties, the parent as an id, and the id): every
    property of [c] has the new value, every other property keeps the
    pending one. *)
Theorem addCommand_merges_updates w s el nm element opts :
  SURFACE w = Some s -> location s = WORKER ->
  elements w !! element = Some el ->
  NoDup opts.*1 ->
  one_update_per_id (commands s) ->
  match Surface_addCommand nm element opts w with
  | Ok _ w' =>
      one_update_per_id (buffer w') /\
      (nm = UPDATE_COMMAND ->
       forall i c0,
         commands s !! i = Some c0 -> updates (oget "id" (own el)) c0 = true ->
         exists c,
           buffer w' = <[i := mkCommand UPDATE_COMMAND (extend (options c0) c)]> (commands s) /\
           (forall k, k ∉ ["states"; "state"; "shape"; "parent"; "id"] ->
                      olookup k c = olookup k opts) /\
           (forall k v, olookup k c = Some v -> olookup k (extend (options c0) c) = Some v) /\
           (forall k, olookup k c = None ->
                      olookup k (extend (options c0) c) = olookup k (options c0)))
  | Throw _ w' => w' = w
  | Diverge => False
  end.
Proof.
  clear js_minus. intros Hs Hloc Hel Hnd Hinv.
  unfold Surface_addCommand. rewrite (bind_Ok _ _ _ _ _ (the_surface_Ok _ _ Hs)).
  unfold isDOM. rewrite Hloc.
  set (c0 := omit opts ["states"; "state"; "shape"]).
  assert ((exists c1,
            (if truthy (oget "parent" opts)
             then let* pid := prop (oget "parent" opts) "id" in ret (oset "parent" pid c0)
             else ret c0) w = Ok c1 w /\ NoDup c1.*1 /\
            (forall k, k ∉ ["states"; "state"; "shape"; "parent"; "id"] ->
                       olookup k c1 = olookup k opts))
          \/ exists e, (if truthy (oget "parent" opts)
             then let* pid := prop (oget "parent" opts) "id" in ret (oset "parent" pid c0)
             else ret c0) w = Throw e w) as Hc1.
  { assert (forall k, k ∉ ["states"; "state"; "shape"; "parent"; "id"] ->
                       olookup k c0 = olookup k opts) as Hc0.
    { intros k Hk. apply olookup_omit. intros Hin. apply Hk.
      rewrite ?elem_of_cons, ?elem_of_nil in Hin. rewrite ?elem_of_cons, ?elem_of_nil. tauto. }
    destruct (truthy (oget "parent" opts)).
    - assert (forall pid, NoDup (oset "parent" pid c0).*1 /\
                (forall k, k ∉ ["states"; "state"; "shape"; "parent"; "id"] ->
                       olookup k (oset "parent" pid c0) = olookup k opts)) as Hok.
      { intros pid. split; [apply NoDup_oset, NoDup_omit, Hnd|].
        intros k Hk. rewrite olookup_oset_ne; [now apply Hc0|]. intros <-. apply Hk.
        rewrite ?elem_of_cons, ?elem_of_nil. tauto. }
      unfold bind. destruct (prop_pure (oget "parent" opts) "id" w) as [[x ->]|[e ->]].
      + left; eexists; split; [reflexivity|apply Hok].
      + right; eexists; reflexivity.
    - left. exists c0. split; [reflexivity|]. split; [apply NoDup_omit, Hnd|exact Hc0]. }
  destruct Hc1 as [(c1 & Hrun & Hnd1 & Hc1)|[e Hrun]];
    [rewrite (bind_Ok _ _ _ _ _ Hrun)|now rewrite (bind_Throw _ _ _ _ _ Hrun)].
  rewrite (bind_Ok _ _ _ _ _ (own_get_Ok _ _ _ _ Hel)).
  set (id := oget "id" (own el)). set (c := oset "id" id c1).
  assert (NoDup c.*1) as Hndc by apply NoDup_oset, Hnd1.
  assert (oget "id" c = id) as Hidc by apply oget_oset_eq.
  assert (forall cs, (update_surface (set_commands cs)) w = Ok tt (set_SURFACE (Some (set_commands cs s)) w)) as Hupd.
  { intros cs. unfold update_surface, bind, the_surface. now rewrite Hs. }
  assert (one_update_per_id (commands s ++ [mkCommand nm c]) ->
          (nm = UPDATE_COMMAND -> forall ci, ci ∈ commands s -> updates id ci = false) ->
          match update_surface (fun s0 => set_commands (commands s0 ++ [mkCommand nm c]) s0) w with
          | Ok _ w' =>
              one_update_per_id (buffer w') /\
              (nm = UPDATE_COMMAND ->
               forall i c0,
                 commands s !! i = Some c0 -> updates id c0 = true ->
                 exists c,
                   buffer w' = <[i := mkCommand UPDATE_COMMAND (extend (options c0) c)]> (commands s) /\
                   (forall k, k ∉ ["states"; "state"; "shape"; "parent"; "id"] ->
                              olookup k c = olookup k opts) /\
                   (forall k v, olookup k c = Some v -> olookup k (extend (options c0) c) = Some v) /\
                   (forall k, olookup k c = None ->
                              olookup k (extend (options c0) c) = olookup k (options c0)))
          | Throw _ w' => w' = w
          | Diverge => False
          end) as Hpush.
  { intros Hinv' Hfresh. unfold update_surface, bind, the_surface. rewrite Hs. cbn.
    split; [exact Hinv'|]. intros Hnm i ci Hi Hu. exfalso.
    rewrite (Hfresh Hnm ci) in Hu; [discriminate|]. eapply list_elem_of_lookup_2; eauto. }
  destruct (String.eqb nm UPDATE_COMMAND) eqn:Hnm.
  - apply String.eqb_eq in Hnm. subst nm.
    destruct (extend_existing id c (commands s)) as [cs'|] eqn:Hex.
    + apply extend_existing_Some in Hex as (i & ci & Hi & Hu & Hfirst & ->).
      rewrite Hupd. unfold buffer; cbn.
      destruct (updates_id _ _ Hu) as [Hnci Hidci].
      split.
      * eapply one_update_replace; eauto. cbn.
        unfold oget at 1. erewrite olookup_extend_source; [|assumption|].
        -- now rewrite Hidci.
        -- subst c. apply olookup_oset_eq.
      * intros _ j cj Hj Huj.
        assert (j = i) as ->.
        { apply (Hinv j i cj ci); auto. now rewrite Hidci. }
        assert (cj = ci) as -> by congruence.
        exists c. rewrite Hnci. split; [reflexivity|]. split; [|split].
        -- intros k Hk. subst c. rewrite olookup_oset_ne; [now apply Hc1|].
           intros <-. apply Hk. rewrite ?elem_of_cons, ?elem_of_nil. tauto.
        -- intros k v. now apply olookup_extend_source.
        -- intros k Hk. apply olookup_extend_other. now apply olookup_None.
    + apply Hpush.
      * apply one_update_push; [assumption|]. cbn. intros _ ci Hin.
        rewrite Hidc. eapply extend_existing_None in Hex; eauto.
      * intros _ ci Hin. eapply extend_existing_None in Hex; eauto.
  - apply Hpush.
    + apply one_update_push; [assumption|]. cbn. intros ->. discriminate.
    + intros ->. discriminate.
Qed.

(** ** [processOptions]: the ticks of a payload *)


Lemma oset_fresh {V} k (v : V) o : k ∉ o.*1 -> oset k v o = o ++ [(k, v)].
Proof.
  induction o as [|[k' v'] o IH]; cbn; intros H; [reflexivity|].
  apply not_elem_of_cons in H as [Hne H].
  destruct (String.eqb k k') eqn:E; [apply String.eqb_eq in E; congruence|].
  now rewrite IH.
Qed.

Lemma oset_same_last {V} k (v : V) o : k ∉ o.*1 -> oset k v (o ++ [(k, v)]) = o ++ [(k, v)].
Proof.
  induction o as [|[k' v'] o IH]; cbn; intros H.
  - now rewrite String.eqb_refl.
  - apply not_elem_of_cons in H as [Hne H].
    destruct (String.eqb k k') eqn:E; [apply String.eqb_eq in E; congruence|].
    now rewrite IH.
Qed.

Lemma odel_absent {V} k (o : list (string * V)) : k ∉ o.*1 -> odel k o = o.
Proof.
  induction o as [|[k' v'] o IH]; cbn; intros H; [reflexivity|].
  apply not_elem_of_cons in H as [Hne H].
  destruct (String.eqb k k') eqn:E; [apply String.eqb_eq in E; congruence|].
  now rewrite IH.
Qed.

Lemma odel_app {V} k (o1 o2 : list (string * V)) : odel k (o1 ++ o2) = odel k o1 ++ odel k o2.
Proof.
  induction o1 as [|[k' v'] o1 IH]; cbn; [reflexivity|].
  destruct (String.eqb k k'); cbn; now rewrite IH.
Qed.

Lemma odel_keys {V} k (o : list (string * V)) : k ∉ (odel k o).*1.
Proof. apply olookup_None, olookup_odel_eq. Qed.

Lemma odel_sublist {V} k (o : list (string * V)) : sublist (odel k o) o.
Proof.
  induction o as [|[k' v'] o IH]; cbn; [constructor|].
  destruct (String.eqb k k'); [now apply sublist_cons|now apply sublist_skip].
Qed.

Lemma only_arrays_differ_refl w : only_arrays_differ w w.
Proof. now destruct w. Qed.

Lemma only_arrays_differ_trans w1 w2 w3 :
  only_arrays_differ w1 w2 -> only_arrays_differ w2 w3 -> only_arrays_differ w1 w3.
Proof. unfold only_arrays_differ. intros -> ->. reflexivity. Qed.

Lemma tick_keys w o i : (tick w o i).*1 ⊆ o.*1.
Proof.
  unfold tick. induction o as [|[k v] o IH]; cbn; [reflexivity|].
  unfold carried at 1; cbn.
  destruct v; cbn; try (apply list_subseteq_skip, IH).
  destruct (array_at w a !! i); cbn; [apply list_subseteq_skip, IH|].
  destruct (i =? 0)%nat; cbn; [apply list_subseteq_skip, IH|]. now apply list_subseteq_cons.
Qed.

Lemma filter_keys (P : string * value -> bool) (o : obj) : (List.filter P o).*1 ⊆ o.*1.
Proof.
  induction o as [|kv o IH]; cbn; [reflexivity|].
  destruct (P kv); cbn; [now apply list_subseteq_skip|now apply list_subseteq_cons].
Qed.

Lemma flag_keys w n o : (flag w n o).*1 ⊆ ["more"].
Proof. unfold flag. destruct (existsb _ _); cbn; [reflexivity|apply list_subseteq_nil]. Qed.

Lemma array_at_insert w a l a' :
  array_at (set_arrays <[a := l]> w) a' = if decide (a = a') then l else array_at w a'.
Proof.
  unfold array_at; cbn. destruct (decide (a = a')) as [->|Hne].
  - now rewrite lookup_insert_eq.
  - now rewrite lookup_insert_ne.
Qed.

Lemma lists_of_app o1 o2 : lists_of (o1 ++ o2) = lists_of o1 ++ lists_of o2.
Proof. apply omap_app. Qed.

Lemma result_eq_args {A S} (f : S -> A -> M S) es (X X' : S) (Y Y' : S) w w' :
  X' = X -> Y' = Y -> foldM f es X w = Ok Y w' -> foldM f es X' w = Ok Y' w'.
Proof. now intros -> ->. Qed.

Ltac close_with H := eapply result_eq_args; [| |exact H].

Lemma process_entries w0 es : forall pre w,
  NoDup (pre ++ es).*1 -> "more" ∉ (pre ++ es).*1 -> NoDup (lists_of (pre ++ es)) ->
  (forall a, a ∈ lists_of es -> array_at w a = array_at w0 a) ->
  exists w',
    foldM processOptions_entry es
      (List.filter (outlasts w0 1) pre ++ es ++ flag w0 1 pre, tick w0 pre 0) w
    = Ok (List.filter (outlasts w0 1) (pre ++ es) ++ flag w0 1 (pre ++ es),
          tick w0 (pre ++ es) 0) w'
    /\ only_arrays_differ w w'
    /\ (forall a, array_at w' a
                  = if decide (a ∈ lists_of es) then tail (array_at w a) else array_at w a).
Proof.
  induction es as [|[k v] es IH]; intros pre w Hnd Hmore Hnda Hsame.
  - exists w. rewrite !app_nil_r. cbn. unfold ret. split; [reflexivity|].
    split; [apply only_arrays_differ_refl|]. intros a. rewrite decide_False; [reflexivity|].
    apply not_elem_of_nil.
  - assert ((k ∉ pre.*1) /\ (k ∉ es.*1) /\ k <> "more") as (Hkpre & Hkes & Hkmore).
    { rewrite fmap_app, fmap_cons in Hnd, Hmore. cbn in Hnd, Hmore.
      apply NoDup_app in Hnd as (_ & Hdisj & Hnd). apply NoDup_cons in Hnd as [? _].
      repeat split; auto.
      - intros Hin. apply (Hdisj k Hin). left.
      - intros ->. apply Hmore. apply elem_of_app. right. left. }
    assert (k ∉ (tick w0 pre 0).*1) as Hkclone.
    { intros Hin. apply Hkpre. eapply tick_keys; eauto. }
    assert (k ∉ (List.filter (outlasts w0 1) pre).*1) as Hkfilter.
    { intros Hin. apply Hkpre. eapply filter_keys; eauto. }
    assert (k ∉ (flag w0 1 pre).*1) as Hkflag.
    { intros Hin. apply flag_keys in Hin. apply list_elem_of_singleton in Hin. congruence. }
    assert ("more" ∉ (List.filter (outlasts w0 1) pre ++ (k, v) :: es).*1) as Hmore'.
    { intros Hin. apply Hmore. rewrite fmap_app in Hin |- *.
      apply elem_of_app in Hin as [Hin|Hin]; apply elem_of_app; [left|now right].
      eapply filter_keys; eauto. }
    specialize (IH (pre ++ [(k, v)])).
    rewrite <- !(assoc_L (++)) in IH. cbn [app] in IH.
    assert (forall w1, (forall a', a' ∈ lists_of es -> array_at w1 a' = array_at w0 a') ->
              exists w' : World,
                foldM processOptions_entry es
                  (List.filter (outlasts w0 1) (pre ++ [(k, v)]) ++
                   es ++ flag w0 1 (pre ++ [(k, v)]), tick w0 (pre ++ [(k, v)]) 0) w1 =
                Ok (List.filter (outlasts w0 1) (pre ++ (k, v) :: es) ++
                    flag w0 1 (pre ++ (k, v) :: es), tick w0 (pre ++ (k, v) :: es) 0) w'
                /\ only_arrays_differ w1 w'
                /\ (forall a0 : nat, array_at w' a0 =
                      (if decide (a0 ∈ lists_of es) then tail (array_at w1 a0) else array_at w1 a0)))
      as IH' by (intros w1 Hw1; now apply IH).
    clear IH.
    destruct (isArray v) eqn:Hv.
    + (* a list *)
      destruct v as [| |b|n| |s|c|a|e|g|fields]; try discriminate. clear Hv.
      assert (array_at w a = array_at w0 a) as Hl by (apply Hsame; left).
      set (l := array_at w0 a) in *.
      assert (a ∉ lists_of es) as Haes.
      { rewrite lists_of_app in Hnda. cbn in Hnda. apply NoDup_app in Hnda as (_ & _ & Hnda).
        now apply NoDup_cons in Hnda as [? _]. }
      assert (forall options clone,
                processOptions_entry (options, clone) (k, VArr a) w
                = Ok (if (length (tail l) =? 0)%nat
                      then (odel k options, oset k (default VUndef (head l)) clone)
                      else (oset "more" (VBool true) options,
                            oset k (default VUndef (head l)) clone))
                     (set_arrays <[a := tail l]> w)) as Hentry.
      { intros options clone.
        unfold processOptions_entry, bind, read_array, write_array, modify, ret.
        rewrite Hl. now destruct (length (tail l) =? 0)%nat. }
      cbn [foldM]. rewrite (bind_Ok _ _ _ _ _ (Hentry _ _)). clear Hentry.
      rewrite oset_fresh by assumption.
      set (w1 := set_arrays <[a := tail l]> w).
      destruct (IH' w1) as (w' & Hrun & Hdiff & Harr).
      { intros a' Ha'. unfold w1. rewrite array_at_insert. destruct (decide (a = a')) as [->|_];
          [contradiction|]. apply Hsame. now right. }
      exists w'. split; [|split].
      * assert (carried w0 0 (k, VArr a) = Some (k, default VUndef (head l))) as Hcar.
        { unfold carried; cbn. fold l. rewrite <- head_lookup. now destruct (head l). }
        assert (outlasts w0 1 (k, VArr a) = negb (length (tail l) =? 0)%nat) as Hout.
        { unfold outlasts; cbn. fold l. destruct l as [|? [|]]; reflexivity. }
        assert (pending w0 1 (k, VArr a) = negb (length (tail l) =? 0)%nat) as Hpen.
        { unfold pending. now rewrite Hout. }
        assert (tick w0 (pre ++ [(k, VArr a)]) 0
                = tick w0 pre 0 ++ [(k, default VUndef (head l))]) as Htick.
        { unfold tick. rewrite omap_app. cbn [omap list_omap]. now rewrite Hcar. }
        destruct (length (tail l) =? 0)%nat; cbn [negb] in Hout, Hpen;
          close_with Hrun; try reflexivity; apply (f_equal2 pair); try (now rewrite Htick).
        -- rewrite List.filter_app. cbn [List.filter]. rewrite Hout.
           unfold flag. rewrite existsb_app. cbn [existsb]. rewrite Hpen.
           rewrite ?orb_false_r, app_nil_r. rewrite odel_app. cbn [app odel].
           rewrite String.eqb_refl. rewrite odel_app.
           rewrite !odel_absent; [reflexivity|..]; try assumption.
        -- rewrite List.filter_app. cbn [List.filter]. rewrite Hout.
           unfold flag. rewrite existsb_app. cbn [existsb]. rewrite Hpen.
           cbn [orb]. rewrite orb_true_r. rewrite <- (assoc_L (++)). cbn [app].
           destruct (existsb (pending w0 1) pre).
           ++ replace (List.filter (outlasts w0 1) pre ++ (k, VArr a) :: es ++ [("more", VBool true)])
                with ((List.filter (outlasts w0 1) pre ++ (k, VArr a) :: es) ++ [("more", VBool true)])
                by (now rewrite <- (assoc_L (++))).
              now apply oset_same_last.
           ++ rewrite app_nil_r. rewrite oset_fresh by exact Hmore'.
              now rewrite <- (assoc_L (++)).
      * eapply only_arrays_differ_trans; [|exact Hdiff]. unfold w1, only_arrays_differ.
        now destruct w.
      * intros a'. rewrite Harr. cbn. unfold w1. rewrite array_at_insert.
        destruct (decide (a = a')) as [<-|Hne].
        -- rewrite decide_False by assumption. rewrite decide_True by left. now rewrite Hl.
        -- destruct (decide (a' ∈ lists_of es)) as [Hin|Hin].
           ++ rewrite decide_True by now right. reflexivity.
           ++ rewrite decide_False; [reflexivity|].
              intros [?|?]%elem_of_cons; [congruence|contradiction].
    + (* a scalar *)
      assert (processOptions_entry
                (List.filter (outlasts w0 1) pre ++ ((k, v) :: es) ++ flag w0 1 pre, tick w0 pre 0)
                (k, v) w
              = Ok (List.filter (outlasts w0 1) pre ++ ((k, v) :: es) ++ flag w0 1 pre,
                    oset k v (tick w0 pre 0)) w) as Hentry.
      { now destruct v. }
      cbn [foldM]. rewrite (bind_Ok _ _ _ _ _ Hentry). clear Hentry.
      rewrite oset_fresh by assumption.
      assert (lists_of ((k, v) :: es) = lists_of es) as Hlists by (now destruct v).
      destruct (IH' w) as (w' & Hrun & Hdiff & Harr).
      { intros a' Ha'. apply Hsame. now rewrite Hlists. }
      exists w'. rewrite Hlists. split; [|split; assumption].
      assert (carried w0 0 (k, v) = Some (k, v)) as Hcar by (now destruct v).
      assert (outlasts w0 1 (k, v) = true) as Hout by (now destruct v).
      assert (pending w0 1 (k, v) = false) as Hpen by (unfold pending; cbn; now rewrite Hv).
      close_with Hrun.
      * apply (f_equal2 pair).
        -- rewrite List.filter_app. cbn [List.filter]. rewrite Hout.
           unfold flag. rewrite existsb_app. cbn [existsb]. rewrite Hpen.
           cbn [orb]. rewrite orb_false_r. now rewrite <- (assoc_L (++)).
        -- unfold tick. rewrite omap_app. cbn [omap list_omap]. now rewrite Hcar.
      * reflexivity.
Qed.

Lemma processOptions_step w options :
  let o := odel "more" options in
  NoDup o.*1 -> NoDup (lists_of o) ->
  exists w',
    Surface_processOptions options w
    = Ok (List.filter (outlasts w 1) o ++ flag w 1 o, tick w o 0) w'
    /\ only_arrays_differ w w'
    /\ (forall a, array_at w' a
                  = if decide (a ∈ lists_of o) then tail (array_at w a) else array_at w a).
Proof.
  intros o Hnd Hnda. unfold Surface_processOptions. fold o.
  destruct (process_entries w o [] w) as (w' & Hrun & Hdiff & Harr); auto.
  { apply odel_keys. }
  exists w'. split; [|split; assumption].
  unfold flag at 1 in Hrun. cbn [List.filter existsb app] in Hrun. rewrite app_nil_r in Hrun.
  exact Hrun.
Qed.

Lemma lists_of_elem k a (o : obj) : (k, VArr a) ∈ o -> a ∈ lists_of o.
Proof.
  intros Hin. unfold lists_of. apply list_elem_of_omap. exists (k, VArr a). now split.
Qed.

Lemma filter_ext_in {A} (P Q : A -> bool) l :
  (forall x, x ∈ l -> P x = Q x) -> List.filter P l = List.filter Q l.
Proof.
  induction l as [|x l IH]; intros H; [reflexivity|]. cbn.
  rewrite (H x) by left. rewrite IH; [reflexivity|]. intros y Hy. apply H. now right.
Qed.

Lemma filter_filter {A} (P Q : A -> bool) l :
  List.filter P (List.filter Q l) = List.filter (fun x => Q x && P x) l.
Proof.
  induction l as [|x l IH]; [reflexivity|]. cbn.
  destruct (Q x); cbn; [destruct (P x)|]; now rewrite IH.
Qed.

Lemma existsb_ext_in {A} (P Q : A -> bool) l :
  (forall x, x ∈ l -> P x = Q x) -> existsb P l = existsb Q l.
Proof.
  induction l as [|x l IH]; intros H; [reflexivity|]. cbn.
  rewrite (H x) by left. rewrite IH; [reflexivity|]. intros y Hy. apply H. now right.
Qed.

Lemma existsb_filter {A} (P Q : A -> bool) l :
  existsb P (List.filter Q l) = existsb (fun x => Q x && P x) l.
Proof.
  induction l as [|x l IH]; [reflexivity|]. cbn.
  destruct (Q x); cbn; now rewrite IH.
Qed.

Lemma ltb_max n a b : (n <? Nat.max a b)%nat = (n <? a)%nat || (n <? b)%nat.
Proof.
  destruct (Nat.ltb_spec n a), (Nat.ltb_spec n b); cbn;
    try (apply Nat.ltb_lt; lia); apply Nat.ltb_ge; lia.
Qed.

Lemma longest_cons w k v o :
  longest w ((k, v) :: o)
  = match v with
    | VArr a => Nat.max (length (array_at w a)) (longest w o)
    | _ => longest w o
    end.
Proof. now destruct v. Qed.

Lemma longest_lt w o n : (n <? longest w o)%nat = existsb (pending w n) o.
Proof.
  induction o as [|[k v] o IH]; [reflexivity|].
  rewrite longest_cons. cbn [existsb]. rewrite <- IH. unfold pending, outlasts. cbn [snd].
  destruct v; try reflexivity. cbn [isArray andb]. apply ltb_max.
Qed.

Section Shift.
Context (w w' : World) (o : obj).
Hypothesis Hshift : shifted w w' o.

Lemma outlasts_shifted n kv : kv ∈ o -> outlasts w' n kv = outlasts w (S n) kv.
Proof.
  destruct kv as [k v]. intros Hin. unfold outlasts; cbn.
  destruct v; try reflexivity.
  rewrite (Hshift a) by (eapply lists_of_elem; eauto).
  destruct (array_at w a); cbn; [|reflexivity]. now destruct n.
Qed.

Lemma outlasts_mono n m kv : (n <= m)%nat -> outlasts w m kv = true -> outlasts w n kv = true.
Proof.
  unfold outlasts. destruct kv.2; auto. intros Hle H%Nat.ltb_lt. apply Nat.ltb_lt. lia.
Qed.

Lemma filter_shifted n :
  List.filter (outlasts w' (S n)) (List.filter (outlasts w 1) o)
  = List.filter (outlasts w (S (S n))) o.
Proof.
  rewrite filter_filter. apply filter_ext_in. intros kv Hin.
  rewrite outlasts_shifted by assumption.
  destruct (outlasts w (S (S n)) kv) eqn:E; [|apply andb_false_r].
  rewrite (outlasts_mono 1 (S (S n))); auto. lia.
Qed.

Lemma pending_shifted n :
  existsb (pending w' (S n)) (List.filter (outlasts w 1) o)
  = existsb (pending w (S (S n))) o.
Proof.
  rewrite existsb_filter. apply existsb_ext_in. intros kv Hin. unfold pending.
  rewrite outlasts_shifted by assumption.
  destruct (outlasts w (S (S n)) kv) eqn:E; [|now rewrite !andb_false_r].
  rewrite (outlasts_mono 1 (S (S n))); auto. lia.
Qed.

Lemma tick_shifted i :
  tick w' (List.filter (outlasts w 1) o) i = tick w o (S i).
Proof.
  unfold tick. revert Hshift. unfold shifted.
  induction o as [|[k v] o' IH]; intros Hs; [reflexivity|].
  assert (omap (carried w' i) (List.filter (outlasts w 1) o') = omap (carried w (S i)) o') as IH'.
  { apply IH. intros a Ha. apply Hs. unfold lists_of in *. cbn [omap list_omap].
    destruct v; cbn; auto. now right. }
  cbn [List.filter omap list_omap].
  destruct (isArray v) eqn:Hv.
  - destruct v; try discriminate.
    assert (array_at w' a = tail (array_at w a)) as Ha.
    { apply Hs. unfold lists_of. cbn. left. }
    unfold outlasts at 1, carried at 2. cbn [snd fst].
    destruct (array_at w a) as [|x [|y l]] eqn:El; cbn [length Nat.ltb Nat.leb lookup list_lookup].
    + cbn. exact IH'.
    + cbn. rewrite IH'. now destruct i.
    + cbn [omap list_omap]. unfold carried at 1. cbn [snd fst]. rewrite Ha. cbn [tail].
      cbn. rewrite IH'.
      destruct ((y :: l) !! i) eqn:Ei; [reflexivity|].
      destruct i; [discriminate|reflexivity].
  - assert (outlasts w 1 (k, v) = true) as -> by (now destruct v).
    cbn [omap list_omap].
    assert (forall j w0, carried w0 j (k, v) = Some (k, v)) as Hc by (intros; now destruct v).
    now rewrite !Hc, IH'.
Qed.

Lemma longest_shifted :
  longest w' (List.filter (outlasts w 1) o) = (longest w o - 1)%nat.
Proof.
  apply Nat.le_antisymm.
  - destruct (Nat.le_gt_cases (longest w' (List.filter (outlasts w 1) o)) (longest w o - 1)) as [|Hlt];
      [assumption|exfalso].
    apply Nat.ltb_lt in Hlt. rewrite longest_lt in Hlt.
    destruct (longest w o) as [|n] eqn:E.
    + cbn in Hlt. rewrite existsb_filter in Hlt.
      assert (existsb (pending w 1) o = true) as Habs.
      { rewrite <- Hlt. apply existsb_ext_in. intros kv Hin. unfold pending.
        rewrite outlasts_shifted by assumption.
        destruct (outlasts w 1 kv); [now rewrite andb_true_r|]. now rewrite !andb_false_r. }
      rewrite <- longest_lt, E in Habs. discriminate.
    + cbn in Hlt. rewrite Nat.sub_0_r in Hlt. destruct n as [|n].
      * rewrite existsb_filter in Hlt.
        assert (existsb (pending w 1) o = true) as Habs.
        { rewrite <- Hlt. apply existsb_ext_in. intros kv Hin. unfold pending.
          rewrite outlasts_shifted by assumption.
          destruct (outlasts w 1 kv); [now rewrite andb_true_r|]. now rewrite !andb_false_r. }
        rewrite <- longest_lt, E in Habs. discriminate.
      * rewrite pending_shifted, <- longest_lt, E in Hlt. apply Nat.ltb_lt in Hlt. lia.
  - destruct (longest w o) as [|[|n]] eqn:E; cbn; try lia.
    assert ((n <? longest w' (List.filter (outlasts w 1) o))%nat = true) as H;
      [|apply Nat.ltb_lt in H; lia].
    destruct n as [|n].
    + rewrite longest_lt, existsb_filter.
      assert (existsb (pending w 1) o = true) as H1.
      { rewrite <- longest_lt, E. reflexivity. }
      rewrite <- H1. apply existsb_ext_in. intros kv Hin. unfold pending.
      rewrite outlasts_shifted by assumption.
      destruct (outlasts w 1 kv); [now rewrite andb_true_r|]. now rewrite !andb_false_r.
    + rewrite longest_lt, pending_shifted, <- longest_lt, E. apply Nat.ltb_lt. lia.
Qed.

End Shift.

Lemma sublist_NoDup_lists (o o' : obj) : sublist o' o -> NoDup (lists_of o) -> NoDup (lists_of o').
Proof.
  intros Hsub Hnd. eapply sublist_NoDup; [exact Hnd|]. clear Hnd. unfold lists_of.
  induction Hsub as [|[k v] l1 l2 Hs IH|[k v] l1 l2 Hs IH]; cbn.
  - constructor.
  - destruct v; cbn; auto. now apply sublist_skip.
  - destruct v; cbn; auto. now apply sublist_cons.
Qed.

Lemma filter_sublist {A} (P : A -> bool) l : sublist (List.filter P l) l.
Proof.
  induction l as [|x l IH]; cbn; [constructor|].
  destruct (P x); [now apply sublist_skip|now apply sublist_cons].
Qed.

Lemma lists_of_filter (P : string * value -> bool) (o : obj) a :
  a ∈ lists_of (List.filter P o) -> a ∈ lists_of o.
Proof.
  unfold lists_of. intros Hin. apply list_elem_of_omap in Hin as (kv & Hkv & Ha).
  apply list_elem_of_omap. exists kv. split; [|assumption].
  apply list_elem_of_In in Hkv. apply List.filter_In in Hkv as [Hkv _]. now apply list_elem_of_In.
Qed.

Lemma drain_ticks fuel : forall w options,
  let o := odel "more" options in
  NoDup o.*1 -> NoDup (lists_of o) -> (longest w o <= fuel)%nat -> (1 <= fuel)%nat ->
  exists w',
    drain fuel options w
    = Ok ((fun i => (tick w o i, left_by w o i)) <$> seq 0 (Nat.max 1 (longest w o))) w'
    /\ only_arrays_differ w w'.
Proof.
  induction fuel as [|fuel IH]; intros w options o Hnd Hnda Hfuel Hpos; [lia|].
  destruct (processOptions_step w options Hnd Hnda) as (w1 & Hstep & Hdiff & Harr). fold o in Hstep, Harr.
  cbn [drain]. rewrite (bind_Ok _ _ _ _ _ Hstep).
  set (o1 := List.filter (outlasts w 1) o).
  assert ("more" ∉ o1.*1) as Hmore1.
  { intros Hin. apply (odel_keys "more" options). eapply filter_keys; eauto. }
  assert (oget "more" (o1 ++ flag w 1 o) = if existsb (pending w 1) o then VBool true else VUndef)
    as Hflag.
  { unfold flag, oget. destruct (existsb _ _).
    - rewrite <- (oset_fresh "more" (VBool true) o1) by assumption. now rewrite olookup_oset_eq.
    - rewrite app_nil_r. apply olookup_None in Hmore1. now rewrite Hmore1. }
  rewrite Hflag. rewrite <- longest_lt.
  assert (left_by w o 0 = o1 ++ flag w 1 o) as Hleft0.
  { unfold left_by, flag. now rewrite longest_lt. }
  destruct (Nat.ltb_spec 1 (longest w o)) as [Hlong|Hshort]; cbn [truthy].
  - (* lists remain *)
    assert (odel "more" (o1 ++ flag w 1 o) = o1) as Ho1.
    { rewrite odel_app, odel_absent by assumption. unfold flag.
      destruct (existsb _ _); cbn; now rewrite app_nil_r. }
    assert (shifted w w1 o) as Hshift.
    { intros a Ha. rewrite Harr. now rewrite decide_True. }
    destruct (IH w1 (o1 ++ flag w 1 o)) as (w' & Hrun & Hdiff').
    + rewrite Ho1. eapply sublist_NoDup; [exact Hnd|]. apply fmap_sublist, filter_sublist.
    + rewrite Ho1. eapply sublist_NoDup_lists; [|exact Hnda]. apply filter_sublist.
    + rewrite Ho1. unfold o1. rewrite (longest_shifted w w1 o Hshift). lia.
    + lia.
    + rewrite (bind_Ok _ _ _ _ _ Hrun). unfold ret. rewrite Ho1.
      exists w'. split; [|eapply only_arrays_differ_trans; eauto].
      f_equal. unfold o1. rewrite (longest_shifted w w1 o Hshift).
      replace (Nat.max 1 (longest w o)) with (S (longest w o - 1)) by lia.
      replace (Nat.max 1 (longest w o - 1)) with (longest w o - 1)%nat by lia.
      cbn [seq fmap list_fmap]. rewrite Hleft0. f_equal.
      rewrite <- fmap_S_seq, <- list_fmap_compose.
      apply list_fmap_ext. intros i j _. cbn.
      rewrite (tick_shifted w w1 o Hshift). f_equal.
      unfold left_by. rewrite (filter_shifted w w1 o Hshift).
      rewrite (longest_shifted w w1 o Hshift).
      f_equal. destruct (Nat.ltb_spec (S j) (longest w o - 1)), (Nat.ltb_spec (S (S j)) (longest w o));
        try reflexivity; lia.
  - (* the last tick *)
    unfold ret. exists w1. split; [|assumption].
    replace (Nat.max 1 (longest w o)) with 1%nat by lia. cbn. now rewrite Hleft0.
Qed.

Lemma carried_key w i kv kv' : carried w i kv = Some kv' -> kv'.1 = kv.1.
Proof.
  unfold carried. destruct kv as [k v]; cbn. destruct v; try (intros [= <-]; reflexivity).
  destruct (_ !! _); [intros [= <-]; reflexivity|].
  destruct (i =? 0)%nat; [intros [= <-]; reflexivity|discriminate].
Qed.

Lemma olookup_tick w (o : obj) i p v :
  NoDup o.*1 -> (p, v) ∈ o -> olookup p (tick w o i) = snd <$> carried w i (p, v).
Proof.
  unfold tick. induction o as [|[k x] o IH]; intros Hnd Hin; [now apply elem_of_nil in Hin|].
  rewrite fmap_cons in Hnd. apply NoDup_cons in Hnd as [Hk Hnd]. cbn [omap list_omap].
  apply elem_of_cons in Hin as [[= <- <-]|Hin].
  - destruct (carried w i (p, v)) as [[k' x']|] eqn:E; cbn.
    + apply carried_key in E as Hkey. cbn in Hkey. subst k'. now rewrite String.eqb_refl.
    + apply olookup_None. intros Hp. apply Hk. cbn. eapply tick_keys; eauto.
  - assert (p <> k) as Hne.
    { intros ->. apply Hk. apply list_elem_of_fmap. now exists (k, v). }
    destruct (carried w i (k, x)) as [[k' x']|] eqn:E; cbn; [|auto].
    apply carried_key in E. cbn in E. subst k'.
    destruct (String.eqb p k) eqn:E'; [apply String.eqb_eq in E'; congruence|auto].
Qed.

Lemma olookup_filter (P : string * value -> bool) (o : obj) p v :
  NoDup o.*1 -> (p, v) ∈ o ->
  olookup p (List.filter P o) = if P (p, v) then Some v else None.
Proof.
  induction o as [|[k x] o IH]; intros Hnd Hin; [now apply elem_of_nil in Hin|].
  rewrite fmap_cons in Hnd. apply NoDup_cons in Hnd as [Hk Hnd]. cbn [List.filter].
  apply elem_of_cons in Hin as [[= <- <-]|Hin].
  - destruct (P (p, v)); cbn; [now rewrite String.eqb_refl|].
    apply olookup_None. intros Hp. apply Hk. cbn. eapply filter_keys; eauto.
  - assert (p <> k) as Hne.
    { intros ->. apply Hk. apply list_elem_of_fmap. now exists (k, v). }
    destruct (P (k, x)); cbn; [|auto].
    destruct (String.eqb p k) eqn:E'; [apply String.eqb_eq in E'; contradiction|auto].
Qed.

Lemma olookup_app_l {V} p (o1 o2 : list (string * V)) :
  p ∉ o2.*1 -> olookup p (o1 ++ o2) = olookup p o1.
Proof.
  intros Hp. induction o1 as [|[k x] o1 IH]; cbn; [now apply olookup_None|].
  destruct (String.eqb p k); auto.
Qed.

Lemma olookup_app_r {V} p (o1 o2 : list (string * V)) :
  p ∉ o1.*1 -> olookup p (o1 ++ o2) = olookup p o2.
Proof.
  induction o1 as [|[k x] o1 IH]; cbn; intros Hp; [reflexivity|].
  apply not_elem_of_cons in Hp as [Hne Hp].
  destruct (String.eqb p k) eqn:E; [apply String.eqb_eq in E; congruence|auto].
Qed.

Lemma pending_exists w n (o : obj) :
  existsb (pending w n) o = true <->
  exists p a, (p, VArr a) ∈ o /\ (n < length (array_at w a))%nat.
Proof.
  rewrite existsb_exists. split.
  - intros ([p v] & Hin & Hp). unfold pending, outlasts in Hp. cbn in Hp.
    destruct v; try discriminate. cbn in Hp. apply Nat.ltb_lt in Hp.
    exists p, a. split; [now apply list_elem_of_In|assumption].
  - intros (p & a & Hin & Hlt). exists (p, VArr a). split; [now apply list_elem_of_In|].
    unfold pending, outlasts. cbn. now apply Nat.ltb_lt.
Qed.

(** C1, as the code has it.  A payload without a numeric [length], whose
    lists are different arrays, is
    drained in as many ticks as its longest list has elements (one tick
    when it has no list or only empty lists), so in exactly [L] ticks for a
    property whose list of [L >= 1] elements is a longest one.  Tick [i]
    carries element [i] of every list that has one and every scalar as it
    is; the payload that it leaves holds the scalars and the lists with
    more than [i + 1] elements, and the [more] flag exactly when there is
    such a list; the last tick leaves no [more] flag and no list, and the
    last tick that carries a property of a list carries the last element of
    the list. *)
Theorem drain_unfolds_lists fuel w options :
  let o := odel "more" options in
  let n := Nat.max 1 (longest w o) in
  numeric_length o = false ->
  NoDup o.*1 -> NoDup (lists_of o) -> (longest w o <= fuel)%nat -> (1 <= fuel)%nat ->
  exists ticks w',
    drain fuel options w = Ok ticks w' /\
    length ticks = n /\
    (forall p a L, (p, VArr a) ∈ o -> length (array_at w a) = L -> (L <= n)%nat /\
                   (L = longest w o -> (1 <= L)%nat -> n = L)) /\
    (forall i clone rest, ticks !! i = Some (clone, rest) ->
       (forall p v, (p, v) ∈ o -> isArray v = false ->
                    olookup p clone = Some v /\ olookup p rest = Some v) /\
       (forall p a, (p, VArr a) ∈ o ->
                    olookup p clone
                    = match array_at w a !! i with
                      | Some x => Some x
                      | None => if (i =? 0)%nat then Some VUndef else None
                      end /\
                    olookup p rest
                    = if (S i <? length (array_at w a))%nat then Some (VArr a) else None) /\
       (olookup "more" rest = Some (VBool true) <->
        exists p a, (p, VArr a) ∈ o /\ (S i < length (array_at w a))%nat) /\
       (olookup "more" rest = None \/ olookup "more" rest = Some (VBool true)) /\
       (S i = n -> olookup "more" rest = None /\ lists_of rest = [])) /\
    (forall p a x, (p, VArr a) ∈ o -> last (array_at w a) = Some x ->
       exists clone rest,
         ticks !! (length (array_at w a) - 1)%nat = Some (clone, rest) /\
         olookup p clone = Some x /\ olookup p rest = None).
Proof.
  intros o n _ Hnd Hnda Hfuel Hpos.
  destruct (drain_ticks fuel w options Hnd Hnda Hfuel Hpos) as (w' & Hrun & _).
  fold o in Hrun. fold n in Hrun.
  assert ("more" ∉ o.*1) as Hmore by apply odel_keys.
  assert (forall i clone rest,
            ((fun i => (tick w o i, left_by w o i)) <$> seq 0 n) !! i = Some (clone, rest) ->
            (i < n)%nat /\ clone = tick w o i /\ rest = left_by w o i) as Hat.
  { intros i clone rest Hi. rewrite list_lookup_fmap in Hi.
    destruct (seq 0 n !! i) as [j|] eqn:Ej; [|discriminate].
    apply lookup_seq in Ej as [-> Hlt]. cbn in Hi. injection Hi as <- <-. auto. }
  assert (forall p a, (p, VArr a) ∈ o -> (length (array_at w a) <= longest w o)%nat) as Hle.
  { intros p a Hin. destruct (Nat.le_gt_cases (length (array_at w a)) (longest w o)) as [|Hgt];
      [assumption|exfalso].
    assert (existsb (pending w (longest w o)) o = true) as Habs.
    { apply pending_exists. eauto. }
    rewrite <- longest_lt in Habs. apply Nat.ltb_lt in Habs. lia. }
  assert (forall i rest, rest = left_by w o i ->
            (olookup "more" rest = Some (VBool true) <->
             exists p a, (p, VArr a) ∈ o /\ (S i < length (array_at w a))%nat) /\
            (olookup "more" rest = None \/ olookup "more" rest = Some (VBool true))) as Hflag.
  { intros i rest ->. unfold left_by. rewrite olookup_app_r.
    2:{ intros Hin. apply Hmore. eapply filter_keys; eauto. }
    rewrite longest_lt. rewrite <- pending_exists.
    destruct (existsb (pending w (S i)) o); cbn; split; auto; split; auto; discriminate. }
  exists ((fun i => (tick w o i, left_by w o i)) <$> seq 0 n), w'.
  split; [exact Hrun|]. split; [now rewrite length_fmap, length_seq|]. split; [|split].
  - intros p a L Hin <-. specialize (Hle p a Hin). split; [lia|]. intros -> Hone. lia.
  - intros i clone rest Hi. apply Hat in Hi as (Hi & -> & ->).
    split; [|split; [|split; [|split]]].
    + intros p v Hin Hv. split.
      * rewrite (olookup_tick w o i p v) by assumption. now destruct v.
      * unfold left_by. rewrite olookup_app_l.
        -- rewrite (olookup_filter _ o p v) by assumption. now destruct v.
        -- assert (p <> "more") as Hne.
           { intros ->. apply Hmore. apply list_elem_of_fmap. now exists ("more", v). }
           destruct (_ <? _)%nat; cbn; [|apply not_elem_of_nil].
           intros Hp%list_elem_of_singleton. congruence.
    + intros p a Hin. split.
      * rewrite (olookup_tick w o i p (VArr a)) by assumption. unfold carried; cbn.
        destruct (_ !! _); [reflexivity|]. now destruct (i =? 0)%nat.
      * unfold left_by. rewrite olookup_app_l.
        -- now rewrite (olookup_filter _ o p (VArr a)) by assumption.
        -- assert (p <> "more") as Hne.
           { intros ->. apply Hmore. apply list_elem_of_fmap. now exists ("more", VArr a). }
           destruct (_ <? _)%nat; cbn; [|apply not_elem_of_nil].
           intros Hp%list_elem_of_singleton. congruence.
    + now apply Hflag.
    + now apply (Hflag i).
    + intros Hlast.
      assert ((S i <? longest w o)%nat = false) as Hdone by (apply Nat.ltb_ge; lia).
      split.
      * unfold left_by. rewrite Hdone, app_nil_r. apply olookup_None.
        intros Hin. apply Hmore. eapply filter_keys; eauto.
      * unfold left_by. rewrite Hdone, app_nil_r.
        destruct (lists_of (List.filter (outlasts w (S i)) o)) as [|a l] eqn:El; [reflexivity|].
        exfalso. assert (a ∈ lists_of (List.filter (outlasts w (S i)) o)) as Ha
          by (rewrite El; left).
        unfold lists_of in Ha. apply list_elem_of_omap in Ha as ([p v] & Hin & Hv).
        cbn in Hv. destruct v; try discriminate. injection Hv as ->.
        apply list_elem_of_In, List.filter_In in Hin as [Hin Hout].
        unfold outlasts in Hout. cbn [snd] in Hout. apply Nat.ltb_lt in Hout.
        apply list_elem_of_In in Hin. specialize (Hle p a Hin). lia.
  - intros p a x Hin Hlast.
    assert (1 <= length (array_at w a))%nat as Hone.
    { destruct (array_at w a); [discriminate|cbn; lia]. }
    specialize (Hle p a Hin).
    exists (tick w o (length (array_at w a) - 1)), (left_by w o (length (array_at w a) - 1)).
    split; [|split].
    + rewrite list_lookup_fmap, lookup_seq_lt by lia. reflexivity.
    + rewrite (olookup_tick w o _ p (VArr a)) by assumption. unfold carried; cbn.
      rewrite last_lookup in Hlast.
      replace (length (array_at w a) - 1)%nat with (pred (length (array_at w a))) by lia.
      now rewrite Hlast.
    + unfold left_by. rewrite olookup_app_l.
      * rewrite (olookup_filter _ o p (VArr a)) by assumption. unfold outlasts; cbn [snd].
        destruct (Nat.ltb_spec (S (length (array_at w a) - 1)) (length (array_at w a)));
          [lia|reflexivity].
      * assert (p <> "more") as Hne.
        { intros ->. apply Hmore. apply list_elem_of_fmap. now exists ("more", VArr a). }
        destruct (_ <? _)%nat; cbn; [|apply not_elem_of_nil].
        intros Hp%list_elem_of_singleton. congruence.
Qed.

(** ** Computations: inversion *)

Lemma bind_Ok_inv {A B} (m : M A) (k : A -> M B) w b w' :
  bind m k w = Ok b w' -> exists a w1, m w = Ok a w1 /\ k a w1 = Ok b w'.
Proof.
  unfold bind. destruct (m w) as [a w1|e w1|]; [eauto|discriminate|discriminate].
Qed.

Lemma when_Ok_inv b (m : M unit) w u w' :
  when b m w = Ok u w' -> (b = true /\ m w = Ok u w') \/ (b = false /\ w' = w).
Proof.
  destruct b; cbn; [now left|]. unfold ret. intros [= <- <-]. now right.
Qed.

Lemma own_get_Ok_inv e k w v w' :
  own_get e k w = Ok v w' -> w' = w /\ exists el, elements w !! e = Some el /\ v = oget k (own el).
Proof.
  unfold own_get, bind, get_element, ret. destruct (elements w !! e) as [el|]; [|discriminate].
  intros [= <- <-]. eauto.
Qed.

Lemma own_set_Ok_inv e k v w u w' :
  own_set e k v w = Ok u w' ->
  exists el, elements w !! e = Some el /\
    w' = set_elements <[e := mkElement (proto el) (states el) (oset k v (own el))]> w.
Proof.
  unfold own_set, update_element, bind, get_element, modify.
  destruct (elements w !! e) as [el|]; [|discriminate]. intros [= <-]. eauto.
Qed.

(** ** [destroy]: the second call is refused *)

Lemma destroy_destroyed fuel this w el :
  elements w !! this = Some el -> truthy (oget "destroyed" (own el)) = true ->
  Element_destroy (S fuel) this w = Throw "Destroy already called in Element::destroy" w.
Proof.
  intros Hel Hd. cbn [Element_destroy].
  rewrite (bind_Ok _ _ _ _ _ (own_get_Ok _ _ _ _ Hel)). now rewrite Hd.
Qed.

(** C9, as the code has it.  [destroy] on a node whose [destroyed] flag is
    set raises the usage error and leaves everything as it was; a [destroy]
    that returns has found the flag unset and has set it, so that every
    further call raises the usage error. *)
Theorem destroy_refuses_second_call (fuel : nat) (this : loc) (w : World) (el : Element) :
  elements w !! this = Some el ->
  (truthy (oget "destroyed" (own el)) = true ->
   Element_destroy (S fuel) this w = Throw "Destroy already called in Element::destroy" w) /\
  (forall w', Element_destroy (S fuel) this w = Ok tt w' ->
     truthy (oget "destroyed" (own el)) = false /\
     exists el', elements w' !! this = Some el' /\
       oget "destroyed" (own el') = VBool true /\
       forall fuel', Element_destroy (S fuel') this w'
                     = Throw "Destroy already called in Element::destroy" w').
Proof.
  intros Hel. split; [now apply destroy_destroyed|].
  intros w' Hrun.
  destruct (truthy (oget "destroyed" (own el))) eqn:Hd.
  { rewrite (destroy_destroyed _ _ _ _ Hel Hd) in Hrun. discriminate. }
  split; [reflexivity|].
  cbn [Element_destroy] in Hrun.
  rewrite (bind_Ok _ _ _ _ _ (own_get_Ok _ _ _ _ Hel)), Hd in Hrun.
  do 2 (apply bind_Ok_inv in Hrun as (? & ? & _ & Hrun)).
  unfold destroy_self in Hrun.
  repeat (apply bind_Ok_inv in Hrun as (? & ? & _ & Hrun)).
  destruct (negb (truthy _)); [discriminate|].
  apply bind_Ok_inv in Hrun as (? & w1 & _ & Hrun).
  apply own_set_Ok_inv in Hrun as (el1 & Hel1 & ->).
  eexists. cbn. rewrite lookup_insert_eq. split; [reflexivity|]. cbn.
  split; [apply oget_oset_eq|]. intros fuel'.
  eapply destroy_destroyed; [cbn; apply lookup_insert_eq|]. cbn. now rewrite oget_oset_eq.
Qed.

(** ** [set]: a call that changes nothing records nothing *)

Lemma bind_assoc {A B C} (m : M A) (k1 : A -> M B) (k2 : B -> M C) w :
  bind (bind m k1) k2 w = bind m (fun a => bind (k1 a) k2) w.
Proof. unfold bind. now destruct (m w). Qed.

Lemma bind_ret {A B} (a : A) (k : A -> M B) w : bind (ret a) k w = k a w.
Proof. reflexivity. Qed.

Lemma bind_read_array {B} a (k : list value -> M B) w :
  bind (read_array a) k w = k (array_at w a) w.
Proof. reflexivity. Qed.

Lemma bind_modify {B} f (k : unit -> M B) w : bind (modify f) k w = k tt (f w).
Proof. reflexivity. Qed.

Lemma bind_get_element {B} e el (k : Element -> M B) w :
  elements w !! e = Some el -> bind (get_element e) k w = k el w.
Proof. intros H. unfold bind, get_element. now rewrite H. Qed.
















Lemma not_reserved k :
  k ∉ reserved ->
  String.eqb k "parent" = false /\ String.eqb k "states" = false /\
  String.eqb k "state" = false /\ String.eqb k "shape" = false.
Proof.
  unfold reserved. rewrite !not_elem_of_cons. intros (H1 & H2 & H3 & H4 & _).
  repeat split; now apply String.eqb_neq.
Qed.

(** A plain write counts as a change, and is made, only if the value
    differs from the current one. *)
Lemma set_entry_plain self this w el changes k v :
  elements w !! this = Some el -> k ∉ reserved ->
  set_entry self this changes (k, v) w
  = if strict_eq (oget k (own el)) v then Ok changes w
    else Ok (S changes)
            (set_elements <[this := mkElement (proto el) (states el) (oset k v (own el))]> w).
Proof.
  intros Hel Hk. apply not_reserved in Hk as (H1 & H2 & H3 & H4).
  unfold set_entry. rewrite H1, H2, H3, H4.
  rewrite (bind_Ok _ _ _ _ _ (own_get_Ok _ _ _ _ Hel)).
  destruct (strict_eq _ _); cbn [negb]; [reflexivity|].
  unfold own_set, update_element, bind, get_element, modify, ret. now rewrite Hel.
Qed.




(** ** [set]: a node without a parent is attached to the root *)

Lemma set_elements_same w e el :
  elements w !! e = Some el -> set_elements <[e := el]> w = w.
Proof. intros H. destruct w; unfold set_elements; cbn in *. f_equal. now apply insert_id. Qed.

Lemma set_elements_twice w f g :
  set_elements f (set_elements g w) = set_elements (fun m => f (g m)) w.
Proof. reflexivity. Qed.

(** The loop of [set] over plain entries writes them to the own properties
    of the node and touches nothing else. *)
Lemma set_entries_plain self this opts : forall w el changes,
  elements w !! this = Some el ->
  Forall (fun kv : string * value => kv.1 ∉ reserved) opts ->
  exists changes',
    foldM (set_entry self this) opts changes w
    = Ok changes'
         (set_elements
            <[this := mkElement (proto el) (states el) (fold_left write_plain opts (own el))]> w).
Proof.
  induction opts as [|[k v] opts IH]; intros w el changes Hel Hall.
  - exists changes. cbn. unfold ret. f_equal. symmetry. destruct el. now apply set_elements_same.
  - apply Forall_cons in Hall as [Hk Hall]. cbn [fst] in Hk. cbn [foldM fold_left].
    rewrite (bind_Ok _ _ _ _ _ (set_entry_plain self this w el changes k v Hel Hk)) || idtac.
    pose proof (set_entry_plain self this w el changes k v Hel Hk) as Hentry.
    unfold write_plain at 2. cbn [fst snd].
    destruct (strict_eq (oget k (own el)) v).
    + rewrite (bind_Ok _ _ _ _ _ Hentry). now apply IH.
    + rewrite (bind_Ok _ _ _ _ _ Hentry).
      destruct (IH (set_elements <[this := mkElement (proto el) (states el) (oset k v (own el))]> w)
                   (mkElement (proto el) (states el) (oset k v (own el))) (S changes))
        as (changes' & Hrun); [cbn; apply lookup_insert_eq|assumption|].
      exists changes'. rewrite Hrun. cbn [proto states own]. f_equal.
      rewrite set_elements_twice. unfold set_elements. f_equal. cbn. apply insert_insert_eq.
Qed.



Lemma indexOf_elem v l : is_Some (indexOf v l) -> v ∈ l.
Proof.
  induction l as [|x l IH]; cbn; [intros [? [=]]|].
  destruct (strict_eq x v) eqn:E; [apply strict_eq_eq in E as ->; left|].
  intros [i Hi]. right. apply IH. destruct (indexOf v l); [eauto|discriminate].
Qed.


(** ** The tick protocol on the two-colour example *)

(** C2 (as amended).  The worker constructs the surface with its root, the
    algorithm adds a child with [fill: [RED, BLUE]] and yields.  The first
    Pause batch then holds two Update commands, the root's and the child's;
    the transmitted child command carries [fill = RED] and no [more] key,
    the flag [more = true] is raised on the payload that the worker
    retains, whose list is left with [BLUE].  The first acknowledge posts a
    second Pause batch (with [autoskip]) that holds the child's command
    only, with [fill = BLUE]; neither it nor the retained payload has a
    [more] key.  The second acknowledge resumes the algorithm. *)
Theorem two_colours_end_to_end (red blue : string) (yielded : value) (rest : generator) :
  let RED := VConst red in
  let BLUE := VConst blue in
  exists app1 w1 app2 w2 a,
    WorkerApp_ctor 4 (example 4 RED BLUE yielded rest) empty_world = Ok app1 w1 /\
    posted w1 = [M_Initialize_ACK;
                 M_Pause [mkCommand UPDATE_COMMAND root_payload;
                          mkCommand UPDATE_COMMAND (child_payload [("fill", RED)])] yielded] /\
    currentCommands app1 = [mkCommand UPDATE_COMMAND root_payload;
                            mkCommand UPDATE_COMMAND
                              (child_payload [("fill", VArr a)] ++ [("more", VBool true)])] /\
    array_at w1 a = [BLUE] /\
    WorkerApp_pauseOrContinue app1 w1 = Ok app2 w2 /\
    posted w2 = posted w1 ++ [M_Pause [mkCommand UPDATE_COMMAND (child_payload [("fill", BLUE)])]
                                      (VObj [("autoskip", VBool true)])] /\
    currentCommands app2 = [mkCommand UPDATE_COMMAND root_payload;
                            mkCommand UPDATE_COMMAND (child_payload [])] /\
    userAlgorithm app2 = rest /\
    WorkerApp_pauseOrContinue app2 w2 = WorkerApp_continue app2 w2.
Proof.
  intros RED BLUE. destruct rest as [ys fin].
  eexists _, _, _, _, _.
  split; [vm_compute; reflexivity|].
  split; [reflexivity|]. split; [reflexivity|]. split; [vm_compute; reflexivity|].
  split; [vm_compute; reflexivity|].
  split; [reflexivity|]. split; [reflexivity|]. split; [reflexivity|].
  reflexivity.
Qed.

(** ** [setState] of an array of names *)




















(** ** [executeCommandHistory]: seeking forward *)

Lemma foldM_app {A St} (f : St -> A -> M St) l1 l2 : forall s w,
  foldM f (l1 ++ l2) s w = bind (foldM f l1 s) (foldM f l2) w.
Proof.
  induction l1 as [|x l1 IH]; intros s w; [reflexivity|].
  cbn [foldM app]. unfold bind. destruct (f s x w); auto.
Qed.

Lemma bind_Diverge {A B} (m : M A) (k : A -> M B) w :
  m w = Diverge -> bind m k w = Diverge.
Proof. intros H. unfold bind. now rewrite H. Qed.

(** Replaying [a, c) is replaying [a, b) and then [b, c). *)
Lemma playHistory_split {B} fuel h (a b c : Z) (k : list (list command) -> M B) w :
  (a <= b <= c)%Z ->
  bind (Surface_playHistory fuel h (Some a) c) k w
  = bind (Surface_playHistory fuel h (Some a) b)
         (fun h' => bind (Surface_playHistory fuel h' (Some b) c) k) w.
Proof.
  intros Hle. rewrite <- bind_assoc. unfold bind at 1 3. f_equal.
  unfold Surface_playHistory.
  replace (c - a)%Z with ((b - a) + (c - b))%Z by lia.
  rewrite seqZ_app by lia. rewrite foldM_app.
  now replace (a + (b - a))%Z with b by lia.
Qed.

(** C4.  After a seek to [c] that starts over from the empty surface, the
    seeks to [f1] and then to [f2], with [c <= f1 <= f2], continue on the
    surface as it is, and the three seeks together end exactly as the
    replay of the frames [0, f2) of the history on the reset surface does:
    with the same outcome, the same store of elements and the same
    history. *)
Theorem seek_forward_twice fuel r c f1 f2 w :
  starts_over r c = true -> (0 <= c <= f1)%Z -> (f1 <= f2)%Z ->
  (let* r0 := Surface_executeCommandHistory fuel r c in
   let* r1 := Surface_executeCommandHistory fuel r0 f1 in
   Surface_executeCommandHistory fuel r1 f2) w
  = (let* h := replay_from_empty fuel (commandsHistory r) f2 in
     ret (mkReplay h (Some f2))) w.
Proof.
  intros Hover Hc Hf. unfold starts_over in Hover.
  assert (forall h a b, (0 <= a <= b)%Z ->
            Surface_executeCommandHistory fuel (mkReplay h (Some a)) b
            = let* h' := Surface_playHistory fuel h (Some a) b in ret (mkReplay h' (Some b)))
    as Hforward.
  { intros h a b Hab. unfold Surface_executeCommandHistory. cbn [historyFrame commandsHistory].
    replace (a =? -1)%Z with false by (symmetry; apply Z.eqb_neq; lia).
    replace (b <? a)%Z with false by (symmetry; apply Z.ltb_ge; lia).
    reflexivity. }
  unfold Surface_executeCommandHistory at 1. rewrite Hover.
  unfold replay_from_empty. rewrite !bind_assoc.
  destruct (Surface_resetElements w) as [[] w0|e w0|] eqn:Hreset.
  2:{ now rewrite !(bind_Throw _ _ _ _ _ Hreset). }
  2:{ now rewrite !(bind_Diverge _ _ _ Hreset). }
  rewrite !(bind_Ok _ _ _ _ _ Hreset).
  rewrite (playHistory_split fuel _ 0 c f2) by lia.
  destruct (Surface_playHistory fuel (commandsHistory r) (Some 0%Z) c w0) as [h1 w1|e w1|] eqn:Hplay1.
  2:{ now rewrite !(bind_Throw _ _ _ _ _ Hplay1). }
  2:{ now rewrite !(bind_Diverge _ _ _ Hplay1). }
  rewrite !(bind_Ok _ _ _ _ _ Hplay1).
  rewrite bind_ret, Hforward by lia. rewrite bind_assoc.
  rewrite (playHistory_split fuel _ c f1 f2) by lia.
  destruct (Surface_playHistory fuel h1 (Some c) f1 w1) as [h2 w2|e w2|] eqn:Hplay2.
  2:{ now rewrite !(bind_Throw _ _ _ _ _ Hplay2). }
  2:{ now rewrite !(bind_Diverge _ _ _ Hplay2). }
  rewrite !(bind_Ok _ _ _ _ _ Hplay2).
  rewrite bind_ret, Hforward by lia. reflexivity.
Qed.

(** ** [destroy]: children first *)

Lemma oget_odel_ne k k' o : k <> k' -> oget k' (odel k o) = oget k' o.
Proof. intros. unfold oget. now rewrite olookup_odel_ne. Qed.

Lemma own_del_Ok w e el k :
  elements w !! e = Some el ->
  own_del e k w
  = Ok tt (set_elements <[e := mkElement (proto el) (states el) (odel k (own el))]> w).
Proof. intros H. unfold own_del, update_element. now rewrite (bind_get_element _ _ _ _ H). Qed.

Lemma own_set_Ok w e el k v :
  elements w !! e = Some el ->
  own_set e k v w
  = Ok tt (set_elements <[e := mkElement (proto el) (states el) (oset k v (own el))]> w).
Proof. intros H. unfold own_set, update_element. now rewrite (bind_get_element _ _ _ _ H). Qed.

Lemma set_commands_same s : set_commands (commands s ++ []) s = s.
Proof. destruct s. unfold set_commands. cbn. now rewrite app_nil_r. Qed.

(** The node itself is destroyed: it leaves its parent, is recorded as
    destroyed, is forgotten by the registry and is flagged. *)
Lemma destroy_self_ok e el parent w s id :
  elements w !! e = Some el -> oget "parent" (own el) = parent -> oget "id" (own el) = id ->
  SURFACE w = Some s -> is_Some (Element_map w !! to_key id) ->
  (truthy parent = false \/
   exists p gp, parent = VElem p /\ p <> e /\ parent_group w parent = Some gp) ->
  exists w',
    destroy_self e w = Ok tt w' /\
    (forall x, x <> e -> elements w' !! x = elements w !! x) /\
    (exists el', elements w' !! e = Some el' /\ oget "destroyed" (own el') = VBool true) /\
    (forall x, parent_group w parent <> Some x -> arrays w' !! x = arrays w !! x) /\
    (forall k, k <> to_key id -> Element_map w' !! k = Element_map w !! k) /\
    SURFACE w' = Some (set_commands
                         (commands s ++ recorded s [mkCommand DESTROY_COMMAND [("id", id)]]) s).
Proof.
  intros Hel Hparent Hid Hs [m Hm] Hout.
  assert (exists w1 el1,
            when (truthy parent) (on_element parent (fun p => Element_removeChild p e)) w = Ok tt w1 /\
            elements w1 = <[e := el1]> (elements w) /\ oget "id" (own el1) = id /\
            (forall x, parent_group w parent <> Some x -> arrays w1 !! x = arrays w !! x) /\
            Element_map w1 = Element_map w /\ SURFACE w1 = SURFACE w)
    as (w1 & el1 & Hrun1 & Helems1 & Hid1 & Harr1 & Hmap1 & Hs1).
  { destruct Hout as [Hfalse|(p & gp & -> & Hne & Hgp)].
    - rewrite Hfalse. exists w, el. split; [reflexivity|].
      split; [symmetry; now apply insert_id|auto].
    - cbn [truthy when on_element]. cbn [parent_group] in Hgp.
      destruct (elements w !! p) as [pel|] eqn:Hpel; [|discriminate].
      destruct (oget "children" (own pel)) eqn:Hc; try discriminate. injection Hgp as ->.
      assert (exists wa, ElementGroup_remove gp (VElem e) w = Ok tt wa /\
                         elements wa = elements w /\ Element_map wa = Element_map w /\
                         SURFACE wa = SURFACE w /\
                         forall x, x <> gp -> arrays wa !! x = arrays w !! x)
        as (wa & Hrem & Hea & Hma & Hsa & Haa).
      { unfold ElementGroup_remove. rewrite bind_read_array.
        destruct (indexOf (VElem e) (array_at w gp)).
        - eexists. split; [reflexivity|]. repeat split; auto.
          intros x Hx. cbn. now rewrite lookup_insert_ne.
        - exists w. split; [reflexivity|]. auto. }
      assert (elements wa !! e = Some el) as Hela by now rewrite Hea.
      eexists _, _. split.
      { unfold Element_removeChild, children_of.
        rewrite !bind_assoc, (bind_Ok _ _ _ _ _ (own_get_Ok _ _ _ _ Hpel)), Hc.
        rewrite bind_ret, (bind_Ok _ _ _ _ _ Hrem).
        rewrite (bind_Ok _ _ _ _ _ (own_del_Ok _ _ _ _ Hela)).
        apply own_del_Ok. cbn. apply lookup_insert_eq. }
      cbn [elements set_elements own arrays Element_map SURFACE].
      rewrite insert_insert_eq, Hea. split; [reflexivity|].
      split; [cbn [own]; now rewrite !oget_odel_ne by discriminate|].
      split; [|auto]. intros x Hx. apply Haa. intros ->. apply Hx.
      cbn [parent_group]. now rewrite Hpel, Hc. }
  assert (elements w1 !! e = Some el1) as Hel1 by (rewrite Helems1; apply lookup_insert_eq).
  assert (exists w2 el2,
            when (truthy (oget "dom" (own el1))) (own_del e "dom") w1 = Ok tt w2 /\
            elements w2 = <[e := el2]> (elements w) /\ oget "id" (own el2) = id /\
            arrays w2 = arrays w1 /\ Element_map w2 = Element_map w /\ SURFACE w2 = SURFACE w)
    as (w2 & el2 & Hrun2 & Helems2 & Hid2 & Harr2 & Hmap2 & Hs2).
  { destruct (truthy (oget "dom" (own el1))); cbn [when].
    - eexists _, _. split; [apply own_del_Ok; exact Hel1|].
      cbn [elements set_elements own arrays Element_map SURFACE].
      rewrite Helems1, insert_insert_eq. split; [reflexivity|].
      split; [cbn [own]; now rewrite oget_odel_ne by discriminate|auto].
    - exists w1, el1. split; [reflexivity|]. auto. }
  assert (elements w2 !! e = Some el2) as Hel2 by (rewrite Helems2; apply lookup_insert_eq).
  assert (exists w3,
            Surface_elementDestroyed e w2 = Ok tt w3 /\
            elements w3 = elements w2 /\ arrays w3 = arrays w2 /\ Element_map w3 = Element_map w2 /\
            SURFACE w3 = Some (set_commands
                                 (commands s ++ recorded s [mkCommand DESTROY_COMMAND [("id", id)]]) s))
    as (w3 & Hrun3 & Helems3 & Harr3 & Hmap3 & Hs3).
  { unfold Surface_elementDestroyed, Surface_addCommand.
    assert (SURFACE w2 = Some s) as Hs2' by congruence.
    rewrite (bind_Ok _ _ _ _ _ (the_surface_Ok _ _ Hs2')).
    unfold isDOM, recorded. destruct (location s) eqn:Hloc.
    - cbn [oget olookup default truthy omit]. rewrite bind_ret.
      rewrite (bind_Ok _ _ _ _ _ (own_get_Ok _ _ _ _ Hel2)), Hid2.
      cbn [String.eqb Ascii.eqb Bool.eqb UPDATE_COMMAND DESTROY_COMMAND].
      unfold update_surface. rewrite (bind_Ok _ _ _ _ _ (the_surface_Ok _ _ Hs2')).
      eexists. split; [reflexivity|]. cbn. repeat split; auto.
    - exists w2. split; [reflexivity|]. repeat split; auto.
      now rewrite set_commands_same. }
  assert (elements w3 !! e = Some el2) as Hel3 by now rewrite Helems3.
  unfold destroy_self.
  rewrite (bind_Ok _ _ _ _ _ (own_get_Ok _ _ _ _ Hel)), Hparent.
  rewrite (bind_Ok _ _ _ _ _ Hrun1).
  rewrite (bind_Ok _ _ _ _ _ (own_get_Ok _ _ _ _ Hel1)).
  rewrite (bind_Ok _ _ _ _ _ Hrun2).
  rewrite (bind_Ok _ _ _ _ _ Hrun3).
  rewrite (bind_Ok _ _ _ _ _ (own_get_Ok _ _ _ _ Hel3)), Hid2.
  assert (Element_findElement id w3 = Ok (VElem m) w3) as Hfind.
  { unfold Element_findElement. now rewrite Hmap3, Hmap2, Hm. }
  rewrite (bind_Ok _ _ _ _ _ Hfind). cbn [truthy negb].
  rewrite bind_modify.
  eexists. split; [apply own_set_Ok; exact Hel3|].
  cbn. rewrite Helems3, Helems2. repeat split.
  - intros x Hx. now rewrite !lookup_insert_ne by congruence.
  - eexists. split; [apply lookup_insert_eq|]. cbn. apply oget_oset_eq.
  - intros x Hx. rewrite Harr3, Harr2. now apply Harr1.
  - intros k Hk. rewrite lookup_delete_ne by congruence. now rewrite Hmap3, Hmap2.
  - exact Hs3.
Qed.

Fixpoint tree_induction (P : tree -> Prop)
    (H : forall e g id kids, Forall P kids -> P (Node e g id kids)) (t : tree) : P t :=
  match t with
  | Node e g id kids =>
      H e g id kids
        ((fix go (ks : list tree) : Forall P ks :=
            match ks with
            | [] => @List.Forall_nil tree P
            | k :: ks' => @List.Forall_cons tree P k ks' (tree_induction P H k) (go ks')
            end) kids)
  end.

Lemma elem_flat_map {A B} (f : A -> list B) (l : list A) (x : B) (k : A) :
  k ∈ l -> x ∈ f k -> x ∈ flat_map f l.
Proof.
  intros Hk Hx. apply list_elem_of_In, in_flat_map. exists k.
  split; now apply list_elem_of_In.
Qed.

Lemma shape_kids w e kids :
  fold_right (fun k rest => shape w (VElem e) k /\ rest) True kids
  <-> Forall (shape w (VElem e)) kids.
Proof.
  induction kids as [|k kids IH]; cbn [fold_right].
  - split; [constructor|trivial].
  - rewrite IH, Forall_cons. tauto.
Qed.

(** The shape of a subtree depends on its own elements, lists and keys. *)
Lemma shape_frame w w' : forall t parent,
  (forall x, x ∈ nodes t -> elements w' !! x = elements w !! x) ->
  (forall x, x ∈ groups t -> arrays w' !! x = arrays w !! x) ->
  (forall k, k ∈ keys t -> Element_map w' !! k = Element_map w !! k) ->
  shape w parent t -> shape w' parent t.
Proof.
  induction t as [e g id kids IH] using tree_induction.
  intros parent He Hg Hk (Hel & Hm & Harr & Hkids). cbn [shape nodes groups keys] in *.
  split; [|split; [|split]].
  - rewrite He; [assumption|]. apply elem_of_app. right. left.
  - rewrite Hk; [assumption|]. apply elem_of_app. right. left.
  - unfold array_at in *. rewrite Hg; [assumption|]. apply elem_of_app. right. left.
  - apply shape_kids. apply shape_kids in Hkids.
    rewrite Forall_forall in IH, Hkids. apply Forall_forall. intros k Hin.
    apply IH; [assumption| | | |auto].
    + intros x Hx. apply He, elem_of_app. left. eapply elem_flat_map; eauto.
    + intros x Hx. apply Hg, elem_of_app. left. eapply elem_flat_map; eauto.
    + intros x Hx. apply Hk, elem_of_app. left. eapply elem_flat_map; eauto.
Qed.

Lemma set_commands_twice s c1 c2 :
  set_commands (commands (set_commands (commands s ++ c1) s) ++ c2) (set_commands (commands s ++ c1) s)
  = set_commands (commands s ++ c1 ++ c2) s.
Proof. unfold set_commands. cbn. now rewrite app_assoc. Qed.

Lemma recorded_app s c1 c2 : recorded s (c1 ++ c2) = recorded s c1 ++ recorded s c2.
Proof. unfold recorded. now destruct (location s). Qed.

Lemma destroyed_from_trans w s parent n1 g1 k1 c1 w1 n2 g2 k2 c2 w2 :
  destroyed_from w s parent n1 g1 k1 c1 w1 ->
  destroyed_from w1 (set_commands (commands s ++ recorded s c1) s) parent n2 g2 k2 c2 w2 ->
  parent_group w1 parent = parent_group w parent ->
  (forall x, x ∈ n1 -> x ∉ n2) ->
  destroyed_from w s parent (n1 ++ n2) (g1 ++ g2) (k1 ++ k2) (c1 ++ c2) w2.
Proof.
  intros [He1 Hf1 Ha1 Hm1 Hs1] [He2 Hf2 Ha2 Hm2 Hs2] Hpg Hdisj. split.
  - intros x Hx. apply not_elem_of_app in Hx as [Hx1 Hx2]. now rewrite He2, He1.
  - intros x Hx. apply elem_of_app in Hx as [Hx|Hx]; [|auto].
    rewrite He2 by auto. auto.
  - intros x Hx Hp. apply not_elem_of_app in Hx as [Hx1 Hx2].
    rewrite Ha2, Ha1; auto. now rewrite Hpg.
  - intros k Hk. apply not_elem_of_app in Hk as [Hk1 Hk2]. now rewrite Hm2, Hm1.
  - rewrite Hs2. f_equal. rewrite recorded_app.
    replace (recorded (set_commands (commands s ++ recorded s c1) s) c2) with (recorded s c2)
      by reflexivity.
    apply set_commands_twice.
Qed.

(** The children of a node are destroyed one after the other. *)
Lemma destroy_kids fuel e g :
  destroys_trees fuel ->
  forall kids w s,
    Forall (fun k => depth k <= fuel)%nat kids -> SURFACE w = Some s ->
    Forall (shape w (VElem e)) kids ->
    NoDup (flat_map nodes kids) -> NoDup (flat_map groups kids) -> NoDup (flat_map keys kids) ->
    e ∉ flat_map nodes kids -> g ∉ flat_map groups kids ->
    parent_group w (VElem e) = Some g ->
    exists w',
      forM (map (fun k => VElem (root_of k)) kids)
           (fun v => match v with
                     | VElem r => Element_destroy fuel r
                     | _ => throw TypeError
                     end) w = Ok tt w' /\
      destroyed_from w s (VElem e) (flat_map nodes kids) (flat_map groups kids)
                     (flat_map keys kids) (flat_map destroys kids) w'.
Proof.
  intros IHfuel. induction kids as [|k kids IH]; intros w s Hdepth Hs Hshape Hn Hg Hk He Hge Hpg.
  - exists w. split; [reflexivity|]. split; auto.
    + intros x Hx. now apply elem_of_nil in Hx.
    + cbn. rewrite Hs. f_equal. symmetry. unfold recorded.
      destruct (location s); apply set_commands_same.
  - cbn [flat_map] in *.
    apply Forall_cons in Hdepth as [Hdk Hdepth]. apply Forall_cons in Hshape as [Hsk Hshape].
    apply NoDup_app in Hn as (Hn1 & Hn12 & Hn2). apply NoDup_app in Hg as (Hg1 & Hg12 & Hg2).
    apply NoDup_app in Hk as (Hk1 & Hk12 & Hk2).
    apply not_elem_of_app in He as [He1 He2]. apply not_elem_of_app in Hge as [Hge1 Hge2].
    destruct (IHfuel k (VElem e) w s Hdk Hs Hsk Hn1 Hg1 Hk1) as (w1 & Hrun1 & Hpost1).
    { right. exists e, g. auto. }
    pose proof Hpost1 as [He1' Hf1' Ha1' Hm1' Hs1'].
    assert (parent_group w1 (VElem e) = Some g) as Hpg1.
    { cbn [parent_group] in *. now rewrite He1'. }
    destruct (IH w1 _ Hdepth Hs1') as (w2 & Hrun2 & Hpost2); auto.
    { apply Forall_forall. intros t Hin. rewrite Forall_forall in Hshape.
      eapply shape_frame; [| | |exact (Hshape _ Hin)].
      - intros x Hx. apply He1'. intros Hx'.
        exact (Hn12 _ Hx' (elem_flat_map _ _ _ _ Hin Hx)).
      - intros x Hx. pose proof (elem_flat_map _ _ _ _ Hin Hx) as Hx2. apply Ha1'.
        + intros Hx'. exact (Hg12 _ Hx' Hx2).
        + rewrite Hpg. intros [= ->]. apply Hge2. assumption.
      - intros x Hx. apply Hm1'. intros Hx'.
        exact (Hk12 _ Hx' (elem_flat_map _ _ _ _ Hin Hx)). }
    exists w2. split.
    + unfold forM in *. cbn [map foldM root_of]. now rewrite (bind_Ok _ _ _ _ _ Hrun1).
    + eapply destroyed_from_trans; eauto. congruence.
Qed.

Lemma destroys_all_trees : forall fuel, destroys_trees fuel.
Proof.
  induction fuel as [|fuel IHfuel]; intros t parent w s Hd Hs Hshape Hn Hg Hk Hout.
  { destruct t. cbn in Hd. lia. }
  destruct t as [e g id kids]. cbn [shape nodes groups keys destroys depth root_of] in *.
  destruct Hshape as ((el & Hel & Hnd & Hc & Hid & Hp) & Hm & Harr & Hkids).
  apply shape_kids in Hkids.
  apply NoDup_app in Hn as (Hn1 & Hn12 & _). apply NoDup_app in Hg as (Hg1 & Hg12 & _).
  apply NoDup_app in Hk as (Hk1 & Hk12 & _).
  assert (e ∉ flat_map nodes kids) as He by (intros Hin; apply (Hn12 _ Hin); left).
  assert (g ∉ flat_map groups kids) as Hge by (intros Hin; apply (Hg12 _ Hin); left).
  assert (to_key id ∉ flat_map keys kids) as Hke by (intros Hin; apply (Hk12 _ Hin); left).
  assert (parent_group w (VElem e) = Some g) as Hpg by (cbn; now rewrite Hel, Hc).
  destruct (destroy_kids fuel e g IHfuel kids w s) as (w1 & Hrun1 & [He1 Hf1 Ha1 Hm1 Hs1]); auto.
  { apply Forall_forall. intros k Hin.
    assert (depth k <= list_max (map depth kids))%nat; [|lia].
    pose proof (proj1 (list_max_le (map depth kids) (list_max (map depth kids))) (Nat.le_refl _))
      as Hall.
    rewrite List.Forall_forall in Hall. apply Hall, in_map, list_elem_of_In, Hin. }
  set (s1 := set_commands (commands s ++ recorded s (flat_map destroys kids)) s) in *.
  set (w2 := set_arrays <[g := []]> w1).
  assert (forall x, x ∉ flat_map nodes kids -> elements w2 !! x = elements w !! x) as He2
    by exact He1.
  assert (parent_group w2 parent = parent_group w parent) as Hpg2.
  { destruct Hout as [Hfalse|(p & gp & -> & Hpn & _)].
    - destruct parent; try reflexivity. discriminate.
    - cbn [parent_group]. rewrite He2; [reflexivity|].
      intros Hin. apply Hpn, elem_of_app. now left. }
  destruct (destroy_self_ok e el parent w2 s1 id) as (w3 & Hrun3 & He3 & Hf3 & Ha3 & Hm3 & Hs3); auto.
  { now rewrite He2. }
  { change (Element_map w2) with (Element_map w1). now rewrite Hm1. }
  { destruct Hout as [Hfalse|(p & gp & -> & Hpn & Hgp & _)]; [now left|].
    right. exists p, gp. split; [reflexivity|]. split; [|congruence].
    intros ->. apply Hpn, elem_of_app. right. left. }
  exists w3. split.
  - cbn [Element_destroy].
    rewrite (bind_Ok _ _ _ _ _ (own_get_Ok _ _ _ _ Hel)), Hnd.
    unfold children_of. rewrite bind_assoc, (bind_Ok _ _ _ _ _ (own_get_Ok _ _ _ _ Hel)), Hc.
    rewrite bind_ret. unfold ElementGroup_destroy.
    rewrite !bind_assoc, bind_read_array, Harr, !bind_assoc, (bind_Ok _ _ _ _ _ Hrun1).
    unfold write_array. rewrite bind_modify. exact Hrun3.
  - split.
    + intros x Hx. apply not_elem_of_app in Hx as [Hx1 Hx2].
      rewrite He3, He2; auto. intros ->. apply Hx2. left.
    + intros x Hx. apply elem_of_app in Hx as [Hx|Hx].
      * rewrite He3 by (intros ->; contradiction). now apply Hf1.
      * apply list_elem_of_singleton in Hx as ->. exact Hf3.
    + intros x Hx Hpx. apply not_elem_of_app in Hx as [Hx1 Hx2].
      rewrite Ha3 by now rewrite Hpg2.
      assert (g <> x) as Hgx by (intros ->; apply Hx2; left).
      unfold w2. cbn. rewrite lookup_insert_ne by assumption.
      apply Ha1; [assumption|]. rewrite Hpg. congruence.
    + intros k Hk. apply not_elem_of_app in Hk as [Hk1' Hk2].
      rewrite Hm3 by (intros ->; apply Hk2; left). now apply Hm1.
    + rewrite Hs3. f_equal. rewrite recorded_app. apply set_commands_twice.
Qed.

(** C5.  In a store that holds the subtree [t] of elements that are not
    destroyed, [destroy] on the root of [t], with fuel for the depth of
    [t], returns; on the worker it has put the destroy commands of all
    nodes of [t] at the end of the buffer, those of the descendants of a
    node before the node's own, in the order of the children groups; every
    node of [t] is flagged as destroyed and the other elements are as they
    were.  For a parent with two children these are exactly three
    commands, the children's before the parent's. *)
Theorem destroy_children_first fuel t parent w s :
  (depth t <= fuel)%nat -> SURFACE w = Some s -> shape w parent t ->
  NoDup (nodes t) -> NoDup (groups t) -> NoDup (keys t) -> outside w parent t ->
  exists w',
    Element_destroy fuel (root_of t) w = Ok tt w' /\
    buffer w' = buffer w ++ recorded s (destroys t) /\
    (forall x, x ∈ nodes t ->
               exists el', elements w' !! x = Some el' /\ oget "destroyed" (own el') = VBool true) /\
    (forall x, x ∉ nodes t -> elements w' !! x = elements w !! x) /\
    (forall e g id c1 g1 id1 c2 g2 id2,
        t = Node e g id [Node c1 g1 id1 []; Node c2 g2 id2 []] -> location s = WORKER ->
        buffer w' = buffer w ++ [mkCommand DESTROY_COMMAND [("id", id1)];
                                 mkCommand DESTROY_COMMAND [("id", id2)];
                                 mkCommand DESTROY_COMMAND [("id", id)]]).
Proof.
  intros Hd Hs Hshape Hn Hg Hk Hout.
  destruct (destroys_all_trees fuel t parent w s) as (w' & Hrun & [He Hf Ha Hm Hs']); auto.
  assert (buffer w' = buffer w ++ recorded s (destroys t)) as Hbuf.
  { unfold buffer. now rewrite Hs', Hs. }
  exists w'. split; [assumption|]. split; [assumption|split; [assumption|split; [assumption|]]].
  intros e g id c1 g1 id1 c2 g2 id2 -> Hloc. rewrite Hbuf. unfold recorded. now rewrite Hloc.
Qed.

(** ** [algo.render.ElementGroup]: membership *)

Lemma indexOf_None v l : indexOf v l = None <-> forall x, x ∈ l -> strict_eq x v = false.
Proof.
  induction l as [|x l IH]; cbn.
  - split; [intros _ y Hy; now apply elem_of_nil in Hy|reflexivity].
  - destruct (strict_eq x v) eqn:E.
    + split; [discriminate|]. intros H. specialize (H x ltac:(left)). congruence.
    + destruct (indexOf v l) eqn:E'; cbn.
      * split; [discriminate|]. intros H.
        assert (Some n = None) as Habs; [|discriminate].
        apply IH. intros y Hy. apply H. now right.
      * split; [|reflexivity]. intros _ y Hy.
        apply elem_of_cons in Hy as [->|Hy]; [assumption|]. now apply IH.
Qed.

Lemma indexOf_elem_None e l : indexOf (VElem e) l = None <-> VElem e ∉ l.
Proof.
  rewrite indexOf_None. split.
  - intros H Hin. specialize (H _ Hin). cbn in H. now rewrite Nat.eqb_refl in H.
  - intros H x Hx. destruct (strict_eq x (VElem e)) eqn:E; [|reflexivity].
    apply strict_eq_eq in E. now subst.
Qed.

Lemma indexOf_first e pre post :
  VElem e ∉ pre -> indexOf (VElem e) (pre ++ VElem e :: post) = Some (length pre).
Proof.
  induction pre as [|x pre IH]; intros Hpre; cbn.
  - now rewrite Nat.eqb_refl.
  - apply not_elem_of_cons in Hpre as [Hne Hpre].
    destruct (strict_eq x (VElem e)) eqn:E; [apply strict_eq_eq in E; congruence|].
    now rewrite IH.
Qed.

(** X1.  [group.add(e)] returns with [e] a member of the group.  A member
    is not added again, the group is then left as it is; a new member goes
    last.  So a group without duplicates stays without duplicates, and
    adding twice is adding once. *)
Theorem group_add_once g e w :
  exists w',
    ElementGroup_add g (VElem e) w = Ok tt w' /\
    VElem e ∈ array_at w' g /\
    (VElem e ∈ array_at w g -> w' = w) /\
    (VElem e ∉ array_at w g -> array_at w' g = array_at w g ++ [VElem e]) /\
    (NoDup (array_at w g) -> NoDup (array_at w' g)) /\
    ElementGroup_add g (VElem e) w' = Ok tt w'.
Proof.
  unfold ElementGroup_add. rewrite bind_read_array.
  destruct (indexOf (VElem e) (array_at w g)) as [i|] eqn:E.
  - assert (VElem e ∈ array_at w g) as Hin by (apply indexOf_elem; eauto).
    exists w. repeat split; auto.
    + intros Hout. contradiction.
    + rewrite bind_read_array. now rewrite E.
  - apply indexOf_elem_None in E.
    exists (set_arrays <[g := array_at w g ++ [VElem e]]> w).
    assert (array_at (set_arrays <[g := array_at w g ++ [VElem e]]> w) g
            = array_at w g ++ [VElem e]) as Hg.
    { rewrite array_at_insert. now rewrite decide_True. }
    rewrite Hg. repeat split; auto.
    + apply elem_of_app. right. left.
    + intros Hin. contradiction.
    + intros Hnd. apply NoDup_app. repeat split; [assumption| |apply NoDup_singleton].
      intros x Hx Hx'. apply list_elem_of_singleton in Hx'. now subst.
    + rewrite bind_read_array, Hg. now rewrite (indexOf_first e (array_at w g) []).
Qed.

(** X2.  [group.remove(e)] takes the first occurrence of [e] out of the
    group and keeps the other members in their order; in particular it
    undoes the [add] of a new member. *)
Theorem group_remove_first_occurrence g e pre post w :
  array_at w g = pre ++ VElem e :: post -> VElem e ∉ pre ->
  ElementGroup_remove g (VElem e) w = Ok tt (set_arrays <[g := pre ++ post]> w).
Proof.
  intros Hl Hpre. unfold ElementGroup_remove. rewrite bind_read_array, Hl.
  rewrite indexOf_first by assumption.
  rewrite take_app_length.
  replace (S (length pre)) with (length (pre ++ [VElem e])) by (rewrite length_app; cbn; lia).
  rewrite (cons_middle (VElem e) pre post), (assoc_L (++)), drop_app_length.
  reflexivity.
Qed.

(** ** Moving a node to another parent *)

Lemma set_arrays_same w : set_arrays (fun _ => arrays w) w = w.
Proof. now destruct w. Qed.

Lemma oget_Some k o v : olookup k o = Some v -> oget k o = v.
Proof. unfold oget. now intros ->. Qed.

(** The store after [group.remove(e)]. *)
Lemma group_remove_world g e w :
  exists A,
    ElementGroup_remove g (VElem e) w = Ok tt (set_arrays (fun _ => A) w) /\
    (forall a, a <> g -> A !! a = arrays w !! a) /\
    (VElem e ∉ array_at w g -> A = arrays w) /\
    (forall pre post, array_at w g = pre ++ VElem e :: post -> VElem e ∉ pre ->
       A !! g = Some (pre ++ post)).
Proof.
  unfold ElementGroup_remove. rewrite bind_read_array.
  destruct (indexOf (VElem e) (array_at w g)) as [i|] eqn:E.
  - exists (<[g := take i (array_at w g) ++ drop (S i) (array_at w g)]> (arrays w)).
    split; [reflexivity|]. split; [|split].
    + intros a Ha. now rewrite lookup_insert_ne.
    + intros Hout. apply indexOf_elem_None in Hout. congruence.
    + intros pre post Hl Hpre. rewrite Hl in E |- *. rewrite indexOf_first in E by assumption.
      injection E as <-. rewrite lookup_insert_eq. f_equal.
      rewrite take_app_length.
      replace (S (length pre)) with (length (pre ++ [VElem e])) by (rewrite length_app; cbn; lia).
      rewrite (cons_middle (VElem e) pre post), (assoc_L (++)), drop_app_length.
      reflexivity.
  - exists (arrays w). rewrite set_arrays_same. split; [reflexivity|].
    split; [reflexivity|]. split; [reflexivity|].
    intros pre post Hl Hpre. rewrite Hl, indexOf_first in E by assumption. discriminate.
Qed.

(** The store after [group.add(e)]. *)
Lemma group_add_world g e w :
  exists A,
    ElementGroup_add g (VElem e) w = Ok tt (set_arrays (fun _ => A) w) /\
    (forall a, a <> g -> A !! a = arrays w !! a) /\
    VElem e ∈ default [] (A !! g).
Proof.
  unfold ElementGroup_add. rewrite bind_read_array.
  destruct (indexOf (VElem e) (array_at w g)) as [i|] eqn:E.
  - exists (arrays w). rewrite set_arrays_same. split; [reflexivity|]. split; [reflexivity|].
    apply indexOf_elem. eauto.
  - exists (<[g := array_at w g ++ [VElem e]]> (arrays w)). split; [reflexivity|]. split.
    + intros a Ha. now rewrite lookup_insert_ne.
    + rewrite lookup_insert_eq. cbn. apply elem_of_app. right. left.
Qed.

(** [p.removeChild(e)] *)
Lemma removeChild_ok p pel gp e el w :
  elements w !! p = Some pel -> oget "children" (own pel) = VGroup gp ->
  elements w !! e = Some el ->
  exists A,
    Element_removeChild p e w
    = Ok tt (set_elements
               <[e := mkElement (proto el) (states el) (odel "parentID" (odel "parent" (own el)))]>
               (set_arrays (fun _ => A) w)) /\
    (forall a, a <> gp -> A !! a = arrays w !! a) /\
    (VElem e ∉ array_at w gp -> A = arrays w) /\
    (forall pre post, array_at w gp = pre ++ VElem e :: post -> VElem e ∉ pre ->
       A !! gp = Some (pre ++ post)).
Proof.
  intros Hp Hg He. unfold Element_removeChild, children_of.
  rewrite !bind_assoc, (bind_Ok _ _ _ _ _ (own_get_Ok _ _ _ _ Hp)), Hg, bind_ret.
  destruct (group_remove_world gp e w) as (A & Hrun & HA).
  exists A. split; [|exact HA].
  rewrite (bind_Ok _ _ _ _ _ Hrun).
  set (w1 := set_arrays (fun _ => A) w).
  assert (elements w1 !! e = Some el) as He1 by exact He.
  rewrite (bind_Ok _ _ _ _ _ (own_del_Ok _ _ _ _ He1)).
  erewrite own_del_Ok by (cbn; apply lookup_insert_eq).
  cbn [proto states own]. f_equal.
  rewrite set_elements_twice. unfold set_elements. f_equal. cbn. apply insert_insert_eq.
Qed.

(** [q.addChild(e)] for a node [e] other than [q]. *)
Lemma addChild_ok q qel gq e el w :
  elements w !! q = Some qel -> oget "children" (own qel) = VGroup gq ->
  elements w !! e = Some el -> q <> e ->
  exists A,
    Element_addChild q e w
    = Ok tt (set_elements
               <[e := mkElement (proto el) (states el)
                        (oset "parentID" (oget "id" (own qel)) (oset "parent" (VElem q) (own el)))]>
               (set_arrays (fun _ => A) w)) /\
    (forall a, a <> gq -> A !! a = arrays w !! a) /\
    VElem e ∈ default [] (A !! gq).
Proof.
  intros Hq Hg He Hne. unfold Element_addChild, children_of.
  rewrite !bind_assoc, (bind_Ok _ _ _ _ _ (own_get_Ok _ _ _ _ Hq)), Hg, bind_ret.
  destruct (group_add_world gq e w) as (A & Hrun & HA).
  exists A. split; [|exact HA].
  rewrite (bind_Ok _ _ _ _ _ Hrun).
  set (w1 := set_arrays (fun _ => A) w).
  assert (elements w1 !! e = Some el) as He1 by exact He.
  rewrite (bind_Ok _ _ _ _ _ (own_set_Ok _ _ _ _ _ He1)).
  set (w2 := set_elements _ w1).
  assert (elements w2 !! q = Some qel) as Hq2.
  { unfold w2. cbn. rewrite lookup_insert_ne by congruence. exact Hq. }
  rewrite (bind_Ok _ _ _ _ _ (own_get_Ok _ _ _ _ Hq2)).
  erewrite own_set_Ok by (unfold w2; cbn; apply lookup_insert_eq).
  cbn [proto states own]. f_equal. unfold w2.
  rewrite set_elements_twice. unfold set_elements. f_equal. cbn. apply insert_insert_eq.
Qed.

(** X3.  [e.set({parent: q})] on a node [e] that is a child of [p] moves
    it: it leaves the children of [p], joins the children of [q], has [q]
    for its parent and the id of [q] for its [parentID], and on the worker
    the buffer has an update command for [e] whose [parent] is the id of
    [q], not the node. *)
Theorem set_parent_moves_node fuel this el p pel gp q qel gq s w :
  elements w !! this = Some el -> proto el <> KLetterTile ->
  oget "parent" (own el) = VElem p ->
  elements w !! p = Some pel -> oget "children" (own pel) = VGroup gp ->
  elements w !! q = Some qel -> oget "children" (own qel) = VGroup gq ->
  q <> this -> gp <> gq -> NoDup (array_at w gp) ->
  SURFACE w = Some s -> location s = WORKER ->
  exists w' el',
    set (S fuel) this (Some [("parent", VElem q)]) 0 w = Ok tt w' /\
    (VElem this ∉ array_at w' gp) /\
    VElem this ∈ array_at w' gq /\
    elements w' !! this = Some el' /\
    oget "parent" (own el') = VElem q /\
    oget "parentID" (own el') = oget "id" (own qel) /\
    exists c, c ∈ buffer w' /\ name c = UPDATE_COMMAND /\
              oget "id" (options c) = oget "id" (own el) /\
              oget "parent" (options c) = oget "id" (own qel).
Proof.
  intros Hel Hproto Hparent Hp Hgp Hq Hgq Hne Hgs Hnd Hs Hloc.
  destruct (removeChild_ok p pel gp this el w Hp Hgp Hel) as (A1 & Hrem & HA1 & HA1out & HA1in).
  set (el1 := mkElement (proto el) (states el) (odel "parentID" (odel "parent" (own el)))) in *.
  set (w1 := set_elements <[this := el1]> (set_arrays (fun _ => A1) w)) in *.
  assert (elements w1 !! this = Some el1) as Hel1 by apply lookup_insert_eq.
  assert (elements w1 !! q = Some qel) as Hq1.
  { unfold w1. cbn. rewrite lookup_insert_ne by congruence. exact Hq. }
  destruct (addChild_ok q qel gq this el1 w1 Hq1 Hgq Hel1 Hne) as (A2 & Hadd & HA2 & HA2in).
  set (el2 := mkElement (proto el1) (states el1)
                (oset "parentID" (oget "id" (own qel)) (oset "parent" (VElem q) (own el1)))) in *.
  set (w2 := set_elements <[this := el2]> (set_arrays (fun _ => A2) w1)) in *.
  assert (elements w2 !! this = Some el2) as Hel2 by apply lookup_insert_eq.
  assert (elements w2 !! q = Some qel) as Hq2.
  { unfold w2. cbn. rewrite lookup_insert_ne by congruence. exact Hq1. }
  assert (SURFACE w2 = Some s) as Hs2 by exact Hs.
  assert (oget "id" (own el2) = oget "id" (own el)) as Hid.
  { cbn [own el2 el1]. rewrite !oget_oset_ne, !oget_odel_ne by discriminate. reflexivity. }
  assert (oget "parent" (own el2) = VElem q) as Hpar2.
  { cbn [own el2]. rewrite oget_oset_ne by discriminate. apply oget_oset_eq. }
  assert (foldM (set_entry (methods fuel) this) [("parent", VElem q)] 0%nat w = Ok 1%nat w2)
    as Hloop.
  { cbn [foldM]. unfold set_entry. cbn [String.eqb Ascii.eqb Bool.eqb].
    rewrite !bind_assoc, (bind_Ok _ _ _ _ _ (own_get_Ok _ _ _ _ Hel)), Hparent.
    cbn [truthy when on_element]. rewrite !bind_assoc, (bind_Ok _ _ _ _ _ Hrem).
    rewrite ?bind_assoc, (bind_Ok _ _ _ _ _ Hadd). reflexivity. }
  set (c := [("parent", oget "id" (own qel)); ("id", oget "id" (own el))]).
  assert (NoDup c.*1) as Hc.
  { cbn. apply NoDup_cons. split; [|apply NoDup_singleton].
    intros H%list_elem_of_singleton. discriminate. }
  assert (exists cs,
            Surface_elementUpdated this [("parent", VElem q)] w2
            = Ok tt (set_SURFACE (Some (set_commands cs s)) w2) /\
            exists c0, c0 ∈ cs /\ name c0 = UPDATE_COMMAND /\
                       oget "id" (options c0) = oget "id" (own el) /\
                       oget "parent" (options c0) = oget "id" (own qel))
    as (cs & Hrec & Hcmd).
  { unfold Surface_elementUpdated, Surface_addCommand.
    rewrite (bind_Ok _ _ _ _ _ (the_surface_Ok _ _ Hs2)).
    unfold isDOM. rewrite Hloc.
    cbn [oget olookup String.eqb Ascii.eqb Bool.eqb truthy prop].
    rewrite !bind_assoc, (bind_Ok _ _ _ _ _ (own_get_Ok _ _ _ _ Hq2)), bind_ret.
    rewrite (bind_Ok _ _ _ _ _ (own_get_Ok _ _ _ _ Hel2)), Hid.
    assert (oset "id" (oget "id" (own el))
              (oset "parent" (oget "id" (own qel))
                 (omit [("parent", VElem q)] ["states"; "state"; "shape"])) = c) as ->
      by reflexivity.
    assert (forall f, update_surface f w2 = Ok tt (set_SURFACE (Some (f s)) w2)) as Hupd.
    { intros f. unfold update_surface. now rewrite (bind_Ok _ _ _ _ _ (the_surface_Ok _ _ Hs2)). }
    cbn [String.eqb Ascii.eqb Bool.eqb UPDATE_COMMAND].
    destruct (extend_existing (oget "id" (own el)) c (commands s)) as [cs|] eqn:E.
    - exists cs. split; [apply Hupd|].
      apply extend_existing_Some in E as (i & c0 & Hi & Hu & _ & ->).
      apply updates_id in Hu as [Hname Hid0].
      exists (mkCommand (name c0) (extend (options c0) c)). split.
      + apply list_elem_of_lookup. exists i. apply list_lookup_insert_eq.
        now apply lookup_lt_Some in Hi.
      + split; [exact Hname|]. cbn [options].
        split; apply oget_Some; apply olookup_extend_source; auto.
    - exists (commands s ++ [mkCommand UPDATE_COMMAND c]).
      split; [exact (Hupd (fun s => set_commands (commands s ++ [mkCommand UPDATE_COMMAND c]) s))|].
      exists (mkCommand UPDATE_COMMAND c). split; [apply elem_of_app; right; left|].
      repeat split. }
  set (w3 := set_SURFACE (Some (set_commands cs s)) w2) in *.
  exists w3, el2. split; [|split; [|split; [|split; [|split; [|split]]]]].
  - unfold set. cbn [methods m_set]. rewrite (bind_get_element _ _ _ _ Hel).
    assert (forall m : M unit,
              match proto el with
              | KLetterTile => LetterTile_set (methods fuel) this (Some [("parent", VElem q)]) 0
              | _ => m
              end = m) as -> by (intros m; destruct (proto el); congruence).
    unfold Element_set. rewrite bind_assoc, (bind_Ok _ _ _ _ _ Hloop).
    cbn [Nat.eqb negb when]. rewrite bind_assoc, (bind_Ok _ _ _ _ _ Hrec).
    assert (elements w3 !! this = Some el2) as Hel3 by exact Hel2.
    rewrite bind_assoc, (bind_Ok _ _ _ _ _ (own_get_Ok _ _ _ _ Hel3)).
    rewrite bind_assoc, (bind_Ok _ _ _ _ _ (own_get_Ok _ _ _ _ Hel3)).
    rewrite Hpar2. cbn [truthy negb andb when]. rewrite !bind_ret. reflexivity.
  - assert (array_at w3 gp = default [] (A1 !! gp)) as ->.
    { unfold array_at. cbn. now rewrite HA2 by congruence. }
    destruct (indexOf (VElem this) (array_at w gp)) as [i|] eqn:E.
    + assert (VElem this ∈ array_at w gp) as Hin by (apply indexOf_elem; eauto).
      apply list_elem_of_split in Hin as (pre & post & Hl). rewrite Hl in Hnd.
      apply NoDup_app in Hnd as (_ & Hdisj & Hnd). apply NoDup_cons in Hnd as [Hpost _].
      assert (VElem this ∉ pre) as Hpre.
      { intros Hin. apply (Hdisj _ Hin). left. }
      rewrite (HA1in pre post Hl Hpre). cbn.
      intros [?|?]%elem_of_app; contradiction.
    + apply indexOf_elem_None in E. rewrite (HA1out E). exact E.
  - exact HA2in.
  - exact Hel2.
  - exact Hpar2.
  - cbn [own el2]. apply oget_oset_eq.
  - destruct Hcmd as (c0 & Hin & Hrest). exists c0. split; [|exact Hrest].
    unfold buffer. cbn. exact Hin.
Qed.

(** ** A bag that names a state which is not registered *)

(** X4.  A [set] whose bag, one without a numeric [length], names after
    plain properties a state that the node has not registered, and whose
    name is not that of a member of [Object.prototype], throws the error of
    [setState]; the plain properties that precede [state] in the bag have
    then been written to the node, and no command has been recorded for
    them. *)
Theorem set_unregistered_state_keeps_writes fuel this el opts name w :
  elements w !! this = Some el ->
  Forall (fun kv : string * value => kv.1 ∉ reserved) opts ->
  numeric_length (opts ++ [("state", name)]) = false ->
  isArray name = false -> olookup (to_key name) (states el) = None ->
  inherited_name (to_key name) = false ->
  let w' := set_elements
              <[this := mkElement (proto el) (states el) (fold_left write_plain opts (own el))]> w in
  set (S fuel) this (Some (opts ++ [("state", name)])) 0 w
  = Throw "Attempt to apply unregistered state" w' /\
  buffer w' = buffer w.
Proof.
  intros Hel Hplain _ Harr Hnone _ w'. split; [|reflexivity].
  destruct (set_entries_plain (methods fuel) this opts w el 0%nat Hel Hplain) as (changes & Hloop).
  fold w' in Hloop.
  assert (elements w' !! this
          = Some (mkElement (proto el) (states el) (fold_left write_plain opts (own el)))) as Hel'
    by apply lookup_insert_eq.
  assert (Element_set (methods fuel) this (Some (opts ++ [("state", name)])) 0 w
          = Throw "Attempt to apply unregistered state" w') as Hset.
  { unfold Element_set. rewrite !bind_assoc. apply bind_Throw.
    rewrite foldM_app. rewrite (bind_Ok _ _ _ _ _ Hloop). cbn [foldM].
    apply bind_Throw. unfold set_entry. cbn [String.eqb Ascii.eqb Bool.eqb].
    apply bind_Throw. unfold Element_setState.
    destruct name; try discriminate Harr;
      rewrite (bind_get_element _ _ _ _ Hel'); cbn [states]; now rewrite Hnone. }
  unfold set. cbn [methods m_set]. rewrite (bind_get_element _ _ _ _ Hel).
  destruct (proto el); try exact Hset.
  unfold LetterTile_set. now apply bind_Throw.
Qed.

(** ** The batches that the worker posts *)

Lemma odel_keys_iff {V} k k0 (o : list (string * V)) :
  k ∈ (odel k0 o).*1 <-> k ∈ o.*1 /\ k <> k0.
Proof.
  clear js_minus.
  induction o as [|[k' v'] o IH]; cbn.
  - split; [intros H; now apply elem_of_nil in H|intros [H _]; now apply elem_of_nil in H].
  - destruct (String.eqb k0 k') eqn:E.
    + apply String.eqb_eq in E; subst k'. rewrite IH, elem_of_cons. intuition congruence.
    + apply String.eqb_neq in E. cbn. rewrite !elem_of_cons, IH. intuition congruence.
Qed.

Lemma oset_keys_iff {V} k (v : V) o k' : k' ∈ (oset k v o).*1 <-> k' = k \/ k' ∈ o.*1.
Proof.
  clear js_minus.
  rewrite oset_keys. destruct (decide (k ∈ o.*1)) as [H|H].
  - split; [now right|]. intros [->|?]; assumption.
  - rewrite elem_of_app, list_elem_of_singleton. tauto.
Qed.

(** [processOptions] returns for every payload; it changes the contents of
    lists only, and the clone has the keys of the payload. *)
Lemma process_entries_total es : forall options clone w,
  exists options' clone' w',
    foldM processOptions_entry es (options, clone) w = Ok (options', clone') w' /\
    only_arrays_differ w w' /\
    (forall k, k ∈ clone'.*1 <-> k ∈ clone.*1 \/ k ∈ es.*1).
Proof.
  clear js_minus.
  induction es as [|[key v] es IH]; intros options clone w.
  - exists options, clone, w. split; [reflexivity|]. split; [apply only_arrays_differ_refl|].
    intros k. cbn. rewrite elem_of_nil. tauto.
  - cbn [foldM].
    assert (exists options1 x w1,
              processOptions_entry (options, clone) (key, v) w = Ok (options1, oset key x clone) w1 /\
              only_arrays_differ w w1) as (options1 & x & w1 & Hstep & Hdiff).
    { unfold processOptions_entry.
      destruct v; try (eexists _, _, _; split; [reflexivity|apply only_arrays_differ_refl]).
      rewrite bind_read_array. unfold write_array. rewrite bind_modify.
      destruct (length (tail (array_at w a)) =? 0)%nat;
        (eexists _, _, _; split; [reflexivity|now destruct w]). }
    rewrite (bind_Ok _ _ _ _ _ Hstep).
    destruct (IH options1 (oset key x clone) w1) as (options' & clone' & w' & Hrun & Hdiff' & Hkeys).
    exists options', clone', w'. split; [exact Hrun|].
    split; [eapply only_arrays_differ_trans; eassumption|].
    intros k. rewrite Hkeys, oset_keys_iff, fmap_cons, elem_of_cons. cbn. tauto.
Qed.

Lemma processOptions_total options w :
  exists remaining clone w',
    Surface_processOptions options w = Ok (remaining, clone) w' /\
    only_arrays_differ w w' /\
    (forall k, k ∈ okeys clone <-> k ∈ okeys options /\ k <> "more").
Proof.
  clear js_minus.
  unfold Surface_processOptions.
  destruct (process_entries_total (odel "more" options) (odel "more" options) [] w)
    as (remaining & clone & w' & Hrun & Hdiff & Hkeys).
  exists remaining, clone, w'. split; [exact Hrun|]. split; [exact Hdiff|].
  intros k. unfold okeys. rewrite Hkeys, odel_keys_iff. cbn. rewrite elem_of_nil. tauto.
Qed.

Lemma lists_shortened_refl w : lists_shortened w w.
Proof. intros a. now exists 0%nat. Qed.

Lemma lists_shortened_trans w1 w2 w3 :
  lists_shortened w1 w2 -> lists_shortened w2 w3 -> lists_shortened w1 w3.
Proof.
  intros H1 H2 a. destruct (H1 a) as [k1 E1], (H2 a) as [k2 E2].
  exists (k1 + k2)%nat. now rewrite E2, E1, drop_drop.
Qed.

(** [processOptions] takes values from the front of lists and changes
    nothing else of them. *)
Lemma process_entries_shorten es : forall acc w r w',
  foldM processOptions_entry es acc w = Ok r w' -> lists_shortened w w'.
Proof.
  clear js_minus shape_writes.
  induction es as [|[key v] es IH]; intros acc w r w' Hrun.
  - injection Hrun as _ <-. apply lists_shortened_refl.
  - cbn [foldM] in Hrun. apply bind_Ok_inv in Hrun as (acc1 & w1 & Hstep & Hrun).
    eapply lists_shortened_trans; [|exact (IH _ _ _ _ Hrun)].
    destruct acc as [options clone]. unfold processOptions_entry in Hstep.
    destruct v; try (injection Hstep as _ <-; apply lists_shortened_refl).
    rewrite bind_read_array in Hstep. unfold write_array in Hstep. rewrite bind_modify in Hstep.
    assert (w1 = set_arrays <[a := tail (array_at w a)]> w) as ->
      by (destruct (_ =? _)%nat; now injection Hstep as _ <-).
    intros a'. rewrite array_at_insert. destruct (decide (a = a')) as [->|_].
    + exists 1%nat. now destruct (array_at w a').
    + now exists 0%nat.
Qed.

Lemma processOptions_shortens options w r w' :
  Surface_processOptions options w = Ok r w' -> lists_shortened w w'.
Proof. apply process_entries_shorten. Qed.

Lemma pause_loop_shortens cs : forall acc w r w',
  foldM (fun '(current, activeCommands) c =>
           if String.eqb (name c) "updateElement" then
             let* (remaining, clone) := Surface_processOptions (options c) in
             ret (current ++ [mkCommand (name c) remaining],
                  activeCommands ++ [mkCommand (name c) clone])%list
           else ret (current ++ [c], activeCommands ++ [c])%list)
        cs acc w = Ok r w' ->
  lists_shortened w w'.
Proof.
  clear js_minus shape_writes.
  induction cs as [|c cs IH]; intros acc w r w' Hrun.
  - injection Hrun as _ <-. apply lists_shortened_refl.
  - cbn [foldM] in Hrun. apply bind_Ok_inv in Hrun as (acc1 & w1 & Hstep & Hrun).
    eapply lists_shortened_trans; [|exact (IH _ _ _ _ Hrun)].
    destruct acc as [current active].
    destruct (String.eqb (name c) "updateElement").
    + apply bind_Ok_inv in Hstep as ([remaining clone] & w2 & Hp & Hret).
      injection Hret as _ <-. exact (processOptions_shortens _ _ _ _ Hp).
    + injection Hstep as _ <-. apply lists_shortened_refl.
Qed.

Lemma pauseOrContinue_loop_shortens cs : forall acc w r w',
  foldM (fun '(current, activeCommands) c =>
           if String.eqb (name c) "updateElement" && truthy (oget "more" (options c)) then
             let* (remaining, clone) := Surface_processOptions (options c) in
             ret (current ++ [mkCommand (name c) remaining],
                  activeCommands ++ [mkCommand (name c) clone])%list
           else ret (current ++ [c], activeCommands)%list)
        cs acc w = Ok r w' ->
  lists_shortened w w'.
Proof.
  clear js_minus shape_writes.
  induction cs as [|c cs IH]; intros acc w r w' Hrun.
  - injection Hrun as _ <-. apply lists_shortened_refl.
  - cbn [foldM] in Hrun. apply bind_Ok_inv in Hrun as (acc1 & w1 & Hstep & Hrun).
    eapply lists_shortened_trans; [|exact (IH _ _ _ _ Hrun)].
    destruct acc as [current active].
    destruct (String.eqb (name c) "updateElement" && truthy (oget "more" (options c))).
    + apply bind_Ok_inv in Hstep as ([remaining clone] & w2 & Hp & Hret).
      injection Hret as _ <-. exact (processOptions_shortens _ _ _ _ Hp).
    + injection Hstep as _ <-. apply lists_shortened_refl.
Qed.

(** The loop of [pause] over the flushed commands. *)
Lemma pause_loop cs : forall current active w,
  exists current' active' w',
    foldM (fun '(current, activeCommands) c =>
             if String.eqb (name c) "updateElement" then
               let* (remaining, clone) := Surface_processOptions (options c) in
               ret (current ++ [mkCommand (name c) remaining],
                    activeCommands ++ [mkCommand (name c) clone])%list
             else ret (current ++ [c], activeCommands ++ [c])%list)
          cs (current, active) w
    = Ok (current ++ current', active ++ active') w' /\
    only_arrays_differ w w' /\
    Forall2 sent_for cs active' /\ Forall2 kept_for cs current'.
Proof.
  induction cs as [|c cs IH]; intros current active w.
  - exists [], [], w. rewrite !app_nil_r. split; [reflexivity|].
    split; [apply only_arrays_differ_refl|]. split; constructor.
  - cbn [foldM].
    assert (exists r t w1,
              (if String.eqb (name c) "updateElement" then
                 let* (remaining, clone) := Surface_processOptions (options c) in
                 ret (current ++ [mkCommand (name c) remaining],
                      active ++ [mkCommand (name c) clone])%list
               else ret (current ++ [c], active ++ [c])%list) w
              = Ok (current ++ [r], active ++ [t]) w1 /\
              only_arrays_differ w w1 /\ sent_for c t /\ kept_for c r)
      as (r & t & w1 & Hstep & Hdiff & Hsent & Hkept).
    { destruct (String.eqb (name c) "updateElement") eqn:E.
      - destruct (processOptions_total (options c) w) as (remaining & clone & w1 & Hrun & Hdiff & Hk).
        exists (mkCommand (name c) remaining), (mkCommand (name c) clone), w1.
        rewrite (bind_Ok _ _ _ _ _ Hrun). split; [reflexivity|]. split; [exact Hdiff|].
        split.
        + split; [reflexivity|]. unfold UPDATE_COMMAND. rewrite E. exact Hk.
        + split; [reflexivity|]. intros Hne. apply String.eqb_eq in E. contradiction.
      - exists c, c, w. split; [reflexivity|]. split; [apply only_arrays_differ_refl|].
        split.
        + split; [reflexivity|]. unfold UPDATE_COMMAND. now rewrite E.
        + split; [reflexivity|]. reflexivity. }
    rewrite (bind_Ok _ _ _ _ _ Hstep).
    destruct (IH (current ++ [r]) (active ++ [t]) w1) as (current' & active' & w' & Hrun & Hdiff' & H1 & H2).
    exists (r :: current'), (t :: active'), w'.
    rewrite (cons_middle r current current'), (cons_middle t active active'), !(assoc_L (++)).
    split; [exact Hrun|]. split; [eapply only_arrays_differ_trans; eassumption|].
    split; constructor; assumption.
Qed.

(** X5.  When no update command of the buffer has a payload with a numeric
    [length], [pause] posts one Pause message that has, for every command
    of the buffer and in the same order, one command of the same name: a
    destroy command as it is, an update command with the keys of its
    payload, and never with the key [more].  It empties the buffer and does
    not advance the algorithm.  The nodes keep their own properties and
    their states; of the store only lists change, each by losing values at
    its front: the lists of the payloads, which the nodes hold too, are
    shifted. *)
Theorem pause_sends_every_command app v w s :
  SURFACE w = Some s ->
  Forall (fun c => name c = UPDATE_COMMAND -> numeric_length (options c) = false) (commands s) ->
  exists app' active w',
    WorkerApp_pause app v w = Ok app' w' /\
    posted w' = posted w ++ [M_Pause active v] /\
    Forall2 sent_for (commands s) active /\
    Forall2 kept_for (commands s) (currentCommands app') /\
    buffer w' = [] /\
    elements w' = elements w /\
    lists_shortened w w' /\
    userAlgorithm app' = userAlgorithm app.
Proof.
  intros Hs _. unfold WorkerApp_pause.
  assert (Surface_flushCommands w = Ok (commands s) (set_SURFACE (Some (set_commands [] s)) w))
    as Hflush.
  { unfold Surface_flushCommands, update_surface.
    rewrite (bind_Ok _ _ _ _ _ (the_surface_Ok _ _ Hs)), !bind_assoc.
    rewrite (bind_Ok _ _ _ _ _ (the_surface_Ok _ _ Hs)). reflexivity. }
  rewrite (bind_Ok _ _ _ _ _ Hflush).
  destruct (pause_loop (commands s) [] [] (set_SURFACE (Some (set_commands [] s)) w))
    as (current & active & w1 & Hrun & Hdiff & Hsent & Hkept).
  rewrite (bind_Ok _ _ _ _ _ Hrun). cbn [List.app].
  exists (mkWorkerApp current (userAlgorithm app)), active, (postMessage (M_Pause active v) w1).
  split; [reflexivity|].
  pose proof (pause_loop_shortens _ _ _ _ _ Hrun) as Hshort.
  rewrite Hdiff. repeat split; assumption.
Qed.

(** The loop of [pauseOrContinue] over the retained commands. *)
Lemma pauseOrContinue_loop cs : forall current active w,
  exists current' active' w',
    foldM (fun '(current, activeCommands) c =>
             if String.eqb (name c) "updateElement" && truthy (oget "more" (options c)) then
               let* (remaining, clone) := Surface_processOptions (options c) in
               ret (current ++ [mkCommand (name c) remaining],
                    activeCommands ++ [mkCommand (name c) clone])%list
             else ret (current ++ [c], activeCommands)%list)
          cs (current, active) w
    = Ok (current ++ current', active ++ active') w' /\
    only_arrays_differ w w' /\
    Forall2 sent_for (List.filter still_pending cs) active' /\
    length current' = length cs /\
    (Forall (fun c => still_pending c = false) cs -> current' = cs /\ w' = w).
Proof.
  induction cs as [|c cs IH]; intros current active w.
  - exists [], [], w. rewrite !app_nil_r. split; [reflexivity|].
    split; [apply only_arrays_differ_refl|]. split; [constructor|]. split; [reflexivity|].
    intros _. split; reflexivity.
  - cbn [foldM List.filter]. unfold still_pending at 1 3, UPDATE_COMMAND.
    destruct (String.eqb (name c) "updateElement" && truthy (oget "more" (options c))) eqn:E.
    + destruct (processOptions_total (options c) w) as (remaining & clone & w1 & Hrun & Hdiff & Hk).
      rewrite !bind_assoc, (bind_Ok _ _ _ _ _ Hrun), bind_ret.
      destruct (IH (current ++ [mkCommand (name c) remaining])
                   (active ++ [mkCommand (name c) clone]) w1)
        as (current' & active' & w' & Hloop & Hdiff' & Hsent & Hlen & _).
      exists (mkCommand (name c) remaining :: current'), (mkCommand (name c) clone :: active'), w'.
      rewrite (cons_middle _ current current'), (cons_middle _ active active'), !(assoc_L (++)).
      split; [exact Hloop|]. split; [eapply only_arrays_differ_trans; eassumption|].
      split; [|split].
      * constructor; [|exact Hsent]. split; [reflexivity|].
        apply andb_true_iff in E as [E _]. unfold UPDATE_COMMAND. rewrite E. exact Hk.
      * cbn. now rewrite Hlen.
      * intros Hall. apply Forall_cons in Hall as [Hc _].
        unfold still_pending, UPDATE_COMMAND in Hc. congruence.
    + rewrite bind_ret.
      destruct (IH (current ++ [c]) active w)
        as (current' & active' & w' & Hloop & Hdiff' & Hsent & Hlen & Hsame).
      exists (c :: current'), active', w'.
      rewrite (cons_middle _ current current'), !(assoc_L (++)).
      split; [exact Hloop|]. split; [exact Hdiff'|]. split; [exact Hsent|]. split.
      * cbn. now rewrite Hlen.
      * intros Hall. apply Forall_cons in Hall as [_ Hall].
        destruct (Hsame Hall) as [-> ->]. split; reflexivity.
Qed.

(** X6.  While a retained update command still carries [more],
    [pauseOrContinue] does not resume the algorithm: when none of these
    commands has a payload with a numeric [length], it posts one Pause
    message with [autoskip], which has one command of the same name for
    each such command, in their order, and none for the others.  The buffer
    is left as it is; the nodes keep their own properties and their states;
    of the store only lists change, each by losing values at its front: the
    lists of the payloads, which the nodes hold too, are shifted. *)
Theorem pauseOrContinue_sends_pending app w :
  Exists (fun c => still_pending c = true) (currentCommands app) ->
  Forall (fun c => still_pending c = true -> numeric_length (options c) = false)
         (currentCommands app) ->
  exists app' active w',
    WorkerApp_pauseOrContinue app w = Ok app' w' /\
    posted w' = posted w ++ [M_Pause active (VObj [("autoskip", VBool true)])] /\
    Forall2 sent_for (List.filter still_pending (currentCommands app)) active /\
    length (currentCommands app') = length (currentCommands app) /\
    userAlgorithm app' = userAlgorithm app /\
    SURFACE w' = SURFACE w /\ elements w' = elements w /\
    lists_shortened w w'.
Proof.
  intros Hex _. unfold WorkerApp_pauseOrContinue.
  destruct (pauseOrContinue_loop (currentCommands app) [] [] w)
    as (current & active & w1 & Hrun & Hdiff & Hsent & Hlen & _).
  rewrite (bind_Ok _ _ _ _ _ Hrun). cbn [List.app].
  assert (active <> []) as Hactive.
  { intros ->. apply Forall2_nil_inv_r in Hsent.
    apply Exists_exists in Hex as (c & Hin & Hc).
    assert (c ∈ List.filter still_pending (currentCommands app)) as Hf.
    { apply list_elem_of_In, List.filter_In. split; [now apply list_elem_of_In|exact Hc]. }
    rewrite Hsent in Hf. now apply elem_of_nil in Hf. }
  destruct active as [|t active]; [contradiction|]. cbn [length Nat.eqb negb].
  exists (mkWorkerApp current (userAlgorithm app)), (t :: active),
         (postMessage (M_Pause (t :: active) (VObj [("autoskip", VBool true)])) w1).
  split; [reflexivity|].
  pose proof (pauseOrContinue_loop_shortens _ _ _ _ _ Hrun) as Hshort.
  rewrite Hdiff. repeat split; assumption.
Qed.

(** X7.  When no retained update command carries [more],
    [pauseOrContinue] is [continue]: it sends nothing of the last batch
    again and resumes the algorithm. *)
Theorem pauseOrContinue_resumes app w :
  Forall (fun c => still_pending c = false) (currentCommands app) ->
  WorkerApp_pauseOrContinue app w = WorkerApp_continue app w.
Proof.
  intros Hall. unfold WorkerApp_pauseOrContinue.
  destruct (pauseOrContinue_loop (currentCommands app) [] [] w)
    as (current & active & w1 & Hrun & _ & Hsent & _ & Hsame).
  destruct (Hsame Hall) as [-> ->].
  assert (List.filter still_pending (currentCommands app) = []) as Hnone.
  { clear -Hall. induction Hall as [|c cs Hc _ IH]; [reflexivity|]. cbn. now rewrite Hc. }
  rewrite Hnone in Hsent. apply Forall2_nil_inv_l in Hsent. subst active.
  rewrite (bind_Ok _ _ _ _ _ Hrun). cbn [List.app length Nat.eqb negb].
  now destruct app.
Qed.


(** ** Reading a property along the parent chain *)

Lemma ancestry_head w e el els : ancestry w e (el :: els) -> elements w !! e = Some el.
Proof. now intros [H _]. Qed.

Lemma getInheritedValue_chain (own_of : value -> string -> option value)
    (parent_of : value -> value) (fuel : nat) (w : World) : forall (els : list Element) (e : loc)
    (key : string) (defaultValue : value),
  ancestry w e els -> (length els < fuel)%nat ->
  Element_getInheritedValue own_of parent_of fuel (VElem e) key defaultValue w
  = Ok (inherited els key defaultValue) w.
Proof.
  clear js_minus shape_writes.
  induction fuel as [|fuel IH]; intros els e key d Hchain Hfuel; [lia|].
  destruct els as [|el els]; [contradiction|]. destruct Hchain as [Hel Hrest].
  cbn [Element_getInheritedValue truthy]. rewrite (bind_get_element _ _ _ _ Hel).
  unfold inherited. cbn [List.find]. destruct (hasOwnProperty el key); [reflexivity|].
  destruct els as [|el' els].
  - destruct fuel as [|fuel]; [cbn in Hfuel; lia|]. cbn [Element_getInheritedValue].
    now rewrite Hrest.
  - destruct Hrest as (p & -> & Hrest). apply (IH (el' :: els) p key d Hrest). cbn in Hfuel |- *. lia.
Qed.

(** X24.  [getInheritedValue(key, default)] on a node whose parent chain
    ends returns the value that the nearest element of the chain, the node
    first, has for the property, and the default when none has it; a
    property that is set to [undefined] counts as set.  The store is left
    as it is. *)
Theorem getInheritedValue_nearest (own_of : value -> string -> option value)
    (parent_of : value -> value) (fuel : nat) (w : World) (els : list Element) (e : loc)
    (key : string) (defaultValue : value) :
  ancestry w e els -> (length els < fuel)%nat ->
  Element_getInheritedValue own_of parent_of fuel (VElem e) key defaultValue w
  = Ok (inherited els key defaultValue) w.
Proof. apply getInheritedValue_chain. Qed.

(** X25.  On a node that is its own parent, [getInheritedValue] of a
    property that the node does not have does not return. *)
Theorem getInheritedValue_own_parent (own_of : value -> string -> option value)
    (parent_of : value -> value) (w : World) (e : loc) (el : Element) (key : string)
    (defaultValue : value) :
  elements w !! e = Some el -> oget "parent" (own el) = VElem e -> hasOwnProperty el key = false ->
  forall fuel, Element_getInheritedValue own_of parent_of fuel (VElem e) key defaultValue w = Diverge.
Proof.
  clear js_minus shape_writes.
  intros Hel Hparent Hkey fuel. induction fuel as [|fuel IH]; [reflexivity|].
  cbn [Element_getInheritedValue truthy]. rewrite (bind_get_element _ _ _ _ Hel), Hkey, Hparent.
  exact IH.
Qed.

Lemma oset_middle {V} (k : string) (v v' : V) (o1 o2 : list (string * V)) :
  k ∉ o1.*1 -> oset k v (o1 ++ (k, v') :: o2) = o1 ++ (k, v) :: o2.
Proof.
  induction o1 as [|[k1 v1] o1 IH]; cbn; intros Hk.
  - now rewrite String.eqb_refl.
  - apply not_elem_of_cons in Hk as [Hne Hk].
    destruct (String.eqb k k1) eqn:E; [apply String.eqb_eq in E; congruence|].
    now rewrite IH.
Qed.

(** X26.  [get(properties)] on a node whose parent chain ends, for
    properties without a [length], returns a bag with the keys of
    [properties] in their order, each with the value that the node
    inherits for it, or with the value that [properties] gives when no
    element of the chain has the property. *)
Theorem get_fills_in_inherited (own_of : value -> string -> option value)
    (parent_of : value -> value) (fuel : nat) (w : World) (els : list Element) (e : loc)
    (properties : obj) :
  ancestry w e els -> (length els < fuel)%nat ->
  NoDup properties.*1 -> has properties "length" = false ->
  Element_get own_of parent_of fuel e properties w
  = Ok (map (fun kv : string * value => (kv.1, inherited els kv.1 kv.2)) properties) w.
Proof.
  clear js_minus shape_writes.
  intros Hchain Hfuel Hnd _. unfold Element_get.
  set (f := fun kv : string * value => (kv.1, inherited els kv.1 kv.2)).
  assert (forall rest done,
            NoDup (done ++ rest).*1 ->
            foldM (fun (p : obj) (kv : string * value) =>
                     let* v := Element_getInheritedValue own_of parent_of fuel (VElem e) kv.1 kv.2 in
                     ret (oset kv.1 v p))
                  rest (map f done ++ rest) w
            = Ok (map f (done ++ rest)) w) as Hloop.
  { induction rest as [|[k d] rest IH]; intros done Hnd'.
    - now rewrite !app_nil_r.
    - cbn [foldM fst snd].
      rewrite bind_assoc, (bind_Ok _ _ _ _ _ (getInheritedValue_chain own_of parent_of fuel w els e k d Hchain Hfuel)).
      rewrite bind_ret.
      rewrite oset_middle.
      + replace (map f done ++ (k, inherited els k d) :: rest)
          with (map f (done ++ [(k, d)]) ++ rest)
          by (rewrite map_app, <- (assoc_L (++)); reflexivity).
        replace (done ++ (k, d) :: rest) with ((done ++ [(k, d)]) ++ rest)
          by (now rewrite <- (assoc_L (++))).
        apply IH. rewrite <- (assoc_L (++)). exact Hnd'.
      + rewrite fmap_app in Hnd'. apply NoDup_app in Hnd' as (_ & Hdisj & _).
        intros Hin. apply (Hdisj k).
        * apply list_elem_of_fmap in Hin as ([k1 v1] & -> & Hin).
          apply list_elem_of_fmap in Hin as ([k2 v2] & [= -> ->] & Hin).
          apply list_elem_of_fmap. now exists (k2, v2).
        * left. }
  exact (Hloop properties [] Hnd).
Qed.

(** ** History mode of the registry *)

(** X27.  [enterHistoryMode] saves the registry of elements and resets
    it; whatever is registered afterwards, [exitHistoryMode] puts the
    saved id counter and map back and changes nothing else.  Entering
    twice, and exiting without having entered, throw. *)
Theorem history_mode_restores_registry (w : World) :
  exists saved w1,
    Element_enterHistoryMode None w = Ok (Some saved) w1 /\
    Element_nextID w1 = 0%nat /\ Element_map w1 = ∅ /\
    (forall w2, exists w3,
        Element_exitHistoryMode (Some saved) w2 = Ok None w3 /\
        Element_nextID w3 = Element_nextID w /\ Element_map w3 = Element_map w /\
        elements w3 = elements w2 /\ arrays w3 = arrays w2 /\ SURFACE w3 = SURFACE w2 /\
        posted w3 = posted w2) /\
    (forall w2, Element_enterHistoryMode (Some saved) w2
                = Throw "Element class is already in history mode" w2) /\
    (forall w2, Element_exitHistoryMode None w2
                = Throw "Element class was not in history mode" w2).
Proof.
  clear js_minus shape_writes.
  eexists _, _. split; [reflexivity|]. split; [reflexivity|]. split; [reflexivity|].
  split; [|split; reflexivity].
  intros w2. eexists. split; [reflexivity|]. repeat split.
Qed.

(** ** [destroy] and the registry *)

(** X28.  After a [destroy()] that returns, of a node whose id is not the
    name of a member of [Object.prototype], the registry has no element
    under the id of the node: [findElement] of the id is [undefined], and
    [handleDestroyCommand] for the id, as when a Destroy command is
    executed a second time, fails with a TypeError and changes nothing. *)
Theorem destroy_forgets_node (fuel : nat) (this : loc) (w w' : World) :
  Element_destroy fuel this w = Ok tt w' ->
  (forall el', elements w' !! this = Some el' ->
               inherited_name (to_key (oget "id" (own el'))) = false) ->
  exists el',
    elements w' !! this = Some el' /\
    Element_findElement (oget "id" (own el')) w' = Ok VUndef w' /\
    forall fuel', Surface_handleDestroyCommand fuel' [("id", oget "id" (own el'))] w'
                  = Throw TypeError w'.
Proof.
  clear js_minus shape_writes.
  intros Hrun _. destruct fuel as [|fuel]; [discriminate|]. cbn [Element_destroy] in Hrun.
  apply bind_Ok_inv in Hrun as (d & w0 & _ & Hrun). destruct (truthy d); [discriminate|].
  do 2 (apply bind_Ok_inv in Hrun as (? & ? & _ & Hrun)).
  unfold destroy_self in Hrun.
  do 4 (apply bind_Ok_inv in Hrun as (? & ? & _ & Hrun)).
  apply bind_Ok_inv in Hrun as (? & w1 & _ & Hrun).
  apply bind_Ok_inv in Hrun as (id & w1' & Hid & Hrun).
  apply own_get_Ok_inv in Hid as (-> & el & Hel & ->).
  apply bind_Ok_inv in Hrun as (found & w2 & Hfound & Hrun).
  assert (w2 = w1) as ->.
  { unfold Element_findElement in Hfound. destruct (Element_map w1 !! _); now injection Hfound. }
  destruct (negb (truthy found)); [discriminate|].
  apply bind_Ok_inv in Hrun as ([] & w3 & Hmod & Hrun).
  unfold modify in Hmod. injection Hmod as <-.
  apply own_set_Ok_inv in Hrun as (el1 & Hel1 & ->).
  assert (el1 = el) as -> by (cbn in Hel1; congruence).
  eexists. split; [cbn; apply lookup_insert_eq|]. cbn [own].
  rewrite oget_oset_ne by discriminate.
  assert (forall v, Element_findElement (oget "id" (own el))
                      (set_elements <[this := v]> (set_map (delete (to_key (oget "id" (own el)))) w1))
                    = Ok VUndef
                         (set_elements <[this := v]>
                            (set_map (delete (to_key (oget "id" (own el)))) w1))) as Hfind.
  { intros v. unfold Element_findElement. cbn. now rewrite lookup_delete_eq. }
  split; [apply Hfind|]. intros fuel'. unfold Surface_handleDestroyCommand.
  cbn [oget olookup String.eqb Ascii.eqb Bool.eqb]. rewrite (bind_Ok _ _ _ _ _ (Hfind _)).
  reflexivity.
Qed.

End Model.

(** * The properties at concrete stores *)

Ltac by_computation := apply (bool_decide_unpack _); vm_compute; exact I.

(** C1: the payload with the lists [[1]] and [[2, 3]] is drained in two
    ticks. *)
Lemma drain_unfolds_lists_witness :
  exists ticks w',
    drain 2 two_lists_payload two_lists_world = Ok ticks w' /\ length ticks = 2%nat.
Proof.
  destruct (drain_unfolds_lists 2 two_lists_world two_lists_payload)
    as (ticks & w' & Hrun & Hlen & _).
  - reflexivity.
  - by_computation.
  - by_computation.
  - vm_compute. lia.
  - lia.
  - exists ticks, w'. split; [exact Hrun|exact Hlen].
Defined.

(** C1, as claimed, fails: the property [x] holds a list of length 1, and
    the payload is drained in two ticks, the second of which does not
    carry [x]. *)
Lemma drain_two_lists_counterexample :
  exists ticks w' clone rest,
    ("x", VArr 0) ∈ two_lists_payload /\
    length (array_at two_lists_world 0) = 1%nat /\
    drain 2 two_lists_payload two_lists_world = Ok ticks w' /\
    length ticks = 2%nat /\
    ticks !! 1%nat = Some (clone, rest) /\
    olookup "x" clone = None.
Proof.
  eexists _, _, _, _.
  split; [apply list_elem_of_In; cbn; tauto|]. split; [reflexivity|].
  split; [vm_compute; reflexivity|].
  split; [reflexivity|]. split; reflexivity.
Qed.

(** C3: an update of [x] for a node whose update command is pending. *)
Lemma addCommand_merges_updates_witness :
  exists w',
    Surface_addCommand UPDATE_COMMAND 0 [("x", VNum 2)] one_node_world = Ok tt w' /\
    one_update_per_id (buffer w') /\
    buffer w' = [mkCommand UPDATE_COMMAND [("id", VStr "algoid-1"); ("x", VNum 2)]].
Proof.
  assert (one_update_per_id (commands one_node_surface)) as Hinv.
  { intros i j ci cj Hi Hj _ _.
    apply list_lookup_singleton_Some in Hi as [-> _].
    apply list_lookup_singleton_Some in Hj as [-> _]. reflexivity. }
  pose proof (addCommand_merges_updates one_node_world one_node_surface one_node
                UPDATE_COMMAND 0%nat [("x", VNum 2)] eq_refl eq_refl eq_refl
                ltac:(by_computation) Hinv) as H.
  destruct (Surface_addCommand UPDATE_COMMAND 0 [("x", VNum 2)] one_node_world)
    as [[] w'|e w'|] eqn:E; [|vm_compute in E; discriminate..].
  exists w'. split; [reflexivity|]. split; [exact (proj1 H)|].
  vm_compute in E. injection E as <-. reflexivity.
Defined.

(** C2, as claimed, fails: the first Pause batch has two update commands,
    none of which carries [more], and it is the second acknowledge that
    resumes the algorithm, whose next Pause follows. *)
Lemma two_colours_first_batch_counterexample :
  exists app1 w1 app2 w2 app3 w3 batch1 y1 batch2 y2,
    WorkerApp_ctor no_shapes minus_on_integers 4
      (example no_shapes minus_on_integers 4 iRED iBLUE (VStr "step 1")
               (mkGenerator [ret (VStr "step 2")] (ret tt))) empty_world = Ok app1 w1 /\
    posted w1 = [M_Initialize_ACK; M_Pause batch1 y1] /\
    length batch1 = 2%nat /\
    Forall (fun c => olookup "more" (options c) = None) batch1 /\
    WorkerApp_pauseOrContinue app1 w1 = Ok app2 w2 /\
    posted w2 = posted w1 ++ [M_Pause batch2 y2] /\
    WorkerApp_pauseOrContinue app2 w2 = Ok app3 w3 /\
    posted w3 = posted w2 ++ [M_Pause [] (VStr "step 2")].
Proof.
  eexists _, _, _, _, _, _, _, _, _, _.
  split; [vm_compute; reflexivity|].
  split; [reflexivity|]. split; [reflexivity|].
  split; [repeat constructor|].
  split; [vm_compute; reflexivity|].
  split; [reflexivity|].
  split; [vm_compute; reflexivity|].
  reflexivity.
Qed.

(** C4: the history of the two-colour example, sought to 1, 2 and 3. *)
Lemma seek_forward_twice_witness :
  exists r' w',
    (let* r0 := Surface_executeCommandHistory no_shapes minus_on_integers 5
                  (mkReplay two_colours_history (Some (-1)%Z)) 1 in
     let* r1 := Surface_executeCommandHistory no_shapes minus_on_integers 5 r0 2 in
     Surface_executeCommandHistory no_shapes minus_on_integers 5 r1 3) renderer_world
    = Ok r' w' /\
    (let* h := replay_from_empty no_shapes minus_on_integers 5 two_colours_history 3 in
     ret (mkReplay h (Some 3%Z))) renderer_world
    = Ok r' w'.
Proof.
  eexists _, _. split; [vm_compute; reflexivity|].
  etransitivity; [|vm_compute; reflexivity].
  symmetry.
  exact (seek_forward_twice no_shapes minus_on_integers 5
           (mkReplay two_colours_history (Some (-1)%Z)) 1 2 3 renderer_world
           eq_refl ltac:(lia) ltac:(lia)).
Defined.

(** C9: the parent of the family is destroyed, and then once more. *)
Lemma destroy_refuses_second_call_witness :
  exists w',
    Element_destroy 3 3 (world_after (family no_shapes minus_on_integers 4)) = Ok tt w' /\
    Element_destroy 1 3 w' = Throw "Destroy already called in Element::destroy" w'.
Proof.
  assert (exists el, elements (world_after (family no_shapes minus_on_integers 4)) !! 3%nat = Some el)
    as [el Hel] by (eexists; vm_compute; reflexivity).
  destruct (destroy_refuses_second_call 2 3 _ el Hel) as [_ Hfirst].
  eexists. split; [vm_compute; reflexivity|].
  edestruct Hfirst as (_ & el' & _ & _ & Hagain); [vm_compute; reflexivity|].
  apply (Hagain 0%nat).
Defined.

(** C9, as claimed, fails: a node whose id was changed is not flagged as
    destroyed, and [destroy] raises on it; it is not flagged afterwards
    either. *)
Lemma destroy_renamed_node_counterexample :
  exists e w el w' el',
    renamed_node no_shapes minus_on_integers 4 empty_world = Ok e w /\
    elements w !! e = Some el /\ oget "destroyed" (own el) = VUndef /\
    Element_destroy 2 e w = Throw "Missing Element" w' /\
    elements w' !! e = Some el' /\ oget "destroyed" (own el') = VUndef.
Proof.
  eexists _, _, _, _, _.
  split; [vm_compute; reflexivity|].
  split; [vm_compute; reflexivity|]. split; [reflexivity|].
  split; [vm_compute; reflexivity|].
  split; [vm_compute; reflexivity|]. reflexivity.
Qed.



(** The keys that [set] treats specially are no plain properties: a node
    that is set to the parent that it has is taken out of the group of the
    parent and put back, and an update command is recorded for it. *)
Lemma set_same_parent_records_update :
  exists el w' el' c,
    elements two_states_world !! 1%nat = Some el /\ oget "parent" (own el) = VElem 0 /\
    buffer two_states_world = [] /\
    set no_shapes minus_on_integers 2 1 (Some [("parent", VElem 0)]) 0 two_states_world
    = Ok tt w' /\
    elements w' !! 1%nat = Some el' /\ oget "parent" (own el') = VElem 0 /\
    buffer w' = [c] /\ name c = UPDATE_COMMAND /\ oget "id" (options c) = VStr "algoid-1".
Proof.
  eexists _, _, _, _.
  split; [reflexivity|]. split; [reflexivity|]. split; [reflexivity|].
  split; [vm_compute; reflexivity|].
  split; [reflexivity|]. split; [reflexivity|].
  split; [reflexivity|]. split; reflexivity.
Qed.





(** C5: the parent of the family is destroyed. *)
Lemma destroy_children_first_witness :
  exists w',
    Element_destroy 2 3 (world_after (family no_shapes minus_on_integers 4)) = Ok tt w' /\
    buffer w' = [mkCommand DESTROY_COMMAND [("id", VStr "algoid-2")];
                 mkCommand DESTROY_COMMAND [("id", VStr "algoid-3")];
                 mkCommand DESTROY_COMMAND [("id", VStr "algoid-1")]].
Proof.
  destruct (destroy_children_first 2 family_tree (VElem 0)
              (world_after (family no_shapes minus_on_integers 4))
              (mkSurface WORKER [] (VElem 0)))
    as (w' & Hrun & _ & _ & _ & Hthree).
  - vm_compute. lia.
  - vm_compute. reflexivity.
  - cbn [shape family_tree fold_right].
    repeat split; try (eexists; vm_compute; reflexivity);
      try (eexists; split; [vm_compute; reflexivity|repeat split; reflexivity]);
      vm_compute; reflexivity.
  - by_computation.
  - by_computation.
  - by_computation.
  - right. exists 0%nat, 1%nat. split; [reflexivity|].
    split; [by_computation|]. split; [vm_compute; reflexivity|by_computation].
  - exists w'. split; [exact Hrun|].
    rewrite (Hthree _ _ _ _ _ _ _ _ _ eq_refl eq_refl). vm_compute. reflexivity.
Defined.

(** X2: a node that the group holds twice is removed; its first
    occurrence goes, and the members before and after it stay in their
    order. *)
Lemma group_remove_first_occurrence_witness :
  ElementGroup_remove 0 (VElem 1) crowded_group_world
  = Ok tt (set_arrays <[0%nat := [VElem 2; VElem 3; VElem 1]]> crowded_group_world).
Proof.
  apply (group_remove_first_occurrence 0 1 [VElem 2] [VElem 3; VElem 1] crowded_group_world).
  - reflexivity.
  - intros H. apply list_elem_of_singleton in H. discriminate.
Defined.

(** X3: the first child of the root is moved under the second. *)
Lemma set_parent_moves_node_witness :
  exists w' el',
    set no_shapes minus_on_integers 1 1 (Some [("parent", VElem 2)]) 0 three_nodes_world = Ok tt w' /\
    (VElem 1 ∉ array_at w' 0) /\ VElem 1 ∈ array_at w' 3 /\
    elements w' !! 1%nat = Some el' /\ oget "parent" (own el') = VElem 2 /\
    oget "parentID" (own el') = VStr "algoid-2".
Proof.
  destruct (set_parent_moves_node no_shapes minus_on_integers 0 1 two_states_node
              0 lone_root 0 2 second_node 3 (mkSurface WORKER [] (VElem 0)) three_nodes_world)
    as (w' & el' & Hrun & Hout & Hin & Hel' & Hparent & Hpid & _);
    [reflexivity|discriminate|reflexivity|reflexivity|reflexivity|reflexivity|reflexivity
    |lia|lia| |reflexivity|reflexivity|].
  - apply NoDup_cons. split; [|apply NoDup_singleton].
    intros H%list_elem_of_singleton. discriminate.
  - exists w', el'. auto 10.
Defined.

(** X4: a node is set to a new [x] and to a state that it does not have. *)
Lemma set_unregistered_state_keeps_writes_witness :
  exists w' el',
    set no_shapes minus_on_integers 1 1 (Some [("x", VNum 5); ("state", VStr "c")]) 0 two_states_world
    = Throw "Attempt to apply unregistered state" w' /\
    elements w' !! 1%nat = Some el' /\ oget "x" (own el') = VNum 5 /\
    buffer w' = buffer two_states_world.
Proof.
  destruct (set_unregistered_state_keeps_writes no_shapes minus_on_integers 0 1 two_states_node
              [("x", VNum 5)] (VStr "c") two_states_world eq_refl
              ltac:(repeat constructor; by_computation) eq_refl eq_refl eq_refl eq_refl)
    as [Hrun Hbuf].
  eexists _, _. split; [exact Hrun|]. split; [reflexivity|]. split; [reflexivity|exact Hbuf].
Defined.

(** X5: a pause with one update command in the buffer. *)
Lemma pause_sends_every_command_witness :
  exists app' active w',
    WorkerApp_pause idle_app VUndef one_node_world = Ok app' w' /\
    posted w' = [M_Pause active VUndef] /\ length active = 1%nat /\ buffer w' = [].
Proof.
  destruct (pause_sends_every_command idle_app VUndef one_node_world one_node_surface eq_refl)
    as (app' & active & w' & Hrun & Hposted & Hsent & _ & Hbuf & _).
  - repeat constructor.
  - exists app', active, w'. split; [exact Hrun|]. split; [exact Hposted|].
    split; [|exact Hbuf]. now apply Forall2_length in Hsent.
Defined.

(** X6: the retained update command has a list left, so that the
    acknowledge is answered with another batch of one command. *)
Lemma pauseOrContinue_sends_pending_witness :
  exists app' active w',
    WorkerApp_pauseOrContinue waiting_app two_lists_world = Ok app' w' /\
    posted w' = [M_Pause active (VObj [("autoskip", VBool true)])] /\
    length active = 1%nat.
Proof.
  destruct (pauseOrContinue_sends_pending waiting_app two_lists_world)
    as (app' & active & w' & Hrun & Hposted & Hsent & _).
  - apply Exists_cons_hd. reflexivity.
  - repeat constructor.
  - exists app', active, w'. split; [exact Hrun|]. split; [exact Hposted|].
    now apply Forall2_length in Hsent.
Defined.

(** X7: nothing is left of the last batch, and the algorithm, which has
    no step left, is done. *)
Lemma pauseOrContinue_resumes_witness :
  WorkerApp_pauseOrContinue idle_app one_node_world = WorkerApp_continue idle_app one_node_world /\
  exists app' w', WorkerApp_pauseOrContinue idle_app one_node_world = Ok app' w' /\
                  posted w' = [M_Done (commands one_node_surface)].
Proof.
  assert (WorkerApp_pauseOrContinue idle_app one_node_world
          = WorkerApp_continue idle_app one_node_world) as H.
  { apply pauseOrContinue_resumes. repeat constructor. }
  split; [exact H|]. rewrite H. eexists _, _. split; reflexivity.
Defined.

(** * [algo.core.Array]: indices, round trips and notifications *)

Module CoreArrayProperties.
Import CoreArray.
Local Open Scope Z_scope.

Lemma updateElements_is_identity arr : updateElements arr = Returns arr.
Proof. reflexivity. Qed.

Lemma insert_then_remove {A} (l : list A) (x : A) (n : nat) :
  (n <= length l)%nat ->
  (take n l ++ x :: drop n l) !! n = Some x /\
  take n (take n l ++ x :: drop n l) ++ drop (S n) (take n l ++ x :: drop n l) = l.
Proof.
  intros Hn. assert (length (take n l) = n) as Hlen by (rewrite length_take; lia). split.
  - apply list_lookup_middle. now symmetry.
  - rewrite take_app_length' by lia.
    rewrite (cons_middle x), (assoc_L (++)).
    rewrite drop_app_length' by (rewrite length_app, Hlen; cbn; lia).
    apply take_drop.
Qed.

Lemma validateIndex_Int (i : Z) arr :
  validateIndex (Int i) arr = false <-> 0 <= i < Z.of_nat (length (a arr)).
Proof.
  unfold validateIndex, less, greater_eq, length_of. rewrite orb_false_iff, Z.ltb_ge, Z.leb_gt. lia.
Qed.

Lemma item_at_Int (i : Z) arr :
  0 <= i -> item_at arr (Int i) = a arr !! Z.to_nat i.
Proof. intros H. unfold item_at. destruct (Z.ltb_spec i 0); [lia|reflexivity]. Qed.

Lemma item_at_valid (i : Z) arr :
  0 <= i < Z.of_nat (length (a arr)) -> exists it, item_at arr (Int i) = Some it.
Proof.
  intros H. rewrite item_at_Int by lia. apply lookup_lt_is_Some. lia.
Qed.

(** X8.  [removeAt(i)] undoes [insertAt(v, i)] for every index from 0 to
    the length: both return, the inserted value is read at [i] in between,
    and the array has its old items afterwards; in particular [pop] undoes
    [push]. *)
Theorem removeAt_undoes_insertAt (v : value) (i : Z) (arr : Array) :
  0 <= i <= Z.of_nat (length (a arr)) ->
  exists arr1 arr2,
    insertAt v (Int i) arr = Returns arr1 /\
    getValue (Int i) arr1 = Value v /\
    removeAt (Int i) arr1 = Returns arr2 /\
    a arr2 = a arr /\
    (i = Z.of_nat (length (a arr)) -> push v arr = Returns arr1 /\ pop arr1 = Returns arr2).
Proof.
  intros Hi.
  assert (less (Int i) (Int 0) || greater (Int i) (length_of arr) = false) as Hbounds.
  { unfold less, greater, length_of. rewrite orb_false_iff, Z.ltb_ge, Z.ltb_ge. lia. }
  destruct (insert_then_remove (a arr) (mkItem v (invoke_createElement v (Int i) arr).2)
              (Z.to_nat i) ltac:(lia)) as [Hat Hback].
  assert (exists arr1,
            insertAt v (Int i) arr = Returns arr1 /\
            a arr1 = take (Z.to_nat i) (a arr)
                     ++ mkItem v (invoke_createElement v (Int i) arr).2 :: drop (Z.to_nat i) (a arr))
    as (arr1 & Hins & Ha1).
  { unfold insertAt. rewrite Hbounds. unfold invoke_createElement.
    destruct (has_createElement (options arr)); eexists; split; reflexivity. }
  assert (length (a arr1) = S (length (a arr))) as Hlen1.
  { rewrite Ha1, length_app, length_take. cbn. rewrite length_drop. lia. }
  assert (validateIndex (Int i) arr1 = false) as Hvalid by (apply validateIndex_Int; lia).
  assert (exists arr2, removeAt (Int i) arr1 = Returns arr2 /\ a arr2 = a arr) as (arr2 & Hrem & Ha2).
  { unfold removeAt. rewrite Hvalid. cbn [to_integer]. rewrite Ha1, Hat, Hback.
    destruct (truthy _); [unfold invoke_destroyElement; destruct (has_destroyElement _)|];
      eexists; split; reflexivity. }
  exists arr1, arr2. split; [exact Hins|]. split; [|split; [exact Hrem|split; [exact Ha2|]]].
  - unfold getValue. rewrite Hvalid, item_at_Int, Ha1, Hat by lia. reflexivity.
  - intros ->. unfold push, pop. split; [exact Hins|].
    rewrite Hlen1. replace (Z.of_nat (S (length (a arr))) - 1) with (Z.of_nat (length (a arr))) by lia.
    exact Hrem.
Qed.

(** X9.  An integer index is refused with ["Invalid Index"] exactly when it
    is out of range, and the call returns otherwise: the range is 0 to the
    length for [insertAt], and 0 to the length less one for [removeAt],
    [getValue], [getElement] and [setValue]; [pop] is refused on the empty
    array. *)
Theorem integer_index_is_validated (v : value) (i : Z) (arr : Array) :
  let n := Z.of_nat (length (a arr)) in
  (if decide (0 <= i <= n) then exists arr', insertAt v (Int i) arr = Returns arr'
   else insertAt v (Int i) arr = Throws "Invalid Index") /\
  (if decide (0 <= i < n)
   then (exists arr', removeAt (Int i) arr = Returns arr') /\
        (exists x, getValue (Int i) arr = Value x) /\
        (exists e, getElement (Int i) arr = Value e) /\
        (exists arr', setValue (Int i) v arr = Returns arr')
   else removeAt (Int i) arr = Throws "Invalid Index" /\
        getValue (Int i) arr = Fails "Invalid Index" /\
        getElement (Int i) arr = Fails "Invalid Index" /\
        setValue (Int i) v arr = Throws "Invalid Index") /\
  (a arr = [] -> pop arr = Throws "Invalid Index").
Proof.
  intros n. split; [|split].
  - unfold insertAt, less, greater, length_of. fold n.
    destruct (decide (0 <= i <= n)) as [H|H].
    + replace ((i <? 0) || (n <? i)) with false
        by (symmetry; rewrite orb_false_iff, !Z.ltb_ge; lia).
      unfold invoke_createElement. destruct (has_createElement _); eexists; reflexivity.
    + replace ((i <? 0) || (n <? i)) with true; [reflexivity|].
      symmetry. rewrite orb_true_iff, !Z.ltb_lt. lia.
  - destruct (decide (0 <= i < n)) as [H|H].
    + pose proof (proj2 (validateIndex_Int i arr) H) as Hvalid.
      destruct (item_at_valid i arr H) as [it Hit].
      unfold removeAt, getValue, getElement, setValue. rewrite Hvalid, Hit.
      rewrite item_at_Int in Hit by lia. cbn [to_integer]. rewrite Hit.
      repeat split; eauto.
    + assert (validateIndex (Int i) arr = true) as Hvalid.
      { destruct (validateIndex (Int i) arr) eqn:E; [reflexivity|].
        apply validateIndex_Int in E. contradiction. }
      unfold removeAt, getValue, getElement, setValue. rewrite Hvalid. repeat split.
  - intros Hempty. unfold pop, removeAt. rewrite Hempty. reflexivity.
Qed.

(** X10.  An index that is not a number (an omitted one) is not refused as
    invalid, since every comparison with it fails: [insertAt] inserts at
    the front, [removeAt] removes the first item and fails with a
    TypeError on the empty array, and [getValue], [getElement] and
    [setValue] fail with a TypeError. *)
Theorem unset_index_is_not_refused (v : value) (arr : Array) :
  (exists arr', insertAt v NaN arr = Returns arr' /\ values arr' = v :: values arr) /\
  match a arr with
  | [] => removeAt NaN arr = Throws TypeError
  | _ :: rest => exists arr', removeAt NaN arr = Returns arr' /\ a arr' = rest
  end /\
  getValue NaN arr = Fails TypeError /\
  getElement NaN arr = Fails TypeError /\
  setValue NaN v arr = Throws TypeError.
Proof.
  split; [|split; [|repeat split]].
  - unfold insertAt. cbn [less greater orb to_integer Z.to_nat take drop List.app].
    unfold invoke_createElement. destruct (has_createElement _); eexists; split; reflexivity.
  - unfold removeAt. cbn [validateIndex less greater_eq orb to_integer Z.to_nat].
    destruct (a arr) as [|it rest]; [reflexivity|]. cbn [lookup list_lookup take drop List.app].
    eexists. split; [reflexivity|].
    destruct (truthy (item_element it));
      [unfold invoke_destroyElement; destruct (has_destroyElement _)|]; reflexivity.
Qed.

(** X11.  [setValue(i, v)] at a valid index returns; [getValue(i)] is then
    [v], every other value and every element are as before, and
    [updateElement] is notified once, for the index [i], exactly when the
    item has an element and the callback is given. *)
Theorem getValue_after_setValue (i : Z) (v : value) (arr : Array) :
  0 <= i < Z.of_nat (length (a arr)) ->
  exists arr' it,
    setValue (Int i) v arr = Returns arr' /\
    item_at arr (Int i) = Some it /\
    getValue (Int i) arr' = Value v /\
    (forall j, j <> i -> getValue (Int j) arr' = getValue (Int j) arr) /\
    (forall j, getElement (Int j) arr' = getElement (Int j) arr) /\
    calls arr' = calls arr ++
                 (if truthy (item_element it) && has_updateElement (options arr)
                  then [updateElement v (Int i) (item_element it)] else []).
Proof.
  intros Hi. destruct (item_at_valid i arr Hi) as [it Hit].
  pose proof (proj2 (validateIndex_Int i arr) Hi) as Hvalid.
  set (arr1 := mkArray (<[Z.to_nat i := mkItem v (item_element it)]> (a arr)) (options arr) (calls arr)).
  set (arr' := if truthy (item_element it)
               then invoke_updateElement v (Int i) (item_element it) arr1 else arr1).
  assert (setValue (Int i) v arr = Returns arr') as Hset.
  { unfold setValue. now rewrite Hvalid, Hit. }
  assert (a arr' = <[Z.to_nat i := mkItem v (item_element it)]> (a arr)) as Ha.
  { unfold arr', invoke_updateElement. destruct (truthy _); [destruct (has_updateElement _)|];
      reflexivity. }
  assert (forall j, validateIndex (Int j) arr' = validateIndex (Int j) arr) as Hv.
  { intros j. unfold validateIndex, length_of. now rewrite Ha, length_insert. }
  rewrite item_at_Int in Hit by lia.
  exists arr', it. split; [exact Hset|]. split; [now rewrite item_at_Int by lia|].
  split; [|split; [|split]].
  - unfold getValue. rewrite Hv, Hvalid, item_at_Int, Ha by lia.
    rewrite list_lookup_insert_eq by lia. reflexivity.
  - intros j Hj. unfold getValue. rewrite Hv.
    destruct (validateIndex (Int j) arr) eqn:E; [reflexivity|].
    apply validateIndex_Int in E. rewrite !item_at_Int, Ha by lia.
    rewrite list_lookup_insert_ne by lia. reflexivity.
  - intros j. unfold getElement. rewrite Hv.
    destruct (validateIndex (Int j) arr) eqn:E; [reflexivity|].
    apply validateIndex_Int in E. rewrite !item_at_Int, Ha by lia.
    destruct (decide (j = i)) as [->|Hne].
    + rewrite list_lookup_insert_eq, Hit by lia. reflexivity.
    + rewrite list_lookup_insert_ne by lia. reflexivity.
  - unfold arr', invoke_updateElement. cbn [options arr1].
    destruct (truthy _); [destruct (has_updateElement _)|]; cbn; now rewrite ?app_nil_r.
Qed.

Lemma swapped_lookups {A} (l : list A) (i j : nat) (p q : A) :
  l !! i = Some p -> l !! j = Some q ->
  let l' := <[j := p]> (<[i := q]> l) in
  l' !! i = Some q /\ l' !! j = Some p /\
  (forall k, k <> i -> k <> j -> l' !! k = l !! k) /\
  <[j := q]> (<[i := p]> l') = l.
Proof.
  intros Hi Hj l'.
  assert (i < length l)%nat as Hli by (now apply lookup_lt_Some in Hi).
  assert (j < length l)%nat as Hlj by (now apply lookup_lt_Some in Hj).
  assert (forall k x y, (k < length l)%nat ->
            <[j := x]> (<[i := y]> l) !! k
            = if decide (k = j) then Some x else if decide (k = i) then Some y else l !! k) as Hlook.
  { intros k x y Hk. destruct (decide (k = j)) as [->|Hkj].
    - apply list_lookup_insert_eq. now rewrite length_insert.
    - rewrite list_lookup_insert_ne by congruence. destruct (decide (k = i)) as [->|Hki].
      + now apply list_lookup_insert_eq.
      + now rewrite list_lookup_insert_ne by congruence. }
  split; [|split; [|split]].
  - unfold l'. rewrite Hlook by assumption. destruct (decide (i = j)) as [->|_]; [congruence|].
    now rewrite decide_True.
  - unfold l'. rewrite Hlook by assumption. now rewrite decide_True.
  - intros k Hki Hkj. unfold l'. rewrite !list_lookup_insert_ne by congruence. reflexivity.
  - apply list_eq. intros k. destruct (decide (k < length l)%nat) as [Hk|Hk].
    + destruct (decide (k = j)) as [->|Hkj].
      * rewrite list_lookup_insert_eq by (unfold l'; now rewrite !length_insert). congruence.
      * rewrite list_lookup_insert_ne by congruence. destruct (decide (k = i)) as [->|Hki].
        -- rewrite list_lookup_insert_eq by (unfold l'; now rewrite !length_insert). congruence.
        -- rewrite list_lookup_insert_ne by congruence. unfold l'.
           now rewrite !list_lookup_insert_ne by congruence.
    + rewrite !lookup_ge_None_2; [reflexivity|lia|]. unfold l'. rewrite !length_insert. lia.
Qed.

Lemma updateElement_calls_swaps (cs : list call) (ds : list call) :
  Forall (fun c => match c with swapElement _ _ _ _ => True | _ => False end) ds ->
  updateElement_calls (cs ++ ds) = updateElement_calls cs.
Proof.
  intros Hds. unfold updateElement_calls. rewrite List.filter_app.
  replace (List.filter _ ds) with (@nil call); [apply app_nil_r|].
  induction Hds as [|c ds Hc _ IH]; [reflexivity|]. cbn. now destruct c.
Qed.

(** The array after [swap] of two items. *)
Lemma swap_returns (x y : Z) (arr : Array) (p q : item) :
  a arr !! Z.to_nat x = Some p -> a arr !! Z.to_nat y = Some q -> 0 <= x -> 0 <= y ->
  exists arr',
    swap (Int x) (Int y) arr = Returns arr' /\
    a arr' = <[Z.to_nat y := p]> (<[Z.to_nat x := q]> (a arr)) /\
    options arr' = options arr /\
    updateElement_calls (calls arr') = updateElement_calls (calls arr).
Proof.
  intros Hp Hq Hx Hy.
  assert (0 <= x < Z.of_nat (length (a arr))) as Hxr by (apply lookup_lt_Some in Hp; lia).
  assert (0 <= y < Z.of_nat (length (a arr))) as Hyr by (apply lookup_lt_Some in Hq; lia).
  destruct (swapped_lookups (a arr) _ _ p q Hp Hq) as (Hx' & Hy' & _ & _).
  unfold swap. rewrite (proj2 (validateIndex_Int x arr) Hxr), (proj2 (validateIndex_Int y arr) Hyr).
  rewrite !item_at_Int, Hp, Hq by lia. cbn [to_integer].
  rewrite !item_at_Int by lia. cbn [a]. rewrite Hx', Hy'.
  eexists. split; [reflexivity|]. unfold invoke_swapElement. cbn [options].
  destruct (truthy (item_element q)), (truthy (item_element p)),
    (has_swapElement (options arr)) eqn:Es;
    repeat (cbn [log a options calls]; rewrite ?Es);
    (split; [reflexivity|split; [reflexivity|]]);
    rewrite <- ?(assoc_L (++)); try reflexivity;
    apply updateElement_calls_swaps; repeat constructor.
Qed.

(** X12.  [swap(x, y)] at valid indices returns with the two values
    exchanged and every other value in its place; a second [swap(x, y)]
    gives the items back.  It notifies [swapElement] only: no
    [updateElement] call is made, whatever callbacks are given. *)
Theorem swap_exchanges (x y : Z) (arr : Array) :
  0 <= x < Z.of_nat (length (a arr)) -> 0 <= y < Z.of_nat (length (a arr)) ->
  exists arr',
    swap (Int x) (Int y) arr = Returns arr' /\
    getValue (Int x) arr' = getValue (Int y) arr /\
    getValue (Int y) arr' = getValue (Int x) arr /\
    (forall j, j <> x -> j <> y -> getValue (Int j) arr' = getValue (Int j) arr) /\
    updateElement_calls (calls arr') = updateElement_calls (calls arr) /\
    exists arr'', swap (Int x) (Int y) arr' = Returns arr'' /\ a arr'' = a arr.
Proof.
  intros Hx Hy.
  destruct (item_at_valid x arr Hx) as [p Hp]. destruct (item_at_valid y arr Hy) as [q Hq].
  rewrite item_at_Int in Hp, Hq by lia.
  destruct (swap_returns x y arr p q Hp Hq) as (arr' & Hswap & Ha & Hopts & Hcalls); [lia..|].
  destruct (swapped_lookups (a arr) _ _ p q Hp Hq) as (Hx' & Hy' & Hother & Hback).
  rewrite <- Ha in Hx', Hy', Hother, Hback.
  assert (forall j, validateIndex (Int j) arr' = validateIndex (Int j) arr) as Hv.
  { intros j. unfold validateIndex, length_of. now rewrite Ha, !length_insert. }
  exists arr'. split; [exact Hswap|]. split; [|split; [|split; [|split; [exact Hcalls|]]]].
  - unfold getValue. rewrite Hv, (proj2 (validateIndex_Int x arr) Hx),
      (proj2 (validateIndex_Int y arr) Hy), !item_at_Int, Hx', Hq by lia. reflexivity.
  - unfold getValue. rewrite Hv, (proj2 (validateIndex_Int x arr) Hx),
      (proj2 (validateIndex_Int y arr) Hy), !item_at_Int, Hy', Hp by lia. reflexivity.
  - intros j Hjx Hjy. unfold getValue. rewrite Hv.
    destruct (validateIndex (Int j) arr) eqn:E; [reflexivity|].
    apply validateIndex_Int in E. rewrite !item_at_Int by lia.
    rewrite Hother by lia. reflexivity.
  - destruct (swap_returns x y arr' q p Hx' Hy') as (arr'' & Hswap' & Ha' & _); [lia..|].
    exists arr''. split; [exact Hswap'|]. now rewrite Ha'.
Qed.

(** The loop of the constructor, from an array that holds items already. *)
Lemma push_each_returns (data : list value) : forall arr0 : Array,
  exists arr,
    push_each data arr0 = Returns arr /\
    options arr = options arr0 /\
    a arr = a arr0 ++ imap (fun k e =>
                              mkItem e (invoke_createElement e
                                          (Int (Z.of_nat (length (a arr0) + k))) arr0).2) data /\
    updateElement_calls (calls arr) = updateElement_calls (calls arr0).
Proof.
  induction data as [|e data IH]; intros arr0.
  - exists arr0. cbn. now rewrite app_nil_r.
  - cbn [push_each].
    assert (exists arr1,
              push e arr0 = Returns arr1 /\ options arr1 = options arr0 /\
              a arr1 = a arr0 ++ [mkItem e (invoke_createElement e
                                              (Int (Z.of_nat (length (a arr0)))) arr0).2] /\
              updateElement_calls (calls arr1) = updateElement_calls (calls arr0))
      as (arr1 & Hpush & Hopts & Ha1 & Hcalls).
    { unfold push, insertAt, less, greater, length_of.
      replace ((Z.of_nat (length (a arr0)) <? 0) || (Z.of_nat (length (a arr0)) <? Z.of_nat (length (a arr0))))
        with false by (symmetry; rewrite orb_false_iff, !Z.ltb_ge; lia).
      cbn [to_integer]. rewrite Nat2Z.id. unfold invoke_createElement.
      destruct (has_createElement (options arr0)); (eexists; split; [reflexivity|]);
        cbn [a options calls log snd]; rewrite take_ge, drop_ge by lia;
        (split; [reflexivity|split; [reflexivity|]]); [|reflexivity].
      unfold updateElement_calls. rewrite List.filter_app. cbn. apply app_nil_r. }
    rewrite Hpush. destruct (IH arr1) as (arr & Hrun & Hopts' & Ha & Hcalls').
    exists arr. split; [exact Hrun|]. split; [congruence|]. split; [|congruence].
    rewrite Ha, Ha1, <- (assoc_L (++)). f_equal. cbn [List.app]. rewrite imap_cons.
    f_equal.
    + now rewrite Nat.add_0_r.
    + apply imap_ext. intros k x _. cbn. rewrite length_app. cbn [length].
      unfold invoke_createElement. rewrite Hopts.
      replace (length (a arr0) + 1 + k)%nat with (length (a arr0) + S k)%nat by lia.
      destruct (has_createElement (options arr0)); reflexivity.
Qed.

(** X13.  The constructor returns for every list of initial data, with the
    data as the values of the array in their order; the element of each
    item is what [createElement] returned for the value and its index
    ([undefined] without the callback), and no [updateElement] call is
    made. *)
Theorem new_Array_holds_data (opts : Options) (data : list value) :
  exists arr,
    new_Array opts data = Returns arr /\
    values arr = data /\
    (forall k e, data !! k = Some e ->
       getValue (Int (Z.of_nat k)) arr = Value e /\
       getElement (Int (Z.of_nat k)) arr
       = Value (match has_createElement opts with
                | Some f => f e (Int (Z.of_nat k))
                | None => VUndef
                end)) /\
    updateElement_calls (calls arr) = [].
Proof.
  destruct (push_each_returns data (mkArray [] opts [])) as (arr & Hrun & Hopts & Ha & Hcalls).
  cbn [a length List.app Nat.add options] in Ha, Hopts.
  assert (forall k, a arr !! k
                    = (fun e => mkItem e (match has_createElement opts with
                                          | Some f => f e (Int (Z.of_nat k))
                                          | None => VUndef
                                          end)) <$> data !! k) as Hlook.
  { intros k. rewrite Ha, list_lookup_imap. destruct (data !! k); [|reflexivity]. cbn.
    unfold invoke_createElement. cbn [options]. now destruct (has_createElement opts). }
  exists arr. split; [exact Hrun|]. split; [|split; [|exact Hcalls]].
  - unfold values. apply list_eq. intros k. rewrite list_lookup_fmap, Hlook.
    now destruct (data !! k).
  - intros k e Hk.
    assert (0 <= Z.of_nat k < Z.of_nat (length (a arr))) as Hr.
    { rewrite Ha, length_imap. apply lookup_lt_Some in Hk. lia. }
    unfold getValue, getElement. rewrite (proj2 (validateIndex_Int _ arr) Hr).
    rewrite item_at_Int, Nat2Z.id, Hlook, Hk by lia. split; reflexivity.
Qed.

(** X8: a value is inserted in the middle of three items and removed. *)
Lemma removeAt_undoes_insertAt_witness :
  exists arr1 arr2,
    insertAt (VNum 5) (Int 1) three_items = Returns arr1 /\
    getValue (Int 1) arr1 = Value (VNum 5) /\
    removeAt (Int 1) arr1 = Returns arr2 /\ a arr2 = a three_items.
Proof.
  destruct (removeAt_undoes_insertAt (VNum 5) 1 three_items) as (arr1 & arr2 & H1 & H2 & H3 & H4 & _);
    [cbn; lia|].
  exists arr1, arr2. auto.
Defined.

(** X11: the first of three items is set. *)
Lemma getValue_after_setValue_witness :
  exists arr',
    setValue (Int 0) (VNum 7) three_items = Returns arr' /\
    getValue (Int 0) arr' = Value (VNum 7) /\
    calls arr' = [updateElement (VNum 7) (Int 0) (VStr "e0")].
Proof.
  destruct (getValue_after_setValue 0 (VNum 7) three_items)
    as (arr' & it & Hset & Hit & Hget & _ & _ & Hcalls); [cbn; lia|].
  injection Hit as <-. exists arr'. auto.
Defined.

(** X12: the first and the last of three items are swapped. *)
Lemma swap_exchanges_witness :
  exists arr',
    swap (Int 0) (Int 2) three_items = Returns arr' /\
    getValue (Int 0) arr' = Value (VNum 30) /\ getValue (Int 2) arr' = Value (VNum 10) /\
    updateElement_calls (calls arr') = [].
Proof.
  destruct (swap_exchanges 0 2 three_items) as (arr' & Hswap & H0 & H2 & _ & Hcalls & _);
    [cbn; lia..|].
  exists arr'. auto.
Defined.

End CoreArrayProperties.

(** * The array helpers of [core.js] *)

Module CoreProperties.
Import Core.
Local Open Scope Z_scope.

Lemma shr_half (n : Z) : 0 <= n < 2 ^ 31 -> shr n 1 = n / 2.
Proof.
  intros H. unfold shr, to_int32. rewrite Z.mod_small by lia.
  replace (n + 2 ^ 31 - 2 ^ 31) with n by lia. now rewrite Z.shiftr_div_pow2 by lia.
Qed.

Lemma slice_in_range (a : list prim) (s e : Z) :
  0 <= s <= e -> e <= Z.of_nat (length a) ->
  slice a s e = take (Z.to_nat (e - s)) (drop (Z.to_nat s) a).
Proof.
  intros Hs He. unfold slice, relative_index.
  destruct (Z.ltb_spec s 0), (Z.ltb_spec e 0); try lia.
  now rewrite !Z.min_l by lia.
Qed.

Lemma slice_to_end (a : list prim) (s : Z) :
  0 <= s <= Z.of_nat (length a) -> slice a s (Z.of_nat (length a)) = drop (Z.to_nat s) a.
Proof.
  intros Hs. rewrite slice_in_range by lia. apply take_ge. rewrite length_drop. lia.
Qed.

Lemma slice_from_start (a : list prim) (e : Z) :
  0 <= e <= Z.of_nat (length a) -> slice a 0 e = take (Z.to_nat e) a.
Proof. intros He. rewrite slice_in_range by lia. now rewrite Z.sub_0_r. Qed.

Lemma js_get_lookup (a : list prim) (i : nat) (x : prim) :
  a !! i = Some x -> js_get a (Z.of_nat i) = x.
Proof.
  intros H. unfold js_get. destruct (Z.ltb_spec (Z.of_nat i) 0); [lia|].
  now rewrite Nat2Z.id, H.
Qed.

(** X14.  The copies of a part of an array: [copyArrayStart(a, n)] is the
    first [n] values and [copyArrayEnd(a, n)] the last [n] for [n] from 1
    to the length, but [copyArrayEnd(a, 0)] is the whole array, not the
    empty one; [copyArray(a, s, e)] is the values from [s] to [e - 1], and
    an end of 0 is taken for an omitted one, so that [copyArray(a, s, 0)]
    is the values from [s] on. *)
Theorem copies_of_a_part (a : list prim) :
  let len := Z.of_nat (length a) in
  (forall n, 0 <= n <= len -> copyArrayStart a n = take (Z.to_nat n) a) /\
  (forall n, 0 < n <= len -> copyArrayEnd a n = drop (Z.to_nat (len - n)) a) /\
  copyArrayEnd a 0 = a /\
  (forall s e, 0 <= s <= e -> e <= len -> e <> 0 ->
     copyArray a (Some s) (Some e) = take (Z.to_nat (e - s)) (drop (Z.to_nat s) a)) /\
  (forall s, 0 <= s <= len -> copyArray a (Some s) (Some 0) = drop (Z.to_nat s) a) /\
  copyArray a None None = a.
Proof.
  intros len. split; [|split; [|split; [|split; [|split]]]].
  - intros n Hn. unfold copyArrayStart. now apply slice_from_start.
  - intros n Hn. unfold copyArrayEnd, slice, relative_index. fold len.
    destruct (Z.ltb_spec (- n) 0), (Z.ltb_spec len 0); try lia.
    rewrite Z.max_l, Z.min_l by lia. replace (len + - n) with (len - n) by lia.
    apply take_ge. rewrite length_drop. lia.
  - unfold copyArrayEnd. cbn [Z.opp]. rewrite slice_to_end by lia. reflexivity.
  - intros s e Hs He Hne. unfold copyArray.
    destruct (Z.eqb_spec e 0); [contradiction|].
    destruct (Z.eqb_spec s 0) as [->|_]; now apply slice_in_range.
  - intros s Hs. unfold copyArray. cbn [Z.eqb].
    destruct (Z.eqb_spec s 0) as [->|_]; now apply slice_to_end.
  - unfold copyArray. rewrite slice_to_end by lia. reflexivity.
Qed.

(** ** [compare] *)

Lemma strict_equal_eq (x y : prim) :
  strict_equal x y = true <-> x = y /\ x <> PNum CoreArray.NaN.
Proof.
  split.
  - destruct x as [|b|[z|]], y as [|b'|[z'|]]; cbn; try discriminate; intros H.
    + split; [reflexivity|discriminate].
    + apply Bool.eqb_prop in H. subst. split; [reflexivity|discriminate].
    + apply Z.eqb_eq in H. subst. split; [reflexivity|discriminate].
  - intros [<- Hx]. destruct x as [|b|[z|]]; cbn;
      [reflexivity|apply Bool.eqb_reflx|apply Z.eqb_refl|now contradiction Hx].
Qed.

Lemma compareItems_zero (x y : prim) :
  is_zero (compareItems x y None) = strict_equal x y.
Proof.
  unfold compareItems. destruct (strict_equal x y); [reflexivity|].
  now destruct (less_than x y).
Qed.

(** X15.  Without a comparator, [compare(a, b)] is true exactly when the
    two arrays are the same list of values and hold no NaN: an array with
    a NaN in it does not compare equal to itself. *)
Theorem compare_is_equality (a b : list prim) :
  compare a b None = true <-> a = b /\ Forall (fun x => x <> PNum CoreArray.NaN) a.
Proof.
  unfold compare. revert b. induction a as [|x a IH]; intros [|y b]; cbn [length Nat.eqb negb].
  - split; [now split|reflexivity].
  - split; [discriminate|]. now intros [[=] _].
  - split; [discriminate|]. now intros [[=] _].
  - specialize (IH b). destruct (length a =? length b)%nat eqn:E; cbn [negb] in IH |- *.
    + cbn [zip_with forallb fst snd].
      rewrite andb_true_iff, compareItems_zero, strict_equal_eq, IH, Forall_cons.
      split; [intros [[-> ?] [-> ?]]; auto|intros [[= -> ->] [? ?]]; auto].
    + split; [discriminate|]. intros [[= -> ->] _]. now rewrite Nat.eqb_refl in E.
Qed.

(** ** [quickSortArray] *)

Lemma compare_with_undefined (z : Z) :
  is_negative (compareItems (num z) PUndefined None) = false.
Proof. reflexivity. Qed.

Lemma compare_of_boolean (b : bool) :
  is_negative (compareItems (PBool b) PUndefined None) = false.
Proof. now destruct b. Qed.

Lemma js_get_integer (a : list prim) (i : nat) :
  integers a -> (i < length a)%nat -> exists z, js_get a (Z.of_nat i) = num z.
Proof.
  intros Ha Hi. destruct (lookup_lt_is_Some_2 a i Hi) as [x Hx].
  rewrite (js_get_lookup _ _ _ Hx). unfold integers in Ha. rewrite Forall_forall in Ha. apply Ha.
  eapply list_elem_of_lookup_2. exact Hx.
Qed.

Lemma js_set_in_range (a : list prim) (i : nat) (x : prim) :
  (i < length a)%nat -> js_set a i x = <[i := x]> a.
Proof. intros H. unfold js_set. destruct (Nat.ltb_spec i (length a)); [reflexivity|lia]. Qed.

Lemma swapArray_integers (a : list prim) (x y : nat) :
  integers a -> (x < length a)%nat -> (y < length a)%nat ->
  integers (swapArray a x y) /\ length (swapArray a x y) = length a.
Proof.
  intros Ha Hx Hy. unfold swapArray.
  destruct (js_get_integer a x Ha Hx) as [zx ->]. destruct (js_get_integer a y Ha Hy) as [zy ->].
  rewrite (js_set_in_range a) by assumption.
  rewrite js_set_in_range by (now rewrite length_insert).
  split; [|now rewrite !length_insert].
  unfold integers in *. apply Forall_insert; [apply Forall_insert; [assumption|]|]; eexists; reflexivity.
Qed.

(** The outer loop of the partition on integers, without a comparator and
    around [undefined]: [i] stays at 0 while [j] comes down to it. *)
Lemma partition_loop_integers (fuel : nat) : forall (a : list prim) (j : nat),
  integers a -> (0 < length a)%nat -> (j <= length a)%nat -> (S j < fuel)%nat ->
  exists a',
    partition_loop fuel a PUndefined None 0 (Z.of_nat j) = Some (a', 0%nat) /\
    integers a' /\ length a' = length a.
Proof.
  induction fuel as [|fuel IH]; intros a j Ha Hne Hj Hfuel; [lia|].
  cbn [partition_loop].
  assert (partition_advance fuel a PUndefined None 0 = Some 0%nat) as ->.
  { destruct fuel as [|fuel]; [lia|]. cbn [partition_advance].
    destruct (js_get_integer a 0 Ha Hne) as [z ->]. now rewrite compare_with_undefined. }
  assert (partition_retreat fuel a PUndefined 0 (Z.of_nat j) = Some (Z.of_nat j - 1)) as ->.
  { destruct fuel as [|fuel]; [lia|]. cbn [partition_retreat]. now rewrite compare_of_boolean. }
  destruct (Z.leb_spec (Z.of_nat j - 1) (Z.of_nat 0)) as [Hle|Hgt].
  - exists a. auto.
  - destruct (swapArray_integers a 0 (Z.to_nat (Z.of_nat j - 1)) Ha) as [Ha' Hlen]; [lia..|].
    destruct (IH (swapArray a 0 (Z.to_nat (Z.of_nat j - 1))) (j - 1)%nat) as (a' & Hrun & Hint & Hlen');
      [assumption|lia..|].
    replace (Z.of_nat (j - 1)) with (Z.of_nat j - 1) in Hrun by lia.
    exists a'. split; [exact Hrun|]. split; [assumption|congruence].
Qed.

(** X16.  [quickSortArray] returns for no array, no bounds and no
    comparator: each call partitions the whole array and then calls
    itself, unconditionally.  The partition that it starts with, on an
    array of integers without a comparator, returns the index 0 and leaves
    the array one value longer, with [undefined] at index 0. *)
Theorem quickSortArray_never_returns :
  (forall fuel a start end_ c, quickSortArray fuel a start end_ c = None) /\
  (forall zs fuel, (S (length zs) < fuel)%nat ->
     exists a', quickSortPartition fuel (map num zs) 0 (length (map num zs)) None = Some (a', 0%nat) /\
                length a' = S (length zs) /\ js_get a' 0 = PUndefined).
Proof.
  split.
  - induction fuel as [|fuel IH]; intros a start end_ c; [reflexivity|].
    cbn [quickSortArray]. destruct (quickSortPartition _ _ _ _ _) as [[a' pivot]|]; [|reflexivity].
    now rewrite IH.
  - intros zs fuel Hfuel. unfold quickSortPartition. rewrite length_map.
    assert (js_get (map num zs) (Z.of_nat (length zs)) = PUndefined) as ->.
    { unfold js_get. destruct (Z.ltb_spec (Z.of_nat (length zs)) 0); [reflexivity|].
      rewrite Nat2Z.id, lookup_ge_None_2; [reflexivity|]. now rewrite length_map. }
    destruct zs as [|z zs].
    + destruct fuel as [|[|fuel]]; [lia..|]. eexists. split; [reflexivity|split; reflexivity].
    + assert (integers (map num (z :: zs))) as Hint.
      { apply Forall_forall. intros x Hx. apply list_elem_of_fmap in Hx as (y & -> & _). now exists y. }
      destruct (partition_loop_integers fuel (map num (z :: zs)) (length (z :: zs)) Hint)
        as (a' & Hrun & Hint' & Hlen); [rewrite length_map; cbn; lia..|assumption|].
      rewrite length_map in Hlen. rewrite Hrun.
      eexists. split; [reflexivity|]. unfold swapArray.
      assert (js_get a' (Z.of_nat (length (z :: zs))) = PUndefined) as ->.
      { unfold js_get. destruct (Z.ltb_spec (Z.of_nat (length (z :: zs))) 0); [reflexivity|].
        rewrite Nat2Z.id, lookup_ge_None_2; [reflexivity|lia]. }
      rewrite (js_set_in_range a') by (rewrite Hlen; cbn; lia).
      assert (forall x, js_set (<[0%nat := PUndefined]> a') (length (z :: zs)) x
                        = <[0%nat := PUndefined]> a' ++ [x]) as ->.
      { intros x. unfold js_set. rewrite length_insert.
        destruct (Nat.ltb_spec (length (z :: zs)) (length a')); [lia|].
        now rewrite Hlen, Nat.sub_diag. }
      split.
      * rewrite length_app, length_insert, Hlen. cbn. lia.
      * unfold js_get. cbn [Z.ltb Z.compare Z.to_nat].
        rewrite lookup_app_l by (rewrite length_insert, Hlen; cbn; lia).
        rewrite list_lookup_insert_eq by (rewrite Hlen; cbn; lia). reflexivity.
Qed.

(** ** [merge] and [mergeSortArray] *)

Lemma merged_nil_r (xs : list Z) : merged xs [] = xs.
Proof. now destruct xs. Qed.

Lemma merged_nil_l (ys : list Z) : merged [] ys = ys.
Proof. now destruct ys. Qed.

Lemma merged_cons (x y : Z) (xs ys : list Z) :
  merged (x :: xs) (y :: ys)
  = if x <? y then x :: merged xs (y :: ys) else y :: merged (x :: xs) ys.
Proof. reflexivity. Qed.

Lemma merged_Permutation (xs : list Z) : forall ys, Permutation (merged xs ys) (xs ++ ys).
Proof.
  induction xs as [|x xs IHx]; intros ys; [now rewrite merged_nil_l|].
  induction ys as [|y ys IHy]; [now rewrite merged_nil_r, app_nil_r|].
  rewrite merged_cons. destruct (x <? y).
  - cbn [List.app]. constructor. apply IHx.
  - rewrite <- Permutation_middle. constructor. exact IHy.
Qed.

Lemma merged_sorted (xs : list Z) : forall ys,
  StronglySorted Z.le xs -> StronglySorted Z.le ys -> StronglySorted Z.le (merged xs ys).
Proof.
  induction xs as [|x xs IHx]; intros ys Hxs Hys; [now rewrite merged_nil_l|].
  induction ys as [|y ys IHy]; [now rewrite merged_nil_r|].
  apply StronglySorted_inv in Hxs as [Hxs Hx]. apply StronglySorted_inv in Hys as [Hys Hy].
  rewrite merged_cons. destruct (Z.ltb_spec x y) as [Hlt|Hge].
  - constructor; [apply IHx; [assumption|now constructor]|].
    rewrite merged_Permutation. apply Forall_app. split; [assumption|].
    constructor; [lia|]. eapply Forall_impl; [exact Hy|]. intros z Hz. cbn in Hz. lia.
  - constructor; [apply IHy; assumption|].
    rewrite merged_Permutation. apply Forall_app. split; [|assumption].
    constructor; [lia|]. eapply Forall_impl; [exact Hx|]. intros z Hz. cbn in Hz. lia.
Qed.

Lemma js_get_num (zs : list Z) (i : nat) (z : Z) :
  zs !! i = Some z -> js_get (map num zs) (Z.of_nat i) = num z.
Proof. intros H. apply js_get_lookup. now rewrite list_lookup_fmap, H. Qed.

(** The loop of [merge] on integers. *)
Lemma merge_loop_merged (fuel : nat) : forall (xs ys : list Z) (ai bi : nat) (results : list prim),
  (ai <= length xs)%nat -> (bi <= length ys)%nat ->
  ((length xs - ai) + (length ys - bi) < fuel)%nat ->
  merge_loop fuel (map num xs) (map num ys) ai bi results
  = Some (results ++ map num (merged (drop ai xs) (drop bi ys))).
Proof.
  induction fuel as [|fuel IH]; intros xs ys ai bi results Hai Hbi Hfuel; [lia|].
  cbn [merge_loop]. rewrite !length_map.
  destruct (Nat.ltb_spec ai (length xs)) as [Hlta|Hgea];
    [destruct (Nat.ltb_spec bi (length ys)) as [Hltb|Hgeb]|]; cbn [andb].
  - destruct (lookup_lt_is_Some_2 xs ai Hlta) as [x Hx].
    destruct (lookup_lt_is_Some_2 ys bi Hltb) as [y Hy].
    rewrite (js_get_num _ _ _ Hx), (js_get_num _ _ _ Hy).
    rewrite (drop_S _ _ _ Hx), (drop_S _ _ _ Hy), merged_cons.
    unfold less_than. cbn [to_number num CoreArray.less].
    destruct (x <? y).
    + rewrite IH by lia. rewrite <- (assoc_L (++)). cbn [List.app map].
      now rewrite (drop_S _ _ _ Hy).
    + rewrite IH by lia. rewrite <- (assoc_L (++)). cbn [List.app map].
      now rewrite (drop_S _ _ _ Hx).
  - rewrite <- (length_map num xs), <- (length_map num ys).
    rewrite !slice_to_end by (rewrite length_map; lia). rewrite !Nat2Z.id.
    rewrite (drop_ge ys) by lia. rewrite (drop_ge (map num ys)) by (rewrite length_map; lia).
    now rewrite merged_nil_r, app_nil_r, <- fmap_drop.
  - rewrite <- (length_map num xs), <- (length_map num ys).
    rewrite !slice_to_end by (rewrite length_map; lia). rewrite !Nat2Z.id.
    rewrite (drop_ge xs) by lia. rewrite (drop_ge (map num xs)) by (rewrite length_map; lia).
    cbn [List.app]. now rewrite merged_nil_l, <- fmap_drop.
Qed.

(** X17.  With enough fuel, [merge] of two ascending arrays of integers
    returns an ascending array that holds the values of both. *)
Theorem merge_of_sorted_is_sorted (fuel : nat) (xs ys : list Z) :
  StronglySorted Z.le xs -> StronglySorted Z.le ys -> (length xs + length ys < fuel)%nat ->
  exists zs,
    merge fuel (map num xs) (map num ys) = Some (map num zs) /\
    Permutation zs (xs ++ ys) /\ StronglySorted Z.le zs.
Proof.
  intros Hxs Hys Hfuel. exists (merged xs ys). split; [|split].
  - unfold merge. rewrite merge_loop_merged by lia. reflexivity.
  - apply merged_Permutation.
  - now apply merged_sorted.
Qed.

Lemma mergeSortArray_sorts_integers (fuel : nat) : forall zs : list Z,
  Z.of_nat (length zs) < 2 ^ 31 -> (length zs + 1 < fuel)%nat ->
  exists zs',
    mergeSortArray fuel (map num zs) = Some (map num zs') /\
    Permutation zs zs' /\ StronglySorted Z.le zs'.
Proof.
  induction fuel as [|fuel IH]; intros zs Hlen Hfuel; [lia|].
  cbn [mergeSortArray]. pose proof (length_map num zs) as Hlm.
  destruct (Nat.leb_spec 2 (length (map num zs))) as [Hge|Hlt]; cbn [negb].
  - rewrite shr_half by lia.
    assert (exists p, Z.of_nat (length (map num zs)) / 2 = Z.of_nat p /\
                      (1 <= p)%nat /\ (p < length zs)%nat)
      as (p & Hp & Hp1 & Hp2).
    { exists (Z.to_nat (Z.of_nat (length (map num zs)) / 2)).
      assert (1 <= Z.of_nat (length (map num zs)) / 2 < Z.of_nat (length zs)).
      { split; [apply Z.div_le_lower_bound; lia|apply Z.div_lt_upper_bound; lia]. }
      lia. }
    rewrite Hp, slice_from_start, slice_to_end by lia.
    rewrite Nat2Z.id, <- fmap_take, <- fmap_drop.
    change (num <$> take p zs) with (map num (take p zs)).
    change (num <$> drop p zs) with (map num (drop p zs)).
    destruct (IH (take p zs)) as (ls & -> & Hpl & Hsl);
      [rewrite length_take; lia..|].
    destruct (IH (drop p zs)) as (rs & -> & Hpr & Hsr);
      [rewrite length_drop; lia..|].
    assert (length ls + length rs = length zs)%nat as Hsum.
    { rewrite <- (Permutation_length Hpl), <- (Permutation_length Hpr), length_take, length_drop. lia. }
    exists (merged ls rs). split; [|split].
    + unfold merge. rewrite merge_loop_merged by lia. reflexivity.
    + rewrite merged_Permutation, <- Hpl, <- Hpr. now rewrite take_drop.
    + now apply merged_sorted.
  - rewrite slice_to_end by lia. cbn [Z.to_nat drop].
    exists zs. split; [reflexivity|]. split; [reflexivity|].
    destruct zs as [|z [|z' zs]]; [constructor|repeat constructor|cbn in Hlt; lia].
Qed.

(** X18.  With enough fuel, [mergeSortArray] returns for every array of
    integers, and what it returns is ascending and holds the values of the
    array, each as often as the array does. *)
Theorem mergeSortArray_sorts (fuel : nat) (zs : list Z) :
  Z.of_nat (length zs) < 2 ^ 31 -> (length zs + 1 < fuel)%nat ->
  exists zs',
    mergeSortArray fuel (map num zs) = Some (map num zs') /\
    Permutation zs zs' /\ StronglySorted Z.le zs'.
Proof. apply mergeSortArray_sorts_integers. Qed.

(** ** [binarySearchArray] *)

Lemma sorted_lookup (zs : list Z) : forall (i j : nat) (x y : Z),
  StronglySorted Z.le zs -> (i <= j)%nat -> zs !! i = Some x -> zs !! j = Some y -> x <= y.
Proof.
  induction zs as [|z zs IH]; intros i j x y Hs Hij Hi Hj; [discriminate|].
  apply StronglySorted_inv in Hs as [Hs Hz].
  destruct i as [|i], j as [|j]; cbn in Hi, Hj; try lia.
  - injection Hi as <-. injection Hj as <-. lia.
  - injection Hi as <-. rewrite Forall_forall in Hz. apply Hz.
    eapply list_elem_of_lookup_2. exact Hj.
  - apply (IH i j); [assumption|lia|assumption..].
Qed.

Lemma compare_integers (z m : Z) :
  compareItems (num z) (num m) None
  = if z =? m then CoreArray.Int 0 else if z <? m then CoreArray.Int (-1) else CoreArray.Int 1.
Proof. reflexivity. Qed.

(** The loop of the search: every occurrence of the value is between
    [left] and [right]. *)
Lemma binarySearchArray_loop_finds (fuel : nat) : forall (zs : list Z) (z left right : Z),
  StronglySorted Z.le zs -> Z.of_nat (length zs) < 2 ^ 30 ->
  0 <= left -> right < Z.of_nat (length zs) ->
  (Z.to_nat (right - left + 1) < fuel)%nat ->
  (forall k : nat, zs !! k = Some z -> left <= Z.of_nat k <= right) ->
  binarySearchArray_loop fuel (map num zs) (num z) None left right
  = Some (if decide (z ∈ zs) then Found (num z) else Null).
Proof.
  induction fuel as [|fuel IH]; intros zs z left right Hs Hlen Hl Hr Hfuel Hocc; [lia|].
  cbn [binarySearchArray_loop]. destruct (Z.leb_spec left right) as [Hle|Hgt].
  - rewrite shr_half by lia.
    assert (left <= (left + right) / 2 <= right) as Hmid.
    { split; [apply Z.div_le_lower_bound; lia|apply Z.div_le_upper_bound; lia]. }
    set (mid := (left + right) / 2) in *.
    destruct (lookup_lt_is_Some_2 zs (Z.to_nat mid)) as [m Hm]; [lia|].
    assert (js_get (map num zs) mid = num m) as ->.
    { replace mid with (Z.of_nat (Z.to_nat mid)) by lia. now apply js_get_num. }
    rewrite compare_integers.
    destruct (Z.eqb_spec z m) as [->|Hne]; cbn [is_zero Z.eqb].
    + rewrite decide_True; [reflexivity|]. eapply list_elem_of_lookup_2. exact Hm.
    + destruct (Z.ltb_spec z m) as [Hlt|Hge]; cbn [is_zero is_negative CoreArray.less Z.eqb Z.ltb Z.compare].
      * apply IH; try assumption; try lia. intros k Hk. specialize (Hocc k Hk).
        split; [lia|]. destruct (Z.le_gt_cases (Z.of_nat k) (mid - 1)) as [?|Hbig]; [assumption|].
        pose proof (sorted_lookup zs (Z.to_nat mid) k m z Hs ltac:(lia) Hm Hk). lia.
      * apply IH; try assumption; try lia. intros k Hk. specialize (Hocc k Hk).
        split; [|lia]. destruct (Z.le_gt_cases (mid + 1) (Z.of_nat k)) as [?|Hsmall]; [assumption|].
        pose proof (sorted_lookup zs k (Z.to_nat mid) z m Hs ltac:(lia) Hk Hm). lia.
  - rewrite decide_False; [reflexivity|]. intros Hin.
    apply list_elem_of_lookup_1 in Hin as [k Hk]. specialize (Hocc k Hk). lia.
Qed.

(** X19.  On an ascending array of fewer than 2^30 integers and with
    enough fuel, [binarySearchArray] without a comparator returns the
    value searched for when the array holds it, and [null] when it does
    not; on the empty array it returns [null]. *)
Theorem binarySearchArray_finds (fuel : nat) (zs : list Z) (z : Z) :
  StronglySorted Z.le zs -> Z.of_nat (length zs) < 2 ^ 30 -> (length zs < fuel)%nat ->
  binarySearchArray fuel (map num zs) (num z) None
  = Some (if decide (z ∈ zs) then Found (num z) else Null).
Proof.
  intros Hs Hlen Hfuel. unfold binarySearchArray. rewrite length_map.
  destruct (Nat.eqb_spec (length zs) 0) as [Hempty|Hne].
  - destruct zs; [|discriminate]. rewrite decide_False; [reflexivity|apply not_elem_of_nil].
  - apply binarySearchArray_loop_finds; try assumption; try lia.
    intros k Hk. apply lookup_lt_Some in Hk. lia.
Qed.

(** ** [reverseArray] *)

Lemma swapArray_same (a : list prim) (i : nat) :
  (i < length a)%nat -> swapArray a i i = a.
Proof.
  intros Hi. destruct (lookup_lt_is_Some_2 a i Hi) as [x Hx].
  unfold swapArray. rewrite (js_get_lookup _ _ _ Hx).
  rewrite (js_set_in_range a) by assumption. rewrite (list_insert_id _ _ _ Hx).
  rewrite (js_set_in_range a) by assumption. now apply list_insert_id.
Qed.

Lemma swapArray_ends (pre m post : list prim) (x y : prim) :
  swapArray (pre ++ x :: m ++ y :: post) (length pre) (length pre + S (length m))
  = pre ++ y :: m ++ x :: post.
Proof.
  assert ((pre ++ x :: m ++ y :: post) !! length pre = Some x) as Hx
    by (now apply list_lookup_middle).
  assert ((pre ++ x :: m ++ y :: post) !! (length pre + S (length m))%nat = Some y) as Hy.
  { rewrite lookup_app_r by lia. replace (length pre + S (length m) - length pre)%nat
      with (S (length m)) by lia. cbn. now apply list_lookup_middle. }
  unfold swapArray. rewrite (js_get_lookup _ _ _ Hx), (js_get_lookup _ _ _ Hy).
  rewrite (js_set_in_range (pre ++ x :: m ++ y :: post))
    by (apply lookup_lt_Some in Hx; exact Hx).
  rewrite js_set_in_range by (rewrite length_insert; apply lookup_lt_Some in Hy; exact Hy).
  assert (<[length pre := y]> (pre ++ x :: m ++ y :: post) = pre ++ y :: m ++ y :: post) as ->.
  { rewrite insert_app_r_alt by lia. now rewrite Nat.sub_diag. }
  rewrite insert_app_r_alt by lia.
  replace (length pre + S (length m) - length pre)%nat with (S (length m)) by lia.
  change (<[S (length m) := x]> (y :: m ++ y :: post))
    with (y :: <[length m := x]> (m ++ y :: post)).
  rewrite insert_app_r_alt by lia. now rewrite Nat.sub_diag.
Qed.

Lemma reverseArray_loop_reverses (fuel : nat) : forall m pre post : list prim,
  (length m < fuel)%nat ->
  reverseArray_loop fuel (pre ++ m ++ post) (length pre) (length pre + length m)
  = Some (pre ++ reverse m ++ post).
Proof.
  induction fuel as [|fuel IH]; intros m pre post Hfuel; [lia|].
  cbn [reverseArray_loop]. destruct m as [|x m].
  - cbn [length]. rewrite Nat.add_0_r, Nat.ltb_irrefl. reflexivity.
  - destruct (Nat.ltb_spec (length pre) (length pre + length (x :: m))) as [_|Hge];
      [|cbn in Hge; lia].
    induction m as [|y m _] using rev_ind.
    + cbn [length List.app]. replace (length pre + 1 - 1)%nat with (length pre) by lia.
      rewrite swapArray_same by (rewrite length_app; cbn; lia).
      destruct fuel as [|fuel]; [cbn in Hfuel; lia|]. cbn [reverseArray_loop].
      destruct (Nat.ltb_spec (S (length pre)) (length pre)); [lia|reflexivity].
    + rewrite length_cons, length_app in *. cbn [length] in *.
      replace (length pre + S (length m + 1) - 1)%nat with (length pre + S (length m))%nat by lia.
      replace (pre ++ (x :: m ++ [y]) ++ post) with (pre ++ x :: m ++ y :: post)
        by (cbn; now rewrite <- (assoc_L (++))).
      rewrite swapArray_ends.
      replace (pre ++ y :: m ++ x :: post) with ((pre ++ [y]) ++ m ++ (x :: post))
        by (now rewrite <- (assoc_L (++))).
      replace (S (length pre)) with (length (pre ++ [y])) by (rewrite length_app; cbn; lia).
      replace (length pre + S (length m))%nat with (length (pre ++ [y]) + length m)%nat
        by (rewrite length_app; cbn; lia).
      rewrite IH by lia. f_equal.
      rewrite reverse_cons, reverse_app, <- !(assoc_L (++)). reflexivity.
Qed.

(** X20.  [reverseArray(a, start, end)] with both bounds given, [start]
    at most [end] and [end] at most the length, reverses the values from
    [start] to [end - 1] and leaves the others in place.  With a bound
    omitted it leaves the array as it is: the loop tests the arguments
    themselves, not their defaults. *)
Theorem reverseArray_needs_both_bounds (a : list prim) :
  (forall fuel end_, reverseArray fuel a None end_ = Some a) /\
  (forall fuel start, reverseArray fuel a start None = Some a) /\
  (forall fuel s e, (s <= e <= length a)%nat -> (e - s < fuel)%nat ->
     reverseArray fuel a (Some s) (Some e)
     = Some (take s a ++ reverse (take (e - s) (drop s a)) ++ drop e a)).
Proof.
  split; [reflexivity|]. split; [now intros fuel []|].
  intros fuel s e Hse Hfuel. unfold reverseArray.
  assert (a = take s a ++ take (e - s) (drop s a) ++ drop e a) as Ha.
  { rewrite <- (take_drop s a) at 1. f_equal.
    rewrite <- (take_drop (e - s) (drop s a)) at 1. f_equal.
    rewrite drop_drop. f_equal. lia. }
  pose proof (reverseArray_loop_reverses fuel (take (e - s) (drop s a)) (take s a) (drop e a)) as H.
  rewrite <- Ha in H. rewrite !length_take, length_drop in H.
  replace (s `min` length a)%nat with s in H by lia.
  replace (s + (e - s) `min` (length a - s))%nat with e in H by lia.
  apply H. lia.
Qed.

(** ** The properties at concrete arrays *)

Ltac ascending := repeat first [lia | constructor].

(** X17: the arrays [[1, 3]] and [[2, 4]] are merged. *)
Lemma merge_of_sorted_is_sorted_witness :
  exists zs, merge 5 (map num [1; 3]) (map num [2; 4]) = Some (map num zs) /\
             StronglySorted Z.le zs.
Proof.
  destruct (merge_of_sorted_is_sorted 5 [1; 3] [2; 4]) as (zs & Hrun & _ & Hsorted);
    [ascending|ascending|cbn; lia|].
  exists zs. auto.
Defined.

(** X18: the array [[3, 1, 2]] is sorted. *)
Lemma mergeSortArray_sorts_witness :
  exists zs, mergeSortArray 5 (map num [3; 1; 2]) = Some (map num zs) /\
             Permutation [3; 1; 2] zs /\ StronglySorted Z.le zs.
Proof.
  apply (mergeSortArray_sorts 5 [3; 1; 2]); [cbn; lia|cbn; lia].
Defined.

(** X19: 3 is found in [[1, 3, 5]]. *)
Lemma binarySearchArray_finds_witness :
  binarySearchArray 4 (map num [1; 3; 5]) (num 3) None = Some (Found (num 3)).
Proof.
  pose proof (binarySearchArray_finds 4 [1; 3; 5] 3 ltac:(ascending) ltac:(cbn; lia) ltac:(cbn; lia))
    as H.
  rewrite decide_True in H by (right; left). exact H.
Defined.

End CoreProperties.

(** * [algo.core.Heap]: the order of the heap *)

Module HeapProperties.
Import Heap.
Local Open Scope Z_scope.

Lemma parent_half (i : Z) : 0 <= i < 2 ^ 31 -> parent i = i / 2.
Proof. apply CoreProperties.shr_half. Qed.

Lemma store_lookup (i k : Z) (x : option item) (m : gmap Z item) :
  store i x m !! k = if decide (k = i) then x else m !! k.
Proof.
  unfold store. destruct x as [it|], (decide (k = i)) as [->|Hne].
  - apply lookup_insert_eq.
  - now apply lookup_insert_ne.
  - apply lookup_delete_eq.
  - now apply lookup_delete_ne.
Qed.

Lemma swap_lookup (i j k : Z) (h : Heap) :
  nodes (swap i j h) !! k
  = if decide (k = j) then nodes h !! i else if decide (k = i) then nodes h !! j else nodes h !! k.
Proof.
  unfold swap. cbn [nodes set_nodes]. rewrite !store_lookup.
  destruct (decide (k = j)); [reflexivity|]. reflexivity.
Qed.

Lemma swap_value_of (i j k : Z) (h : Heap) :
  value_of (swap i j h) k
  = if decide (k = j) then value_of h i else if decide (k = i) then value_of h j else value_of h k.
Proof.
  unfold value_of, value_at. rewrite swap_lookup.
  destruct (decide (k = j)); [reflexivity|]. now destruct (decide (k = i)).
Qed.

Lemma value_at_present (h : Heap) (i : Z) :
  is_Some (nodes h !! i) -> value_at h i = Some (value_of h i).
Proof. intros [it Hit]. unfold value_of, value_at. now rewrite Hit. Qed.

Lemma values_lookup (h : Heap) (k : nat) :
  values h !! k = if decide (k < Z.to_nat (n h))%nat then Some (value_of h (Z.of_nat k + 1)) else None.
Proof.
  unfold values. rewrite list_lookup_fmap. destruct (decide (k < Z.to_nat (n h))%nat) as [H|H].
  - now rewrite lookup_seq_lt.
  - now rewrite lookup_seq_ge by lia.
Qed.

Lemma values_length (h : Heap) : length (values h) = Z.to_nat (n h).
Proof. unfold values. now rewrite length_fmap, length_seq. Qed.

(** Exchanging two values of a list gives a list of the same values. *)
Lemma insert_Permutation {A} (l : list A) : forall (j : nat) (x y : A),
  l !! j = Some y -> y :: <[j := x]> l ≡ₚ x :: l.
Proof.
  induction l as [|z l IH]; intros [|j] x y Hj; try discriminate; cbn in Hj |- *.
  - injection Hj as ->. apply perm_swap.
  - rewrite perm_swap. rewrite (IH j x y Hj). apply perm_swap.
Qed.

Lemma exchange_Permutation {A} (l : list A) : forall (i j : nat) (x y : A),
  l !! i = Some x -> l !! j = Some y -> <[j := x]> (<[i := y]> l) ≡ₚ l.
Proof.
  induction l as [|z l IH]; intros [|i] [|j] x y Hi Hj; try discriminate; cbn in Hi, Hj |- *.
  - injection Hi as ->. reflexivity.
  - injection Hi as ->. now apply insert_Permutation.
  - injection Hj as ->. symmetry. rewrite <- (insert_Permutation l i y x Hi) at 1. reflexivity.
  - constructor. now apply IH.
Qed.

Lemma swap_values (i j : Z) (h : Heap) :
  1 <= i <= n h -> 1 <= j <= n h -> values (swap i j h) ≡ₚ values h.
Proof.
  intros Hi Hj.
  assert (values (swap i j h)
          = <[Z.to_nat (j - 1) := value_of h i]> (<[Z.to_nat (i - 1) := value_of h j]> (values h)))
    as ->.
  { apply list_eq. intros k. rewrite values_lookup. cbn [n swap set_nodes].
    rewrite list_lookup_insert, length_insert, values_length.
    destruct (decide (Z.to_nat (j - 1) = k /\ (Z.to_nat (j - 1) < Z.to_nat (n h))%nat)) as [[<- _]|Hkj].
    - rewrite decide_True by lia. rewrite swap_value_of, decide_True by lia. reflexivity.
    - rewrite list_lookup_insert, values_length, values_lookup.
      destruct (decide (k < Z.to_nat (n h))%nat) as [Hk|Hk].
      + rewrite swap_value_of, decide_False by lia.
        destruct (decide (Z.to_nat (i - 1) = k /\ (Z.to_nat (i - 1) < Z.to_nat (n h))%nat))
          as [[<- _]|Hki].
        * now rewrite decide_True by lia.
        * now rewrite decide_False by lia.
      + now rewrite decide_False by lia. }
  apply exchange_Permutation; rewrite values_lookup, decide_True by lia; f_equal; f_equal; lia.
Qed.

Ltac dlia := Z.to_euclidean_division_equations; lia.

Lemma swap_present (i j : Z) (h : Heap) :
  (forall k, 1 <= k <= n h -> is_Some (nodes h !! k)) -> 1 <= i <= n h -> 1 <= j <= n h ->
  forall k, 1 <= k <= n (swap i j h) -> is_Some (nodes (swap i j h) !! k).
Proof.
  intros Hall Hi Hj k Hk. rewrite swap_lookup. cbn [n swap set_nodes] in Hk.
  destruct (decide (k = j)); [now apply Hall|]. destruct (decide (k = i)); now apply Hall.
Qed.

(** The loop of [siftUp] restores the order. *)
Lemma siftUp_loop_restores (fuel : nat) : forall (i : Z) (h : Heap),
  n h < 2 ^ 31 -> (forall k, 1 <= k <= n h -> is_Some (nodes h !! k)) ->
  1 <= i <= n h -> ordered_but_above h i -> (Z.to_nat i < fuel)%nat ->
  exists h',
    siftUp_loop fuel (value_of h i) i h = Returns tt h' /\
    well_formed h' /\ n h' = n h /\ values h' ≡ₚ values h /\
    options h' = options h /\ calls h' = calls h.
Proof.
  induction fuel as [|fuel IH]; intros i h Hn Hall Hi [Hord Hkids] Hfuel; [lia|].
  cbn [siftUp_loop]. rewrite parent_half by lia. unfold isNull, kROOT.
  destruct (Z.ltb_spec (i / 2) 1) as [Hroot|Hp]; cbn [orb negb].
  - exists h. split; [reflexivity|]. split; [|auto].
    split; [lia|assumption|]. intros j Hj. apply Hord; [assumption|dlia].
  - destruct (Z.ltb_spec (n h) (i / 2)) as [Hbig|_]; [dlia|]. cbn [negb].
    rewrite (value_at_present h (i / 2)) by (apply Hall; dlia).
    destruct (Z.ltb_spec (value_of h i) (value_of h (i / 2))) as [Hlt|Hge].
    + destruct (IH (i / 2) (swap i (i / 2) h)) as (h' & Hrun & Hwf & Hn' & Hperm & Hopts & Hcalls).
      * exact Hn.
      * apply swap_present; [assumption|lia|dlia].
      * cbn [n swap set_nodes]. dlia.
      * split.
        -- intros j Hj Hne. cbn [n swap set_nodes] in Hj. rewrite !swap_value_of.
           destruct (decide (j = i / 2)) as [|_]; [contradiction|].
           destruct (decide (j = i)) as [->|Hji].
           ++ rewrite decide_True by reflexivity. lia.
           ++ destruct (decide (j / 2 = i / 2)) as [Hsib|Hnsib].
              ** specialize (Hord j Hj Hji). rewrite Hsib in Hord. lia.
              ** destruct (decide (j / 2 = i)) as [Hchild|_].
                 --- apply (Hkids j Hj Hchild). dlia.
                 --- now apply Hord.
        -- intros j Hj Hchild Hp2. cbn [n swap set_nodes] in Hj. rewrite !swap_value_of.
           rewrite (decide_False (P := i / 2 / 2 = i / 2)) by dlia.
           rewrite (decide_False (P := i / 2 / 2 = i)) by dlia.
           rewrite (decide_False (P := j = i / 2)) by dlia.
           assert (value_of h (i / 2 / 2) <= value_of h (i / 2)) as Hpp
             by (apply Hord; dlia).
           destruct (decide (j = i)) as [->|Hji]; [exact Hpp|].
           specialize (Hord j Hj Hji). rewrite Hchild in Hord. lia.
      * dlia.
      * rewrite swap_value_of, decide_True in Hrun by reflexivity.
        exists h'. split; [exact Hrun|]. split; [exact Hwf|]. split; [exact Hn'|].
        split; [|split; assumption].
        rewrite Hperm. apply swap_values; [lia|dlia].
    + exists h. split; [reflexivity|]. split; [|auto].
      split; [lia|assumption|]. intros j Hj.
      destruct (decide (j = i)) as [->|Hji]; [lia|now apply Hord].
Qed.

Lemma values_snoc (h h' : Heap) :
  0 <= n h -> n h' = n h + 1 ->
  (forall i, 1 <= i <= n h -> value_of h' i = value_of h i) ->
  values h' = values h ++ [value_of h' (n h + 1)].
Proof.
  intros Hn Hn' Hsame. unfold values. rewrite Hn'.
  replace (Z.to_nat (n h + 1)) with (S (Z.to_nat (n h))) by lia.
  rewrite seq_S, fmap_app. cbn [fmap list_fmap Nat.add]. f_equal.
  - apply list_fmap_ext. intros k x Hx. apply lookup_seq in Hx as [-> Hk]. apply Hsame. lia.
  - f_equal. f_equal. lia.
Qed.

(** X21.  [enqueue(v, payload)] on a well-formed heap of fewer than
    2^31 - 1 entries returns, with enough fuel, a well-formed heap that has
    one entry more and holds [v] besides the values it held; [createVertex]
    is invoked once when it is given. *)
Theorem enqueue_keeps_order (fuel : nat) (v : Z) (payload : value) (h : Heap) :
  well_formed h -> n h + 1 < 2 ^ 31 -> (Z.to_nat (n h) + 1 < fuel)%nat ->
  exists h',
    enqueue fuel v payload h = Returns tt h' /\
    well_formed h' /\ n h' = n h + 1 /\ values h' ≡ₚ v :: values h /\
    calls h' = calls h ++ match has_createVertex (options h) with
                          | Some _ => [createVertex v]
                          | None => []
                          end.
Proof.
  intros [Hn Hall Hord] Hsmall Hfuel. unfold enqueue.
  set (hc := match has_createVertex (options h) with
             | Some f => (log (createVertex v) h, f v)
             | None => (h, VUndef)
             end).
  assert (nodes hc.1 = nodes h /\ n hc.1 = n h /\
          calls hc.1 = calls h ++ match has_createVertex (options h) with
                                  | Some _ => [createVertex v]
                                  | None => []
                                  end) as (Hnodes & Hnc & Hcalls).
  { unfold hc. destruct (has_createVertex (options h)); cbn; now rewrite ?app_nil_r. }
  destruct hc as [h0 element]. cbn [fst] in Hnodes, Hnc, Hcalls.
  set (h1 := set_n (n (set_nodes (<[kROOT + n h0 := mkItem v payload element]> (nodes h0)) h0) + 1)
               (set_nodes (<[kROOT + n h0 := mkItem v payload element]> (nodes h0)) h0)).
  assert (n h1 = n h + 1) as Hn1 by (cbn; lia).
  assert (forall k, nodes h1 !! k
                    = if decide (k = n h + 1) then Some (mkItem v payload element) else nodes h !! k)
    as Hlook.
  { intros k. cbn [h1 nodes set_n set_nodes]. unfold kROOT. rewrite Hnc, Hnodes.
    replace (1 + n h) with (n h + 1) by lia.
    destruct (decide (k = n h + 1)) as [->|Hne].
    - apply lookup_insert_eq.
    - now rewrite lookup_insert_ne by congruence. }
  assert (forall k, value_of h1 k = if decide (k = n h + 1) then v else value_of h k) as Hval.
  { intros k. unfold value_of, value_at. rewrite Hlook. now destruct (decide (k = n h + 1)). }
  unfold siftUp, kROOT. cbn [n set_nodes]. rewrite !Hnc.
  rewrite (value_at_present h1 (1 + n h)).
  2:{ rewrite Hlook, decide_True by lia. eauto. }
  destruct (siftUp_loop_restores fuel (1 + n h) h1) as (h' & Hrun & Hwf & Hn' & Hperm & _ & Hcalls').
  - lia.
  - intros k Hk. rewrite Hlook. destruct (decide (k = n h + 1)); [eauto|]. apply Hall. lia.
  - lia.
  - split.
    + intros j Hj Hne. rewrite !Hval, !decide_False by dlia. apply Hord. lia.
    + intros j Hj Hchild. dlia.
  - lia.
  - exists h'. split; [exact Hrun|]. split; [exact Hwf|]. split; [lia|]. split.
    + rewrite Hperm, (values_snoc h h1) by (try lia; intros i Hi; rewrite Hval, decide_False by lia; reflexivity).
      rewrite Hval, decide_True by reflexivity. now rewrite Permutation_app_comm.
    + rewrite Hcalls'. exact Hcalls.
Qed.

(** Exchanging [i] with the least of its children, which is below it,
    moves the place where the order may fail down to that child. *)
Lemma swap_moves_down (h : Heap) (i c : Z) :
  ordered_but_below h i -> 1 <= i -> c / 2 = i -> 2 <= c <= n h ->
  value_of h c <= value_of h i ->
  (forall j, 2 <= j <= n h -> j / 2 = i -> value_of h c <= value_of h j) ->
  ordered_but_below (swap i c h) c.
Proof.
  intros [Hord Hkids] Hi Hc Hcn Hle Hleast. split.
  - intros j Hj Hne. cbn [n swap set_nodes] in Hj. rewrite !swap_value_of.
    destruct (decide (j / 2 = c)) as [|_]; [contradiction|].
    destruct (decide (j = c)) as [->|Hjc].
    + rewrite Hc, decide_True by reflexivity. exact Hle.
    + destruct (decide (j = i)) as [->|Hji].
      * rewrite (decide_False (P := i / 2 = i)) by dlia. apply (Hkids c Hcn Hc). lia.
      * destruct (decide (j / 2 = i)) as [Hchild|Hnchild]; [now apply Hleast|now apply Hord].
  - intros j Hj Hchild Hc2. cbn [n swap set_nodes] in Hj. rewrite !swap_value_of.
    rewrite (decide_False (P := c / 2 = c)) by dlia. rewrite Hc, decide_True by reflexivity.
    rewrite (decide_False (P := j = c)) by dlia. rewrite (decide_False (P := j = i)) by dlia.
    rewrite <- Hchild at 1. apply Hord; [assumption|dlia].
Qed.

(** [siftDown] restores the order. *)
Lemma siftDown_restores (fuel : nat) : forall (i : Z) (h : Heap),
  (forall k, 1 <= k <= n h -> is_Some (nodes h !! k)) ->
  1 <= i <= n h -> ordered_but_below h i -> (Z.to_nat (n h - i) + 1 < fuel)%nat ->
  exists h',
    siftDown fuel i h = Returns tt h' /\
    well_formed h' /\ n h' = n h /\ values h' ≡ₚ values h /\
    options h' = options h /\ calls h' = calls h.
Proof.
  induction fuel as [|fuel IH]; intros i h Hall Hi Hinv Hfuel; [lia|].
  assert (forall c, c / 2 = i -> 2 <= c <= n h ->
            value_of h c <= value_of h i ->
            (forall j, 2 <= j <= n h -> j / 2 = i -> value_of h c <= value_of h j) ->
            exists h',
              siftDown fuel c (swap i c h) = Returns tt h' /\
              well_formed h' /\ n h' = n h /\ values h' ≡ₚ values h /\
              options h' = options h /\ calls h' = calls h) as Hdown.
  { intros c Hc Hcn Hle Hleast.
    destruct (IH c (swap i c h)) as (h' & Hrun & Hwf & Hn' & Hperm & Hopts & Hcalls).
    - apply swap_present; [assumption|lia|lia].
    - cbn [n swap set_nodes]. lia.
    - apply swap_moves_down; try assumption; lia.
    - cbn [n swap set_nodes]. dlia.
    - exists h'. split; [exact Hrun|]. split; [exact Hwf|]. split; [exact Hn'|].
      split; [|split; assumption]. rewrite Hperm. apply swap_values; lia. }
  assert ((forall j, 2 <= j <= n h -> j / 2 = i -> value_of h i <= value_of h j) ->
          exists h',
            Returns tt h = Returns tt h' /\
            well_formed h' /\ n h' = n h /\ values h' ≡ₚ values h /\
            options h' = options h /\ calls h' = calls h) as Hstay.
  { intros Hkids. exists h. split; [reflexivity|]. split; [|auto].
    split; [lia|assumption|]. intros j Hj.
    destruct (decide (j / 2 = i)) as [Hchild|Hnchild].
    - rewrite Hchild. now apply Hkids.
    - now apply (proj1 Hinv). }
  cbn [siftDown]. unfold leftChild, rightChild, isNull, kROOT.
  destruct (Z.ltb_spec (2 * i) 1) as [|_]; [lia|].
  destruct (Z.ltb_spec (2 * i + 1) 1) as [|_]; [lia|]. cbn [orb].
  destruct (Z.ltb_spec (n h) (2 * i)) as [Hnoleft|Hleft]; cbn [negb orb].
  - destruct (Z.ltb_spec (n h) (2 * i + 1)) as [_|]; [|lia]. cbn [negb].
    apply Hstay. intros j Hj Hchild. dlia.
  - rewrite (value_at_present h (2 * i)) by (apply Hall; lia).
    rewrite (value_at_present h i) by (apply Hall; lia). cbn [fmap option_fmap option_map].
    destruct (Z.ltb_spec (n h) (2 * i + 1)) as [Hnoright|Hright]; cbn [negb below andb].
    + rewrite andb_true_r.
      destruct (Z.ltb_spec (value_of h i) (value_of h (2 * i))) as [Hlt|Hge].
      * apply Hstay. intros j Hj Hchild. assert (j = 2 * i) as -> by dlia. lia.
      * apply Hdown; [dlia|lia|lia|]. intros j Hj Hchild. assert (j = 2 * i) as -> by dlia. lia.
    + rewrite (value_at_present h (2 * i + 1)) by (apply Hall; lia).
      cbn [fmap option_fmap option_map below].
      destruct (Z.ltb_spec (value_of h i) (value_of h (2 * i))) as [Hlt|Hge]; cbn [andb].
      * destruct (Z.ltb_spec (value_of h i) (value_of h (2 * i + 1))) as [Hlt'|Hge'].
        -- apply Hstay. intros j Hj Hchild.
           assert (j = 2 * i \/ j = 2 * i + 1) as [-> | ->] by dlia; lia.
        -- destruct (Z.ltb_spec (value_of h (2 * i)) (value_of h (2 * i + 1))); [lia|].
           apply Hdown; [dlia|lia|lia|]. intros j Hj Hchild.
           assert (j = 2 * i \/ j = 2 * i + 1) as [-> | ->] by dlia; lia.
      * destruct (Z.ltb_spec (value_of h (2 * i)) (value_of h (2 * i + 1))) as [Hlr|Hrl].
        -- apply Hdown; [dlia|lia|lia|]. intros j Hj Hchild.
           assert (j = 2 * i \/ j = 2 * i + 1) as [-> | ->] by dlia; lia.
        -- apply Hdown; [dlia|lia|lia|]. intros j Hj Hchild.
           assert (j = 2 * i \/ j = 2 * i + 1) as [-> | ->] by dlia; lia.
Qed.

(** The root of a well-formed heap holds its least value. *)
Lemma root_is_least (h : Heap) :
  well_formed h -> forall k : nat, forall j, Z.to_nat j = k -> 1 <= j <= n h ->
  value_of h 1 <= value_of h j.
Proof.
  intros [Hn Hall Hord] k. induction k as [k IH] using lt_wf_ind. intros j Hk Hj.
  destruct (decide (j = 1)) as [->|Hne]; [lia|].
  assert (value_of h 1 <= value_of h (j / 2)) by (apply (IH (Z.to_nat (j / 2))); dlia).
  assert (value_of h (j / 2) <= value_of h j) by (apply Hord; lia). lia.
Qed.

Lemma values_root (h : Heap) : 1 <= n h -> values h = value_of h 1 :: tail (values h).
Proof.
  intros Hn. unfold values. destruct (Z.to_nat (n h)) as [|k] eqn:E; [lia|]. reflexivity.
Qed.

Lemma values_tail (h h' : Heap) :
  n h' = n h -> (forall i, 2 <= i <= n h -> value_of h' i = value_of h i) ->
  tail (values h') = tail (values h).
Proof.
  intros Hn Hsame. apply list_eq. intros k. rewrite !lookup_tail, !values_lookup, Hn.
  destruct (decide (S k < Z.to_nat (n h))%nat); [|reflexivity]. f_equal. apply Hsame. lia.
Qed.

(** X22.  [dequeue()] on a well-formed heap with at least one entry
    returns, with enough fuel, the entry at the root, whose value is the
    least of the heap: the heap that is left is well formed, has one entry
    less and holds the other values, none of which is below the value
    returned. *)
Theorem dequeue_returns_least (fuel : nat) (h : Heap) :
  well_formed h -> 1 <= n h -> (Z.to_nat (n h) + 1 < fuel)%nat ->
  exists min h',
    dequeue fuel h = Returns min h' /\
    nodes h !! 1 = Some min /\
    well_formed h' /\ n h' = n h - 1 /\
    values h ≡ₚ item_value min :: values h' /\
    Forall (fun x => item_value min <= x) (values h').
Proof.
  intros Hwf Hn1 Hfuel. pose proof Hwf as [Hn Hall Hord].
  destruct (Hall 1 ltac:(lia)) as [min Hmin].
  assert (value_of h 1 = item_value min) as Hroot
    by (unfold value_of, value_at; now rewrite Hmin).
  assert (Forall (fun x => item_value min <= x) (values h)) as Hleast.
  { apply Forall_forall. intros x Hx. apply list_elem_of_lookup_1 in Hx as [k Hk].
    rewrite values_lookup in Hk. destruct (decide (k < Z.to_nat (n h))%nat); [|discriminate].
    injection Hk as <-. rewrite <- Hroot. apply (root_is_least h Hwf _ _ eq_refl). lia. }
  unfold dequeue, kROOT. rewrite Hmin.
  set (hl := if truthy (item_element min) && has_destroyVertex (options h)
             then log (destroyVertex (item_value min) (item_element min)) h else h).
  assert (nodes hl = nodes h /\ n hl = n h) as [Hnodes Hnl]
    by (unfold hl; destruct (_ && _); split; reflexivity).
  set (h0 := set_n (n hl - 1) hl).
  assert (n h0 = n h - 1) as Hn0 by (cbn; lia).
  assert (forall i, value_of h0 i = value_of h i) as Hval0.
  { intros i. unfold value_of, value_at. cbn [h0 nodes set_n]. now rewrite Hnodes. }
  assert (values h = values h0 ++ [value_of h (n h)]) as Hsplit.
  { rewrite (values_snoc h0 h) by (try lia; intros i Hi; now rewrite Hval0).
    rewrite Hn0. f_equal. f_equal. f_equal. lia. }
  assert (exists h',
            (if 0 <? n h0
             then match siftDown fuel 1
                          (set_nodes (store 1 (nodes h0 !! (1 + n h0)) (nodes h0)) h0) with
                  | Returns _ h' => Returns min h'
                  | Throws msg => Throws msg
                  | OutOfFuel => OutOfFuel
                  end
             else Returns min h0) = Returns min h' /\
            well_formed h' /\ n h' = n h - 1 /\ values h ≡ₚ item_value min :: values h')
    as (h' & Hrun & Hwf' & Hn' & Hperm).
  { destruct (Z.ltb_spec 0 (n h0)) as [Hmore|Hlast].
    - set (h1 := set_nodes (store 1 (nodes h0 !! (1 + n h0)) (nodes h0)) h0).
      assert (forall k, nodes h1 !! k = if decide (k = 1) then nodes h !! n h else nodes h !! k)
        as Hlook.
      { intros k. unfold h1. cbn [nodes set_nodes]. rewrite store_lookup, Hn0.
        cbn [h0 nodes set_n]. rewrite Hnodes.
        replace (1 + (n h - 1)) with (n h) by lia. reflexivity. }
      assert (forall k, value_of h1 k = if decide (k = 1) then value_of h (n h) else value_of h k)
        as Hval.
      { intros k. unfold value_of, value_at. rewrite Hlook. now destruct (decide (k = 1)). }
      destruct (siftDown_restores fuel 1 h1) as (h' & Hrun & Hwf' & Hn' & Hperm & _).
      + intros k Hk. rewrite Hlook. cbn in Hk.
        destruct (decide (k = 1)); apply Hall; lia.
      + cbn. lia.
      + split.
        * intros j Hj Hne. cbn in Hj. rewrite !Hval, !decide_False by dlia. apply Hord. lia.
        * intros j Hj Hchild Hge. lia.
      + cbn. lia.
      + exists h'. rewrite Hrun. split; [reflexivity|]. split; [exact Hwf'|].
        split; [cbn in Hn'; lia|].
        rewrite Hperm, Hsplit, (values_root h0), (values_root h1) by (cbn; lia).
        rewrite Hval0, Hroot, Hval, decide_True by reflexivity.
        rewrite (values_tail h1 h0) by (try reflexivity; intros i Hi; rewrite Hval, decide_False by lia;
                                        now rewrite Hval0).
        cbn [List.app]. constructor. symmetry. apply Permutation_cons_append.
    - exists h0. split; [reflexivity|]. split; [|split; [exact Hn0|]].
      + split; [lia| |]; intros i Hi; lia.
      + rewrite Hsplit.
        assert (values h0 = []) as ->
          by (unfold values; replace (Z.to_nat (n h0)) with 0%nat by lia; reflexivity).
        cbn [List.app]. replace (n h) with 1 by lia. now rewrite Hroot. }
  exists min, h'. split; [exact Hrun|]. split; [reflexivity|]. split; [exact Hwf'|].
  split; [exact Hn'|]. split; [exact Hperm|].
  rewrite Hperm in Hleast. now apply Forall_cons in Hleast as [_ ?].
Qed.

(** X23.  [dequeue()] does not test for the empty heap.  On a new heap it
    fails with a TypeError; on a heap whose only entry was dequeued it
    returns that entry again and leaves [n] at -1. *)
Theorem dequeue_of_empty_heap (opts : Options) (v : Z) (payload : value) :
  (forall fuel, dequeue fuel (new opts) = Throws TypeError) /\
  exists h1 it h2 h3,
    enqueue 2 v payload (new opts) = Returns tt h1 /\
    dequeue 1 h1 = Returns it h2 /\ item_value it = v /\ isEmpty h2 = true /\
    dequeue 1 h2 = Returns it h3 /\ n h3 = -1.
Proof.
  split; [reflexivity|].
  set (el := match has_createVertex opts with Some f => f v | None => VUndef end).
  set (cs := match has_createVertex opts with Some _ => [createVertex v] | None => [] end).
  set (it := mkItem v payload el).
  set (cs' := if truthy el && has_destroyVertex opts then cs ++ [destroyVertex v el] else cs).
  set (cs'' := if truthy el && has_destroyVertex opts then cs' ++ [destroyVertex v el] else cs').
  assert (forall k c, nodes (mkHeap (<[1 := it]> ∅) k opts c) !! 1 = Some it) as Hlook
    by (intros; apply lookup_insert_eq).
  exists (mkHeap (<[1 := it]> ∅) 1 opts cs), it,
         (mkHeap (<[1 := it]> ∅) 0 opts cs'), (mkHeap (<[1 := it]> ∅) (-1) opts cs'').
  split; [|split; [|split; [reflexivity|split; [reflexivity|split; [|reflexivity]]]]].
  - unfold enqueue, new, siftUp, value_at, kROOT, it, el, cs. cbn [options nodes n].
    destruct (has_createVertex opts) as [f|];
      cbn [log set_nodes set_n nodes n options calls List.app Z.add];
      rewrite lookup_insert_eq; reflexivity.
  - unfold dequeue, kROOT. rewrite Hlook. unfold cs'. cbn [item_element item_value it options].
    destruct (truthy el && has_destroyVertex opts); reflexivity.
  - unfold dequeue, kROOT. rewrite Hlook. unfold cs''. cbn [item_element item_value it options].
    destruct (truthy el && has_destroyVertex opts); reflexivity.
Qed.

(** ** The properties at concrete heaps *)

Lemma one_entry_well_formed : well_formed one_entry.
Proof.
  split; cbn [n one_entry]; [lia| |intros i Hi; lia].
  intros i Hi. assert (i = 1) as -> by lia. cbn [nodes one_entry].
  rewrite lookup_insert_eq. eauto.
Defined.

(** X21: a value is put into the heap of one entry. *)
Lemma enqueue_keeps_order_witness :
  exists h',
    enqueue 3 2 VUndef one_entry = Returns tt h' /\ well_formed h' /\ n h' = 2 /\
    values h' ≡ₚ 2 :: values one_entry.
Proof.
  destruct (enqueue_keeps_order 3 2 VUndef one_entry one_entry_well_formed)
    as (h' & Hrun & Hwf & Hn & Hperm & _); [cbn; lia|cbn; lia|].
  exists h'. auto.
Defined.

Lemma four_entries_well_formed : well_formed four_entries.
Proof.
  split; cbn [n four_entries]; [lia| |].
  - intros i Hi. assert (i = 1 \/ i = 2 \/ i = 3 \/ i = 4) as [->|[->|[->| ->]]] by lia;
      vm_compute; eauto.
  - intros i Hi. assert (i = 2 \/ i = 3 \/ i = 4) as [->|[->| ->]] by lia;
      vm_compute; discriminate.
Defined.

(** X22: the least of four entries is taken out; the last entry, 7, is
    put at the root and sifted down below 3. *)
Lemma dequeue_returns_least_witness :
  exists min h',
    dequeue 6 four_entries = Returns min h' /\ item_value min = 1 /\
    well_formed h' /\ n h' = 3 /\ values h' = [3; 5; 7].
Proof.
  destruct (dequeue_returns_least 6 four_entries four_entries_well_formed)
    as (min & h' & Hrun & Hmin & Hwf & Hn & _); [cbn; lia|cbn; lia|].
  exists min, h'. split; [exact Hrun|]. split; [|split; [exact Hwf|split; [exact Hn|]]].
  - vm_compute in Hmin. now injection Hmin as <-.
  - vm_compute in Hrun. injection Hrun as _ <-. reflexivity.
Defined.

End HeapProperties.

(** X24: the child inherits the fill of the root. *)
Lemma getInheritedValue_nearest_witness :
  Element_getInheritedValue no_own_property no_parent 3 (VElem 1) "fill" VUndef red_root_world = Ok iRED red_root_world.
Proof.
  apply (getInheritedValue_nearest no_own_property no_parent 3 red_root_world [two_states_node; red_root] 1 "fill" VUndef).
  - split; [reflexivity|]. exists 0%nat. split; [reflexivity|]. split; reflexivity.
  - cbn. lia.
Defined.

(** X25: a node that was set to be its own parent. *)
Lemma getInheritedValue_own_parent_witness :
  exists e w,
    own_parent no_shapes minus_on_integers 4 empty_world = Ok e w /\
    forall fuel, Element_getInheritedValue no_own_property no_parent fuel (VElem e) "text" VUndef w = Diverge.
Proof.
  eexists _, _. split; [vm_compute; reflexivity|].
  eapply getInheritedValue_own_parent; vm_compute; reflexivity.
Defined.

(** X26: the child is asked for its fill and its text. *)
Lemma get_fills_in_inherited_witness :
  Element_get no_own_property no_parent 3 1 [("fill", VUndef); ("text", VStr "none")] red_root_world
  = Ok [("fill", iRED); ("text", VStr "none")] red_root_world.
Proof.
  apply (get_fills_in_inherited no_own_property no_parent 3 red_root_world [two_states_node; red_root] 1).
  - split; [reflexivity|]. exists 0%nat. split; [reflexivity|]. split; reflexivity.
  - cbn. lia.
  - by_computation.
  - reflexivity.
Defined.

(** X28: a child is destroyed, and a Destroy command for it comes
    after. *)
Lemma destroy_forgets_node_witness :
  exists w' el',
    Element_destroy 2 6 (world_after (family no_shapes minus_on_integers 4)) = Ok tt w' /\
    elements w' !! 6%nat = Some el' /\
    Surface_handleDestroyCommand 2 [("id", oget "id" (own el'))] w' = Throw TypeError w'.
Proof.
  destruct (Element_destroy 2 6 (world_after (family no_shapes minus_on_integers 4)))
    as [[] w'|e w'|] eqn:E; [|vm_compute in E; discriminate..].
  destruct (destroy_forgets_node 2 6 _ w' E) as (el' & Hel' & _ & Hcmd).
  - vm_compute in E. injection E as <-. intros el' Hel'. vm_compute in Hel'.
    injection Hel' as <-. reflexivity.
  - exists w', el'. auto.
Defined.

(** * Properties of [algo.core.PixelBuffer] *)

Module PixelBufferProperties.
Import PixelBuffer.
Local Open Scope Z_scope.

Lemma in_bounds (b : PixelBuffer) (x y : Z) :
  out_of_bounds b x y = false <-> 0 <= x < w b /\ 0 <= y < h b.
Proof. unfold out_of_bounds. rewrite !orb_false_iff. lia. Qed.

Lemma clearPixel_returns (b : PixelBuffer) (x y : Z) :
  0 <= x < w b -> 0 <= y < h b ->
  exists b',
    clearPixel x y b = Returns tt b' /\
    w b' = w b /\ h b' = h b /\ options b' = options b /\
    pb b' = delete (x, y) (pb b) /\
    truthy (element_at b' x y) = false /\
    (forall c, c <> (x, y) -> e b' !! c = e b !! c) /\
    calls b' = calls b ++ destroyed b [(x, y)].
Proof.
  intros Hx Hy. unfold clearPixel. rewrite (proj2 (in_bounds b x y)) by easy.
  unfold destroyed, invoke_destroyPixel, element_at. cbn [e set_pb options omap fst snd].
  destruct (truthy (default (VNum 0) (e b !! (x, y)))) eqn:Et.
  - eexists. split; [reflexivity|]. destruct (has_destroyPixel (options b)) eqn:Ed;
      cbn [w h options pb e calls set_e set_pb log omap list_omap fst snd];
      rewrite ?Ed, ?Et, ?lookup_insert_eq, ?app_nil_r;
      repeat split; first [reflexivity | intros c Hc; now rewrite lookup_insert_ne].
  - eexists. split; [reflexivity|]. cbn [w h options pb e calls set_pb omap list_omap fst snd].
    rewrite Et. destruct (has_destroyPixel (options b)); rewrite ?app_nil_r; repeat split; assumption.
Qed.

Lemma clear_cells_app (l1 l2 : list (Z * Z)) : forall b,
  clear_cells (l1 ++ l2) b
  = match clear_cells l1 b with
    | Returns _ b1 => clear_cells l2 b1
    | Throws msg => Throws msg
    end.
Proof.
  induction l1 as [|c l1 IH]; intros b; [reflexivity|]. cbn [clear_cells List.app].
  destruct (clearPixel c.1 c.2 b); [apply IH|reflexivity].
Qed.

Lemma clearPixel_width (b b' : PixelBuffer) (x y : Z) (u : unit) :
  clearPixel x y b = Returns u b' -> w b' = w b.
Proof.
  unfold clearPixel, invoke_destroyPixel. destruct (out_of_bounds b x y); [discriminate|].
  destruct (truthy _); [destruct (has_destroyPixel _)|]; intros [= _ <-]; reflexivity.
Qed.

Lemma clear_cells_width (cells : list (Z * Z)) : forall b b' u,
  clear_cells cells b = Returns u b' -> w b' = w b.
Proof.
  induction cells as [|c cells IH]; intros b b' u; cbn [clear_cells].
  - now intros [= _ <-].
  - destruct (clearPixel c.1 c.2 b) as [u1 b1|] eqn:E; [|discriminate].
    intros Hrest. rewrite (IH _ _ _ Hrest). exact (clearPixel_width _ _ _ _ _ E).
Qed.

Lemma clear_row_cells (xs : list Z) (y : Z) : forall b,
  clear_row xs y b = clear_cells ((fun x => (x, y)) <$> xs) b.
Proof.
  induction xs as [|x xs IH]; intros b; [reflexivity|]. cbn [clear_row clear_cells fmap list_fmap fst snd].
  destruct (clearPixel x y b); [apply IH|reflexivity].
Qed.

Lemma clear_rows_cells (ys : list Z) : forall b,
  clear_rows ys b = clear_cells (y ← ys; (fun x => (x, y)) <$> seqZ 0 (w b)) b.
Proof.
  induction ys as [|y ys IH]; intros b; [reflexivity|].
  cbn [clear_rows mbind list_bind]. rewrite clear_cells_app, clear_row_cells.
  destruct (clear_cells _ b) as [u b1|] eqn:E; [|reflexivity].
  rewrite IH. now rewrite (clear_cells_width _ _ _ _ E).
Qed.

Lemma destroyed_same (b b1 : PixelBuffer) (cells : list (Z * Z)) :
  options b1 = options b -> (forall c, c ∈ cells -> e b1 !! c = e b !! c) ->
  destroyed b1 cells = destroyed b cells.
Proof.
  intros Ho He. unfold destroyed. rewrite Ho. destruct (has_destroyPixel (options b)); [|reflexivity].
  unfold omap, element_at.
  induction cells as [|[x y] cells IH]; [reflexivity|]. cbn [list_omap fst snd].
  rewrite (He (x, y)) by left.
  rewrite IH; [reflexivity|]. intros c Hc. apply He. now right.
Qed.

Lemma destroyed_cons (b : PixelBuffer) (c : Z * Z) (cells : list (Z * Z)) :
  destroyed b (c :: cells) = destroyed b [c] ++ destroyed b cells.
Proof.
  unfold destroyed. destruct (has_destroyPixel (options b)); [|reflexivity].
  cbn [omap list_omap]. now destruct (truthy _).
Qed.

Lemma clear_cells_returns (cells : list (Z * Z)) : forall b,
  Forall (fun c => 0 <= c.1 < w b /\ 0 <= c.2 < h b) cells -> NoDup cells ->
  exists b',
    clear_cells cells b = Returns tt b' /\
    w b' = w b /\ h b' = h b /\ options b' = options b /\
    (forall c, c ∈ cells -> pb b' !! c = None /\ truthy (element_at b' c.1 c.2) = false) /\
    (forall c, c ∉ cells -> pb b' !! c = pb b !! c /\ e b' !! c = e b !! c) /\
    calls b' = calls b ++ destroyed b cells.
Proof.
  induction cells as [|[x y] cells IH]; intros b Hin Hnd.
  - exists b. split; [reflexivity|]. do 3 (split; [reflexivity|]). split; [|split].
    + intros c Hc. now apply elem_of_nil in Hc.
    + intros c _. split; reflexivity.
    + unfold destroyed. destruct (has_destroyPixel _); cbn [omap list_omap]; now rewrite app_nil_r.
  - apply Forall_cons in Hin as [[Hx Hy] Hin]. apply NoDup_cons in Hnd as [Hnew Hnd].
    cbn [fst snd] in Hx, Hy.
    destruct (clearPixel_returns b x y Hx Hy) as (b1 & Hrun & Hw & Hh & Ho & Hpb & Hel & He & Hcalls).
    destruct (IH b1) as (b' & Hrest & Hw' & Hh' & Ho' & Hin' & Hout' & Hcalls'); [|exact Hnd|].
    { rewrite Hw, Hh. exact Hin. }
    exists b'. cbn [clear_cells fst snd]. rewrite Hrun. split; [exact Hrest|].
    split; [congruence|]. split; [congruence|]. split; [congruence|]. split; [|split].
    + intros c [->|Hc]%elem_of_cons; [|now apply Hin'].
      destruct (Hout' (x, y) Hnew) as [Hp He']. rewrite Hp, Hpb, lookup_delete_eq.
      split; [reflexivity|]. cbn [fst snd]. unfold element_at in *. now rewrite He'.
    + intros c Hc. apply not_elem_of_cons in Hc as [Hne Hc].
      destruct (Hout' c Hc) as [Hp He']. rewrite Hp, He', Hpb, lookup_delete_ne by congruence.
      split; [reflexivity|]. now apply He.
    + rewrite Hcalls', Hcalls, (destroyed_cons b (x, y) cells), <- (assoc_L (++)). f_equal. f_equal.
      apply destroyed_same; [exact Ho|]. intros c Hc. apply He. intros ->. contradiction.
Qed.

Lemma cells_of_in (wd ht : Z) (c : Z * Z) :
  c ∈ cells_of wd ht <-> 0 <= c.1 < wd /\ 0 <= c.2 < ht.
Proof.
  unfold cells_of. rewrite list_elem_of_bind. split.
  - intros (y & Hc & Hy). apply list_elem_of_fmap in Hc as (x & -> & Hx).
    apply elem_of_seqZ in Hx, Hy. cbn. lia.
  - intros [Hx Hy]. exists c.2. split; [|apply elem_of_seqZ; lia].
    apply list_elem_of_fmap. exists c.1. split; [now destruct c|apply elem_of_seqZ; lia].
Qed.

Lemma cells_of_NoDup (wd ht : Z) : NoDup (cells_of wd ht).
Proof.
  unfold cells_of. apply NoDup_bind.
  - intros y1 y2 c _ _ H1 H2.
    apply list_elem_of_fmap in H1 as (x1 & -> & _). apply list_elem_of_fmap in H2 as (x2 & [= _ ->] & _).
    reflexivity.
  - intros y _. apply NoDup_fmap_2_strong; [|apply NoDup_seqZ]. intros x1 x2 _ _ [= ->]. reflexivity.
  - apply NoDup_seqZ.
Qed.

Lemma invoke_updatePixel_keeps (x y : Z) (pixel element : value) (b : PixelBuffer) :
  w (invoke_updatePixel x y pixel element b) = w b /\
  h (invoke_updatePixel x y pixel element b) = h b /\
  pb (invoke_updatePixel x y pixel element b) = pb b /\
  e (invoke_updatePixel x y pixel element b) = e b.
Proof. unfold invoke_updatePixel. destruct (has_updatePixel _); repeat split. Qed.

Lemma setPixel_returns (to_Color : value -> string + value) (b : PixelBuffer)
    (x y : Z) (v pixel : value) :
  0 <= x < w b -> 0 <= y < h b -> to_Color v = inr pixel ->
  exists b',
    setPixel to_Color x y v b = Returns tt b' /\
    w b' = w b /\ h b' = h b /\
    pb b' = <[(x, y) := pixel]> (pb b) /\
    (forall c, c <> (x, y) -> e b' !! c = e b !! c) /\
    element_at b' x y
    = (if truthy (element_at b x y) then element_at b x y
       else match has_createPixel (options b) with
            | Some f => f x y
            | None => VUndef
            end).
Proof.
  intros Hx Hy Hc. unfold setPixel. rewrite (proj2 (in_bounds b x y)), Hc by easy.
  set (b1 := set_pb (<[(x, y) := pixel]> (pb b)) b).
  change (element_at b1 x y) with (element_at b x y).
  destruct (truthy (element_at b x y)) eqn:Et; cbn [negb].
  - change (element_at b1 x y) with (element_at b x y). rewrite Et.
    eexists. split; [reflexivity|].
    destruct (invoke_updatePixel_keeps x y pixel (element_at b x y) b1) as (Hw1 & Hh1 & Hpb1 & He1).
    split; [exact Hw1|]. split; [exact Hh1|]. split; [exact Hpb1|].
    split; [intros c _; now rewrite He1|]. unfold element_at in *. now rewrite He1.
  - unfold invoke_createPixel. change (options b1) with (options b).
    destruct (has_createPixel (options b)) as [f|].
    + set (b2 := set_e _ _).
      assert (element_at b2 x y = f x y) as Hel
        by (unfold element_at, b2; cbn [e set_e]; now rewrite lookup_insert_eq).
      assert (forall c, c <> (x, y) -> e b2 !! c = e b !! c) as He2
        by (intros c Hne; unfold b2; cbn [e set_e log]; now rewrite lookup_insert_ne).
      rewrite Hel. destruct (truthy (f x y)).
      * eexists. split; [reflexivity|].
        destruct (invoke_updatePixel_keeps x y pixel (f x y) b2) as (Hw1 & Hh1 & Hpb1 & He1).
        split; [exact Hw1|]. split; [exact Hh1|]. split; [exact Hpb1|].
        split; [intros c Hne; rewrite He1; now apply He2|].
        unfold element_at in *. now rewrite He1.
      * eexists. split; [reflexivity|]. do 3 (split; [reflexivity|]). split; assumption.
    + set (b2 := set_e _ _).
      assert (element_at b2 x y = VUndef) as Hel
        by (unfold element_at, b2; cbn [e set_e]; now rewrite lookup_insert_eq).
      assert (forall c, c <> (x, y) -> e b2 !! c = e b !! c) as He2
        by (intros c Hne; unfold b2; cbn [e set_e]; now rewrite lookup_insert_ne).
      rewrite Hel. cbn [truthy].
      eexists. split; [reflexivity|]. do 3 (split; [reflexivity|]). split; assumption.
Qed.

(** X29.  [setPixel(x, y, v)] within the bounds, when the colour can be
    made, returns; [getPixel(x, y)] then returns the [Color] object; no
    other pixel and no other element is changed; the pixel keeps the
    element that it had, and gets the one that [createPixel] returns when
    it had none.  After [clearPixel(x, y)], [getPixel(x, y)] returns [null]
    and there is no element for the pixel. *)
Theorem getPixel_after_setPixel (to_Color : value -> string + value) (b : PixelBuffer)
    (x y : Z) (v pixel : value) :
  0 <= x < w b -> 0 <= y < h b -> to_Color v = inr pixel ->
  exists b',
    setPixel to_Color x y v b = Returns tt b' /\
    w b' = w b /\ h b' = h b /\
    getPixel x y b' = Returns pixel b' /\
    (forall c, c <> (x, y) -> pb b' !! c = pb b !! c /\ e b' !! c = e b !! c) /\
    element_at b' x y
    = (if truthy (element_at b x y) then element_at b x y
       else match has_createPixel (options b) with
            | Some f => f x y
            | None => VUndef
            end) /\
    exists b'',
      clearPixel x y b' = Returns tt b'' /\
      getPixel x y b'' = Returns VNull b'' /\
      truthy (element_at b'' x y) = false.
Proof.
  intros Hx Hy Hc.
  destruct (setPixel_returns to_Color b x y v pixel Hx Hy Hc) as (b' & Hrun & Hw & Hh & Hpb & He & Hel).
  exists b'. split; [exact Hrun|]. split; [exact Hw|]. split; [exact Hh|]. split; [|split; [|split]].
  - unfold getPixel. rewrite (proj2 (in_bounds b' x y)) by (rewrite Hw, Hh; easy).
    now rewrite Hpb, lookup_insert_eq.
  - intros c Hne. split; [|now apply He]. rewrite Hpb. now apply lookup_insert_ne.
  - exact Hel.
  - destruct (clearPixel_returns b' x y) as (b'' & Hrun' & Hw' & Hh' & _ & Hpb' & Hel' & _);
      [rewrite Hw; easy|rewrite Hh; easy|].
    exists b''. split; [exact Hrun'|]. split; [|exact Hel'].
    unfold getPixel. rewrite (proj2 (in_bounds b'' x y)) by (rewrite Hw', Hh', Hw, Hh; easy).
    now rewrite Hpb', lookup_delete_eq.
Qed.

(** X30.  [clear()] returns for every buffer; afterwards [getPixel] is
    [null] at every coordinate within the bounds and none of them has an
    element; [destroyPixel], when it is given, has been invoked once for
    each element that the buffer held within the bounds, row by row, and
    nothing else has been invoked. *)
Theorem clear_empties_buffer (b : PixelBuffer) :
  exists b',
    clear b = Returns tt b' /\
    w b' = w b /\ h b' = h b /\
    (forall x y, 0 <= x < w b -> 0 <= y < h b ->
       getPixel x y b' = Returns VNull b' /\ truthy (element_at b' x y) = false) /\
    calls b' = calls b ++ destroyed b (cells_of (w b) (h b)).
Proof.
  unfold clear. rewrite clear_rows_cells. fold (cells_of (w b) (h b)).
  destruct (clear_cells_returns (cells_of (w b) (h b)) b)
    as (b' & Hrun & Hw & Hh & _ & Hin & _ & Hcalls).
  { apply Forall_forall. intros c Hc. now apply cells_of_in. }
  { apply cells_of_NoDup. }
  exists b'. split; [exact Hrun|]. split; [exact Hw|]. split; [exact Hh|]. split; [|exact Hcalls].
  intros x y Hx Hy. destruct (Hin (x, y)) as [Hp Hel]; [now apply cells_of_in|].
  split; [|exact Hel]. unfold getPixel.
  rewrite (proj2 (in_bounds b' x y)) by (rewrite Hw, Hh; easy). now rewrite Hp.
Qed.

(** X29: a pixel is set in a buffer of two by two pixels whose pixels get
    elements. *)
Lemma getPixel_after_setPixel_witness :
  exists b',
    setPixel inr 1 0 iRED two_by_two = Returns tt b' /\
    getPixel 1 0 b' = Returns iRED b'.
Proof.
  destruct (getPixel_after_setPixel inr two_by_two 1 0 iRED iRED)
    as (b' & Hset & _ & _ & Hget & _); [cbn; lia|cbn; lia|reflexivity|].
  exists b'. split; assumption.
Defined.

End PixelBufferProperties.
